(** * Default-value injection from the caller identity (`@default(auth())`)

    A shallow embedding of [DefaultAuthHandler]
    (runtime/src/enhancements/node/default-auth.ts) and the properties of
    its write-payload preprocessing.

    The handler is embedded twice, and the two embeddings are related.

    - [Payload]: the handler's callbacks on one create payload.  The payload
      is the clone the handler owns, a JSON-like tree; the in-place updates
      of the source are written as state passing, each function returning
      the updated payload.
    - [Store]: the same code over a store of objects with identity, where
      the caller's argument object, its clone and the objects the handler
      allocates are distinct cells; used for what the caller can observe.
    - [Store.repr] and [Store.simulates]: on a payload without sharing, as
      a clone is, a run of the [Store] handler leaves in the store the tree
      that the [Payload] handler returns, and throws what it throws.
    - [keptCells] and [holds]: a run of the [Store] handler adds properties
      and replaces none, so what it returns holds everything the caller has
      set.

    Beside the handler, three pieces of the schema plugins that decide the
    shape of what the handler meets: the truncation of made-up identifiers
    and the walks of the inheritance hierarchy of the Prisma schema
    generator ([SchemaGenerator], [Hierarchy]), and the rewriting of the
    client interfaces of delegate models by the enhancer generator
    ([Enhancer]). *)

From Stdlib Require Import ssreflect ZArith Ascii.
From stdpp Require Import base option strings list gmap pretty.

Open Scope string_scope.
Set Warnings "-register-all,-rewrite-rw,-clear-no-such-hyp".

(** ** JSON-like values *)

Inductive value : Type :=
  | VUndefined
  | VNull
  | VBool (b : bool)
  | VNum (n : Z)
  | VStr (s : string)
  | VObj (props : list (string * value))
  | VArr (items : list value).

(** JavaScript truthiness ([!x] is its negation). *)
Definition truthy (v : value) : bool :=
  match v with
  | VUndefined | VNull => false
  | VBool b => b
  | VNum n => negb (n =? 0)%Z
  | VStr s => negb (String.eqb s "")
  | VObj _ | VArr _ => true
  end.

(** [typeof v === 'object'] (true of [null] and of arrays as well). *)
Definition typeof_object (v : value) : bool :=
  match v with
  | VNull | VObj _ | VArr _ => true
  | _ => false
  end.

Definition isArray (v : value) : bool :=
  match v with VArr _ => true | _ => false end.

(** ** Outcomes

    [Throw] is a JavaScript exception.  [Unmodelled] marks a run that leaves
    the fragment embedded here: a property operation on an array or on a
    primitive wrapper, or an exhausted recursion budget.  No theorem
    concludes anything from an [Unmodelled] run. *)

Inductive error : Type :=
  | TypeError
  | NotFoundError (msg : string)
  | SchemaMismatchError (msg : string)
  | JsError (msg : string)
  | ValidationError (msg : string).

Inductive result (A : Type) : Type :=
  | Ok (a : A)
  | Throw (e : error)
  | Unmodelled.
Arguments Ok {A} a.
Arguments Throw {A} e.
Arguments Unmodelled {A}.

#[global] Instance result_ret : MRet result := fun A a => Ok a.
#[global] Instance result_bind : MBind result := fun A B f m =>
  match m with
  | Ok a => f a
  | Throw e => Throw e
  | Unmodelled => Unmodelled
  end.

(** [for (const x of xs) { acc = body(acc, x) }], stopping at the first
    exception. *)
Fixpoint foldM {A B : Type} (body : A -> B -> result A) (xs : list B) (acc : A)
  : result A :=
  match xs with
  | [] => Ok acc
  | x :: xs' => acc' ← body acc x; foldM body xs' acc'
  end.

(** [xs.forEach(body)] where [body] updates the element it is given. *)
Fixpoint forEachM {A : Type} (body : A -> result A) (xs : list A)
  : result (list A) :=
  match xs with
  | [] => Ok []
  | x :: xs' => x' ← body x; xs'' ← forEachM body xs'; Ok (x' :: xs'')
  end.

#[global] Instance result_fmap : FMap result := fun A B f m =>
  match m with
  | Ok a => Ok (f a)
  | Throw e => Throw e
  | Unmodelled => Unmodelled
  end.

(** Modelled from the spec: [enumerate] of the `cross` module, which lets an
    embedded value or a batch be a single object or an array of objects
    (nothing to go through for [null] and [undefined]).
    [overEnumerated body x] is [for (const item of enumerate(x)) body(item)]
    with the items updated in place. *)
Definition enumerate (x : value) : list value :=
  match x with
  | VUndefined | VNull => []
  | VArr items => items
  | _ => [x]
  end.

Definition overEnumerated (body : value -> result value) (x : value) : result value :=
  match x with
  | VUndefined | VNull => Ok x
  | VArr items => VArr <$> forEachM body items
  | _ => body x
  end.

(** ** Objects as ordered property lists *)

Fixpoint assoc_get {A : Type} (k : string) (ps : list (string * A)) : option A :=
  match ps with
  | [] => None
  | (k', v) :: ps' => if String.eqb k k' then Some v else assoc_get k ps'
  end.

(** [o[k] = v]: replaces the value of an existing key in place, appends a new
    key at the end. *)
Fixpoint assoc_set {A : Type} (k : string) (v : A) (ps : list (string * A))
  : list (string * A) :=
  match ps with
  | [] => [(k, v)]
  | (k', v') :: ps' =>
      if String.eqb k k' then (k, v) :: ps' else (k', v') :: assoc_set k v ps'
  end.

Definition assoc_mem {A : Type} (k : string) (ps : list (string * A)) : bool :=
  match assoc_get k ps with Some _ => true | None => false end.

(** [k in v].  Field names are taken not to collide with the members of
    [Object.prototype]: only own properties are looked at. *)
Definition hasProperty (k : string) (v : value) : result bool :=
  match v with
  | VObj ps => Ok (assoc_mem k ps)
  | VArr _ => Unmodelled
  | _ => Throw TypeError
  end.

(** [v[k]] *)
Definition getProperty (v : value) (k : string) : result value :=
  match v with
  | VObj ps => Ok (default VUndefined (assoc_get k ps))
  | VUndefined | VNull => Throw TypeError
  | _ => Unmodelled
  end.

(** [v[k] = x] *)
Definition setProperty (v : value) (k : string) (x : value) : result value :=
  match v with
  | VObj ps => Ok (VObj (assoc_set k x ps))
  | VUndefined | VNull => Throw TypeError
  | _ => Unmodelled
  end.

(** The object [v[k]] was mutated in place into [x]: the payload [v] now
    shows [x] under [k].  Nothing is added when [v] has no such key. *)
Definition putBack (v : value) (k : string) (x : value) : value :=
  match v with
  | VObj ps => if assoc_mem k ps then VObj (assoc_set k x ps) else v
  | _ => v
  end.

(** ** Model metadata *)

Record FieldInfo : Type := mkField {
  name : string;
  type : string;
  isTypeDef : bool;
  isDataModel : bool;
  isForeignKey : bool;
  relationField : option string;
  foreignKeyMapping : option (list (string * string));
  defaultValueProvider : option (value -> value);
}.

Record ModelMeta : Type := mkMeta {
  models : list (string * list FieldInfo);
  typeDefs : list (string * list FieldInfo);
}.

(** Modelled from the spec: [getFields], [requireField] and [getTypeDefInfo]
    of the metadata index (the `cross` module is not part of the sources at
    hand).  The ordered mapping field-name to FieldInfo is kept as the list
    of its values in declaration order, a field being looked up by its own
    name. *)
Definition getFields (meta : ModelMeta) (model : string) : option (list FieldInfo) :=
  assoc_get model (models meta).

Definition requireField (meta : ModelMeta) (model field : string) : result FieldInfo :=
  match getFields meta model with
  | None => Throw (NotFoundError model)
  | Some fields =>
      match find (fun f => String.eqb (name f) field) fields with
      | Some f => Ok f
      | None => Throw (NotFoundError field)
      end
  end.

Definition getTypeDefInfo (meta : ModelMeta) (type : string) : option (list FieldInfo) :=
  assoc_get type (typeDefs meta).

(** A string used as a condition: [undefined] and the empty string are
    falsy. *)
Definition truthy_name (o : option string) : option string :=
  match o with
  | Some s => if String.eqb s "" then None else Some s
  | None => None
  end.

(** ** The handler on one payload *)

Module Payload.
Section Handler.

(** [this.options.modelMeta], [this.userContext] and the trust predicate
    [isUnsafeMutate] of the policy layer, which the handler only
    consumes. *)
Variable meta : ModelMeta.
Variable userContext : value.
Variable isUnsafeMutate : string -> value -> bool.

Definition requiresUserMessage (field : string) : string :=
  "Evaluating default value of field `" ++ field ++ "` requires a user context".

Definition noRelationFieldMessage (field : string) : string :=
  "Field `" ++ field ++
  "` is a foreign key field but no corresponding relation field is found".

Definition noOppositeFkMessage (field relField : string) : string :=
  "Cannot find opposite foreign key field for `" ++ field ++
  "` in relation field `" ++ relField ++ "`".

Definition getDefaultValue (fieldInfo : FieldInfo) : result value :=
  if negb (truthy userContext) then
    Throw (ValidationError (requiresUserMessage (name fieldInfo)))
  else
    Ok (match defaultValueProvider fieldInfo with
        | Some provider => provider userContext
        | None => VUndefined
        end).

Definition getOppositeFkFieldName (relationField fieldInfo : FieldInfo)
  : option string :=
  match foreignKeyMapping relationField with
  | None => None
  | Some mapping =>
      fst <$> find (fun entry => String.eqb (snd entry) (name fieldInfo)) mapping
  end.

(** [fieldInfo.isForeignKey && fieldInfo.relationField &&
     fieldInfo.relationField in data] *)
Definition relationAlreadySet (fieldInfo : FieldInfo) (data : value)
  : result bool :=
  if isForeignKey fieldInfo then
    match truthy_name (relationField fieldInfo) with
    | Some rel => hasProperty rel data
    | None => Ok false
    end
  else Ok false.

(** [data] is updated in place in the source; the updated payload is
    returned here.  [connect] is the object found or placed under
    [data[relationField.name].connect], so that writing the opposite key
    into it shows in the payload. *)
Definition setDefaultValueForModelData (fieldInfo : FieldInfo) (model : string)
    (data authDefaultValue : value) : result value :=
  skip ← relationAlreadySet fieldInfo data;
  if skip : bool then Ok data
  else if isForeignKey fieldInfo && negb (isUnsafeMutate model data) then
    match truthy_name (relationField fieldInfo) with
    | None => Throw (JsError (noRelationFieldMessage (name fieldInfo)))
    | Some relFieldName =>
        relationField ← requireField meta model relFieldName;
        rel ← getProperty data (name relationField);
        existing ← match rel with
                   | VUndefined | VNull => Ok VUndefined
                   | _ => getProperty rel "connect"
                   end;
        let connect := if truthy existing then existing else VObj [] in
        data1 ← (if truthy existing then Ok data
                 else setProperty data (name relationField)
                        (VObj [("connect", connect)]));
        match truthy_name (getOppositeFkFieldName relationField fieldInfo) with
        | None =>
            Throw (JsError (noOppositeFkMessage (name fieldInfo) relFieldName))
        | Some oppositeFkFieldName =>
            connect' ← setProperty connect oppositeFkFieldName authDefaultValue;
            rel1 ← getProperty data1 (name relationField);
            Ok (putBack data1 (name relationField)
                  (putBack rel1 "connect" connect'))
        end
    end
  else setProperty data (name fieldInfo) authDefaultValue.

(** One pass of the loop body of [setDefaultValueForTypeDefData] over a
    field of the type-def, [recurse] being the function itself. *)
Definition typeDefField (recurse : string -> value -> result value)
    (item : value) (fieldInfo : FieldInfo) : result value :=
  if isTypeDef fieldInfo then
    sub ← getProperty item (name fieldInfo);
    sub' ← recurse (type fieldInfo) sub;
    Ok (putBack item (name fieldInfo) sub')
  else
    present ← hasProperty (name fieldInfo) item;
    if present : bool then Ok item
    else
      defaultValue ← getDefaultValue fieldInfo;
      match defaultValue with
      | VUndefined => Ok item
      | _ => setProperty item (name fieldInfo) defaultValue
      end.

Definition typeDefItem (recurse : string -> value -> result value)
    (fields : list FieldInfo) (item : value) : result value :=
  if negb (truthy item) || negb (typeof_object item) then Ok item
  else foldM (typeDefField recurse) fields item.

(** The recursion follows the embedded value, which the loop updates as
    it goes; [fuel] bounds its depth. *)
Fixpoint setDefaultValueForTypeDefData (fuel : nat) (type : string) (data : value)
  : result value :=
  if negb (truthy data) || (negb (typeof_object data) && negb (isArray data))
  then Ok data
  else
    match getTypeDefInfo meta type with
    | None => Ok data
    | Some fields =>
        match fuel with
        | O => Unmodelled
        | S fuel' =>
            overEnumerated
              (typeDefItem (setDefaultValueForTypeDefData fuel') fields) data
        end
    end.

(** The loop body of [processCreatePayload]. *)
Definition processField (fuel : nat) (model : string) (data : value)
    (fieldInfo : FieldInfo) : result value :=
  if isTypeDef fieldInfo then
    sub ← getProperty data (name fieldInfo);
    sub' ← setDefaultValueForTypeDefData fuel (type fieldInfo) sub;
    Ok (putBack data (name fieldInfo) sub')
  else
    present ← hasProperty (name fieldInfo) data;
    if present : bool then Ok data
    else
      match defaultValueProvider fieldInfo with
      | None => Ok data
      | Some _ =>
          defaultValue ← getDefaultValue fieldInfo;
          match defaultValue with
          | VUndefined => Ok data
          | _ => setDefaultValueForModelData fieldInfo model data defaultValue
          end
      end.

(** [Object.values] of an absent field table is a [TypeError]. *)
Definition processCreatePayload (fuel : nat) (model : string) (data : value)
  : result value :=
  match getFields meta model with
  | None => Throw TypeError
  | Some fields => foldM (processField fuel model) fields data
  end.

(** The three callbacks registered with the visitor. *)
Definition onCreate (fuel : nat) (model : string) (data : value) : result value :=
  processCreatePayload fuel model data.

Definition onUpsert (fuel : nat) (model : string) (data : value) : result value :=
  create ← getProperty data "create";
  create' ← processCreatePayload fuel model create;
  Ok (putBack data "create" create').

Definition onCreateMany (fuel : nat) (model : string) (args : value) : result value :=
  items ← getProperty args "data";
  items' ← overEnumerated (processCreatePayload fuel model) items;
  Ok (putBack args "data" items').

End Handler.
End Payload.

(** ** The handler over a store of objects

    Objects and arrays are cells of a store and are held by reference, so
    that two variables can name the same object and a write through one shows
    through the other.  [Imm v] is a value held as such: a scalar, or an
    object that lives outside the store (what a default provider hands out);
    the embedding reads and writes no property of the latter. *)

Module Store.

Definition loc : Type := nat.

Inductive hvalue : Type :=
  | Imm (v : value)
  | Ref (l : loc).

Inductive cell : Type :=
  | CObj (props : list (string * hvalue))
  | CArr (items : list hvalue).

Definition store : Type := list cell.

Inductive outcome (A : Type) : Type :=
  | Done (a : A) (s : store)
  | Raised (e : error) (s : store)
  | OutOfModel.
Arguments Done {A} a s.
Arguments Raised {A} e s.
Arguments OutOfModel {A}.

Definition M (A : Type) : Type := store -> outcome A.

Definition ret {A : Type} (a : A) : M A := fun s => Done a s.

Definition bind {A B : Type} (m : M A) (k : A -> M B) : M B := fun s =>
  match m s with
  | Done a s' => k a s'
  | Raised e s' => Raised e s'
  | OutOfModel => OutOfModel
  end.

Definition raise {A : Type} (e : error) : M A := fun s => Raised e s.

Definition outOfModel {A : Type} : M A := fun _ => OutOfModel.

Definition liftResult {A : Type} (r : result A) : M A :=
  match r with
  | Ok a => ret a
  | Throw e => raise e
  | Unmodelled => outOfModel
  end.

#[global] Instance M_ret : MRet M := @ret.
#[global] Instance M_bind : MBind M := fun A B k m => bind m k.

(** [for (const x of xs) body(x)] *)
Fixpoint forEach {A : Type} (xs : list A) (body : A -> M unit) : M unit :=
  match xs with
  | [] => ret tt
  | x :: xs' => body x;; forEach xs' body
  end.

(** [xs.map(f)], the calls in order *)
Fixpoint mapEach {A B : Type} (f : A -> M B) (xs : list A) : M (list B) :=
  match xs with
  | [] => ret []
  | x :: xs' => y ← f x; ys ← mapEach f xs'; ret (y :: ys)
  end.

Definition read (l : loc) : M cell := fun s =>
  match s !! l with
  | Some c => Done c s
  | None => OutOfModel
  end.

Definition write (l : loc) (c : cell) : M unit := fun s => Done tt (<[l := c]> s).

(** A new object or array: a cell that no earlier reference names. *)
Definition alloc (c : cell) : M hvalue := fun s => Done (Ref (length s)) (s ++ [c])%list.

Definition truthy (v : hvalue) : bool :=
  match v with
  | Imm x => truthy x
  | Ref _ => true
  end.

Definition typeof_object (v : hvalue) : bool :=
  match v with
  | Imm x => typeof_object x
  | Ref _ => true
  end.

Definition isUndefined (v : hvalue) : bool :=
  match v with Imm VUndefined => true | _ => false end.

Definition isNullish (v : hvalue) : bool :=
  match v with Imm VUndefined | Imm VNull => true | _ => false end.

Definition isArray (v : hvalue) : M bool :=
  match v with
  | Imm x => ret (isArray x)
  | Ref l => c ← read l; ret (match c with CArr _ => true | CObj _ => false end)
  end.

(** [k in v] *)
Definition hasProperty (k : string) (v : hvalue) : M bool :=
  match v with
  | Ref l =>
      c ← read l;
      match c with
      | CObj ps => ret (assoc_mem k ps)
      | CArr _ => outOfModel
      end
  | Imm (VObj _) | Imm (VArr _) => outOfModel
  | Imm _ => raise TypeError
  end.

(** [v[k]] *)
Definition getProperty (v : hvalue) (k : string) : M hvalue :=
  match v with
  | Ref l =>
      c ← read l;
      match c with
      | CObj ps => ret (default (Imm VUndefined) (assoc_get k ps))
      | CArr _ => outOfModel
      end
  | Imm VUndefined | Imm VNull => raise TypeError
  | Imm _ => outOfModel
  end.

(** [v[k] = x] *)
Definition setProperty (v : hvalue) (k : string) (x : hvalue) : M unit :=
  match v with
  | Ref l =>
      c ← read l;
      match c with
      | CObj ps => write l (CObj (assoc_set k x ps))
      | CArr _ => outOfModel
      end
  | Imm VUndefined | Imm VNull => raise TypeError
  | Imm _ => outOfModel
  end.

(** Modelled from the spec: [enumerate] of the `cross` module (a single
    object or an array of objects), here over references. *)
Definition enumerate (x : hvalue) : M (list hvalue) :=
  match x with
  | Imm VUndefined | Imm VNull => ret []
  | Imm (VArr items) => ret (Imm <$> items)
  | Imm _ => ret [x]
  | Ref l =>
      c ← read l;
      match c with
      | CArr items => ret items
      | CObj _ => ret [x]
      end
  end.

(** Modelled from the spec: [clone], the deep clone of the argument tree
    (the `cross` module is not part of the sources at hand).  Every object
    and array reached from [v] is copied into a new cell; [fuel] bounds the
    depth of the tree. *)
Fixpoint clone (fuel : nat) (v : hvalue) : M hvalue :=
  match v with
  | Imm _ => ret v
  | Ref l =>
      match fuel with
      | O => outOfModel
      | S fuel' =>
          c ← read l;
          match c with
          | CObj ps =>
              ps' ← mapEach (fun p => x ← clone fuel' (snd p); ret (fst p, x)) ps;
              alloc (CObj ps')
          | CArr items =>
              items' ← mapEach (clone fuel') items;
              alloc (CArr items')
          end
      end
  end.

(** Own keys of an object, in insertion order. *)
Definition keys (v : hvalue) : M (list string) :=
  match v with
  | Ref l =>
      c ← read l;
      match c with
      | CObj ps => ret (fst <$> ps)
      | CArr _ => outOfModel
      end
  | Imm _ => outOfModel
  end.

(** The callbacks a client of the visitor registers. *)
Record NestedWriteVisitorCallback : Type := mkCallback {
  create : string -> hvalue -> M unit;
  upsert : string -> hvalue -> M unit;
  createMany : string -> hvalue -> M unit;
}.

Section Handler.

(** [this.options.modelMeta], [this.userContext], [this.model]; the trust
    predicate of the policy layer, which reads the payload; the list
    [ACTIONS_WITH_WRITE_PAYLOAD] of the constants module; and the bound on
    the depth of the recursions. *)
Variable meta : ModelMeta.
Variable userContext : value.
Variable isUnsafeMutate : string -> store -> hvalue -> bool.
Variable thisModel : string.
Variable ACTIONS_WITH_WRITE_PAYLOAD : list string.
Variable fuel : nat.

Definition getDefaultValue (fieldInfo : FieldInfo) : M hvalue :=
  v ← liftResult (Payload.getDefaultValue userContext fieldInfo); ret (Imm v).

Definition relationAlreadySet (fieldInfo : FieldInfo) (data : hvalue) : M bool :=
  if isForeignKey fieldInfo then
    match truthy_name (relationField fieldInfo) with
    | Some rel => hasProperty rel data
    | None => ret false
    end
  else ret false.

Definition setDefaultValueForModelData (fieldInfo : FieldInfo) (model : string)
    (data authDefaultValue : hvalue) : M unit :=
  skip ← relationAlreadySet fieldInfo data;
  if skip : bool then ret tt
  else
    unsafe ← (fun s => Done (isUnsafeMutate model s data) s);
    if isForeignKey fieldInfo && negb unsafe then
      match truthy_name (relationField fieldInfo) with
      | None => raise (JsError (Payload.noRelationFieldMessage (name fieldInfo)))
      | Some relFieldName =>
          relationField ← liftResult (requireField meta model relFieldName);
          rel ← getProperty data (name relationField);
          existing ← (if isNullish rel then ret (Imm VUndefined)
                      else getProperty rel "connect");
          connect ← (if truthy existing then ret existing
                     else
                       connect ← alloc (CObj []);
                       wrapper ← alloc (CObj [("connect", connect)]);
                       setProperty data (name relationField) wrapper;;
                       ret connect);
          match truthy_name (Payload.getOppositeFkFieldName relationField fieldInfo) with
          | None =>
              raise (JsError (Payload.noOppositeFkMessage (name fieldInfo)
                                relFieldName))
          | Some oppositeFkFieldName =>
              setProperty connect oppositeFkFieldName authDefaultValue
          end
      end
    else setProperty data (name fieldInfo) authDefaultValue.

(** One pass of the loop of [setDefaultValueForTypeDefData] over a field of
    the type-def, [recurse] being the function itself. *)
Definition typeDefField (recurse : string -> hvalue -> M unit) (item : hvalue)
    (fieldInfo : FieldInfo) : M unit :=
  if isTypeDef fieldInfo then
    sub ← getProperty item (name fieldInfo);
    recurse (type fieldInfo) sub
  else
    present ← hasProperty (name fieldInfo) item;
    if present : bool then ret tt
    else
      defaultValue ← getDefaultValue fieldInfo;
      if isUndefined defaultValue then ret tt
      else setProperty item (name fieldInfo) defaultValue.

Definition typeDefItem (recurse : string -> hvalue -> M unit)
    (fields : list FieldInfo) (item : hvalue) : M unit :=
  if negb (truthy item) || negb (typeof_object item) then ret tt
  else forEach fields (typeDefField recurse item).

Fixpoint setDefaultValueForTypeDefData (depth : nat) (typeName : string)
    (data : hvalue) : M unit :=
  array ← isArray data;
  if negb (truthy data) || (negb (typeof_object data) && negb array) then ret tt
  else
    match getTypeDefInfo meta typeName with
    | None => ret tt
    | Some fields =>
        match depth with
        | O => outOfModel
        | S depth' =>
            items ← enumerate data;
            forEach items (typeDefItem (setDefaultValueForTypeDefData depth') fields)
        end
    end.

(** The loop body of [processCreatePayload]. *)
Definition processField (model : string) (data : hvalue) (fieldInfo : FieldInfo)
  : M unit :=
  if isTypeDef fieldInfo then
    sub ← getProperty data (name fieldInfo);
    setDefaultValueForTypeDefData fuel (type fieldInfo) sub
  else
    present ← hasProperty (name fieldInfo) data;
    if present : bool then ret tt
    else
      match defaultValueProvider fieldInfo with
      | None => ret tt
      | Some _ =>
          defaultValue ← getDefaultValue fieldInfo;
          if isUndefined defaultValue then ret tt
          else setDefaultValueForModelData fieldInfo model data defaultValue
      end.

Definition processCreatePayload (model : string) (data : hvalue) : M unit :=
  match getFields meta model with
  | None => raise TypeError
  | Some fields => forEach fields (processField model data)
  end.

(** The callbacks of [preprocessWritePayload]. *)
Definition visitor : NestedWriteVisitorCallback := {|
  create := fun model data => processCreatePayload model data;
  upsert := fun model data =>
    payload ← getProperty data "create"; processCreatePayload model payload;
  createMany := fun model args =>
    batch ← getProperty args "data";
    items ← enumerate batch;
    forEach items (fun item => processCreatePayload model item);
|}.

(** Modelled from the spec: the Nested-Write Visitor (section 4.2), which is
    not part of the sources at hand.  It goes through a write-operation tree
    in pre-order: the callback of a node runs first, then the relation fields
    of the node are looked at in declaration order, and each recognised
    structural key found under one of them is visited for the model the field
    refers to.  [connect], [delete] and scalar payloads are not descended
    into; a model or a field that the metadata does not know is a
    [SchemaMismatchError]. *)
Definition structuralKeys : list string :=
  ["create"; "createMany"; "upsert"; "connectOrCreate"; "update"].

Definition isOneOf (names : list string) (x : string) : bool :=
  existsb (String.eqb x) names.

(** The relation fields of a node, [visitNested] being the visitor itself. *)
Definition descend (visitNested : string -> string -> hvalue -> M unit)
    (model : string) (node : hvalue) : M unit :=
  if negb (truthy node) || negb (typeof_object node) then ret tt
  else
    match getFields meta model with
    | None => raise (SchemaMismatchError model)
    | Some fields =>
        present ← keys node;
        forEach present (fun key =>
          if isOneOf (name <$> fields) key then ret tt
          else raise (SchemaMismatchError key));;
        forEach fields (fun fieldInfo =>
          if isDataModel fieldInfo then
            sub ← getProperty node (name fieldInfo);
            if negb (truthy sub) || negb (typeof_object sub) then ret tt
            else
              forEach structuralKeys (fun key =>
                found ← hasProperty key sub;
                if found : bool then
                  nested ← getProperty sub key;
                  visitNested (type fieldInfo) key nested
                else ret tt)
          else ret tt)
    end.

Fixpoint visitNode (cb : NestedWriteVisitorCallback) (depth : nat)
    (model action : string) (payload : hvalue) : M unit :=
  match depth with
  | O => outOfModel
  | S depth' =>
      if negb (truthy payload) then ret tt
      else if String.eqb action "create" then
        items ← enumerate payload;
        forEach items (fun item =>
          create cb model item;;
          descend (visitNode cb depth') model item)
      else if isOneOf ["createMany"; "createManyAndReturn"] action then
        createMany cb model payload;;
        batch ← getProperty payload "data";
        items ← enumerate batch;
        forEach items (descend (visitNode cb depth') model)
      else if String.eqb action "upsert" then
        items ← enumerate payload;
        forEach items (fun item =>
          upsert cb model item;;
          onCreate ← getProperty item "create";
          descend (visitNode cb depth') model onCreate;;
          onUpdate ← getProperty item "update";
          descend (visitNode cb depth') model onUpdate)
      else if String.eqb action "connectOrCreate" then
        items ← enumerate payload;
        forEach items (fun item =>
          onCreate ← getProperty item "create";
          visitNode cb depth' model "create" onCreate)
      else if isOneOf ["update"; "updateMany"] action then
        items ← enumerate payload;
        forEach items (fun item =>
          wrapped ← hasProperty "data" item;
          if wrapped : bool then
            data ← getProperty item "data";
            descend (visitNode cb depth') model data
          else descend (visitNode cb depth') model item)
      else ret tt
  end.

(** At top level [create] carries its payload under [data]. *)
Definition visit (cb : NestedWriteVisitorCallback) (model action : string)
    (args : hvalue) : M unit :=
  if negb (truthy args) then ret tt
  else if String.eqb action "create" then
    data ← getProperty args "data";
    visitNode cb fuel model action data
  else visitNode cb fuel model action args.

Definition preprocessWritePayload (model action : string) (args : hvalue)
  : M hvalue :=
  newArgs ← clone fuel args;
  visit visitor model action newArgs;;
  ret newArgs.

Definition preprocessArgs (action : string) (args : hvalue) : M hvalue :=
  if truthy args && isOneOf ACTIONS_WITH_WRITE_PAYLOAD action then
    preprocessWritePayload thisModel action args
  else ret args.

End Handler.

(** The tree that a value of the store stands for, to the depth [depth]. *)
Fixpoint readBack (depth : nat) (s : store) (v : hvalue) : option value :=
  match v with
  | Imm x => Some x
  | Ref l =>
      match depth with
      | O => None
      | S depth' =>
          match s !! l with
          | None => None
          | Some (CObj ps) =>
              VObj <$> mapM (fun p => x ← readBack depth' s (snd p); Some (fst p, x)) ps
          | Some (CArr items) => VArr <$> mapM (readBack depth' s) items
          end
      end
  end.

(** *** What a run leaves of the caller's store

    [s0] is the store when the handler is entered.  A value is owned when it
    names no cell of [s0]; a store is framed when it extends [s0], shows every
    cell of [s0] as it was, and the cells beyond [s0] hold owned values
    only. *)
Definition owned (s0 : store) (v : hvalue) : Prop :=
  match v with
  | Imm _ => True
  | Ref l => length s0 <= l
  end.

Definition ownedCell (s0 : store) (c : cell) : Prop :=
  match c with
  | CObj ps => Forall (fun p => owned s0 (snd p)) ps
  | CArr items => Forall (owned s0) items
  end.

Definition framed (s0 s : store) : Prop :=
  length s0 <= length s /\
  (forall l c, s0 !! l = Some c -> s !! l = Some c) /\
  (forall l c, length s0 <= l -> s !! l = Some c -> ownedCell s0 c).

(** [m] keeps a framed store framed, whether it returns or throws, and
    returns a value that satisfies [Q]. *)
Definition keeps {A : Type} (s0 : store) (m : M A) (Q : A -> Prop) : Prop :=
  forall s, framed s0 s ->
    match m s with
    | Done a s' => framed s0 s' /\ Q a
    | Raised _ s' => framed s0 s'
    | OutOfModel => True
    end.

(** *** Payloads in the store

    [repr s v t F]: in the store [s] the value [v] stands for the tree [t],
    and the cells it is made of, [F], are each reached once: no object is
    shared, which is how a clone comes out. *)
Inductive repr (s : store) : hvalue -> value -> gset loc -> Prop :=
  | repr_imm (x : value) : repr s (Imm x) x ∅
  | repr_obj (l : loc) (ps : list (string * hvalue)) (ts : list (string * value))
      (F : gset loc) :
      s !! l = Some (CObj ps) ->
      ps.*1 = ts.*1 ->
      reprs s ps.*2 ts.*2 F ->
      l ∉ F ->
      repr s (Ref l) (VObj ts) ({[l]} ∪ F)
  | repr_arr (l : loc) (xs : list hvalue) (ts : list value) (F : gset loc) :
      s !! l = Some (CArr xs) ->
      reprs s xs ts F ->
      l ∉ F ->
      repr s (Ref l) (VArr ts) ({[l]} ∪ F)
with reprs (s : store) : list hvalue -> list value -> gset loc -> Prop :=
  | reprs_nil : reprs s [] [] ∅
  | reprs_cons (x : hvalue) (t : value) (F1 : gset loc) (xs : list hvalue)
      (ts : list value) (F2 : gset loc) :
      repr s x t F1 ->
      reprs s xs ts F2 ->
      F1 ## F2 ->
      reprs s (x :: xs) (t :: ts) (F1 ∪ F2).

Scheme repr_mind := Minimality for repr Sort Prop
  with reprs_mind := Minimality for reprs Sort Prop.
Combined Scheme repr_reprs_ind from repr_mind, reprs_mind.

(** From [s] to [s'] a run wrote only to the cells [F] and to new cells, and
    [F'] is made of cells of [F] and of new cells. *)
Definition within (s s' : store) (F F' : gset loc) : Prop :=
  length s <= length s' /\
  (forall l, l < length s -> l ∉ F -> s' !! l = s !! l) /\
  (forall l, l ∈ F' -> l ∈ F \/ length s <= l).

(** The outcome [o] of a run on the payload [v], started in [s] where [v]
    was made of [F], agrees with the result [r] computed on the tree: a
    returning run leaves [v] standing for the tree of [r], a throwing run
    throws what [r] throws. *)
Definition agrees (s : store) (v : hvalue) (F : gset loc) (o : outcome unit)
    (r : result value) : Prop :=
  match o with
  | Done _ s' => exists t' F', r = Ok t' /\ repr s' v t' F' /\ within s s' F F'
  | Raised e _ => r = Throw e
  | OutOfModel => True
  end.

(** The store function [run] does to the payload what the function [f] on
    trees computes. *)
Definition simulates (run : hvalue -> M unit) (f : value -> result value) : Prop :=
  forall s v t F, repr s v t F -> agrees s v F (run v s) (f t).

(** What a clone of a value that stood for the tree [t] in [s] is: a value
    [v'] in a store [s'] that extends [s], standing for [t] on cells beyond
    [s], each reached once. *)
Definition cloned (s : store) (t : value) (v' : hvalue) (s' : store) : Prop :=
  exists ext F,
    s' = (s ++ ext)%list /\ repr s' v' t F /\ forall l, l ∈ F -> length s <= l.

Definition clonedAll (s : store) (ts : list value) (xs' : list hvalue)
    (s' : store) : Prop :=
  exists ext F,
    s' = (s ++ ext)%list /\ reprs s' xs' ts F /\ forall l, l ∈ F -> length s <= l.

End Store.

(** ** Reading a processed payload *)

(** The own property [k] of an object ([None] when there is none). *)
Definition ownProperty (d : value) (k : string) : option value :=
  match d with
  | VObj ps => assoc_get k ps
  | _ => None
  end.

(** The payload [d] carries the default [v] of field [f]: as the scalar
    [d[f.name]], or as [d[rel].connect[opp]] for the relation field [rel]
    that owns [f] and the key [opp] its mapping sends to [f]. *)
Definition setDirectly (d : value) (f : FieldInfo) (v : value) : Prop :=
  ownProperty d (name f) = Some v.

Definition setViaConnect (meta : ModelMeta) (model : string) (d : value)
    (f : FieldInfo) (v : value) : Prop :=
  exists rel r opp,
    truthy_name (relationField f) = Some rel /\
    requireField meta model rel = Ok r /\
    truthy_name (Payload.getOppositeFkFieldName r f) = Some opp /\
    ownProperty d rel = Some (VObj [("connect", VObj [(opp, v)])]).

(** What one pass of the loop of [processCreatePayload] can do to an object
    payload: nothing, update the embedded value of a type-def field that is
    there, or add one key that was not there. *)
Definition stepShape (f : FieldInfo) (ps ps' : list (string * value)) : Prop :=
  ps' = ps \/
  (isTypeDef f = true /\ assoc_mem (name f) ps = true /\
   exists x, ps' = assoc_set (name f) x ps) \/
  (isTypeDef f = false /\ assoc_mem (name f) ps = false /\
   defaultValueProvider f <> None /\
   exists k x, ps' = assoc_set k x ps /\ assoc_mem k ps = false /\
     (k = name f \/ (isForeignKey f = true /\ relationField f = Some k))).

(** ** Well-formed field tables

    Field names are the keys of the table, hence distinct; a relation field
    that backs a foreign key is a plain relation field: not embedded, not
    itself a foreign key, without a default of its own. *)
Fixpoint distinctNames (names : list string) : bool :=
  match names with
  | [] => true
  | n :: rest => negb (existsb (String.eqb n) rest) && distinctNames rest
  end.

Definition plainRelationField (g : FieldInfo) : bool :=
  negb (isTypeDef g) && negb (isForeignKey g) &&
  match defaultValueProvider g with None => true | Some _ => false end.

Definition relationTargetOk (fs : list FieldInfo) (f : FieldInfo) : bool :=
  match relationField f with
  | None => true
  | Some rel =>
      forallb (fun g => negb (String.eqb (name g) rel) || plainRelationField g) fs
  end.

Definition wellFormedFields (fs : list FieldInfo) : bool :=
  distinctNames (map name fs) && forallb (relationTargetOk fs) fs.

(** ** An example schema

    [Post.authorId] defaults to [auth().id] and backs the relation
    [Post.author]; [Post.meta] embeds the type-def [Meta], whose [by] defaults
    to [auth().id] and whose [tag] has no default.  [Asset] refers to its
    owner through a compound key, both parts with a default.  [Orphan] and
    [Loose] have inconsistent relation metadata. *)
Definition authId (user : value) : value :=
  default VUndefined (ownProperty user "id").

Definition authTenant (user : value) : value :=
  default VUndefined (ownProperty user "tenant").

Definition scalarField (n : string) : FieldInfo :=
  mkField n "String" false false false None None None.

Definition authorField : FieldInfo :=
  mkField "author" "User" false true false None (Some [("id", "authorId")]) None.

Definition authorIdField : FieldInfo :=
  mkField "authorId" "String" false false true (Some "author") None (Some authId).

Definition metaField : FieldInfo :=
  mkField "meta" "Meta" true false false None None None.

Definition postFields : list FieldInfo :=
  [scalarField "id"; scalarField "title"; authorField; authorIdField; metaField].

Definition tagField : FieldInfo := scalarField "tag".

Definition byField : FieldInfo :=
  mkField "by" "String" false false false None None (Some authId).

Definition ownerField : FieldInfo :=
  mkField "owner" "User" false true false None
    (Some [("id", "ownerId"); ("tenant", "ownerTenant")]) None.

Definition ownerIdField : FieldInfo :=
  mkField "ownerId" "String" false false true (Some "owner") None (Some authId).

Definition ownerTenantField : FieldInfo :=
  mkField "ownerTenant" "String" false false true (Some "owner") None
    (Some authTenant).

Definition assetFields : list FieldInfo :=
  [scalarField "id"; ownerField; ownerIdField; ownerTenantField].

Definition orphanIdField : FieldInfo :=
  mkField "ownerId" "String" false false true None None (Some authId).

Definition looseOwnerField : FieldInfo :=
  mkField "owner" "User" false true false None (Some [("id", "holderId")]) None.

Definition userFields : list FieldInfo :=
  [scalarField "id"; scalarField "tenant";
   mkField "posts" "Post" false true false None None None].

Definition exampleMeta : ModelMeta :=
  mkMeta
    [("Post", postFields); ("User", userFields); ("Asset", assetFields);
     ("Orphan", [scalarField "id"; orphanIdField]);
     ("Loose", [looseOwnerField; ownerIdField])]
    [("Meta", [tagField; byField])].

Definition alice : value := VObj [("id", VStr "u1"); ("tenant", VStr "t1")].

Definition neverUnsafe (model : string) (data : value) : bool := false.

Definition alwaysUnsafe (model : string) (data : value) : bool := true.

(** ** Identifier truncation

    [PrismaSchemaGenerator.truncate]
    (schema/src/plugins/prisma/schema-generator.ts), which shortens the
    names the generator makes up for auxiliary relations, foreign keys and
    constraints.  Strings are sequences of code units; the short names are
    remembered in [shortNameMap], a [Map], kept here in insertion order. *)

Module SchemaGenerator.
Section Truncate.

(** [DELEGATE_AUX_RELATION_PREFIX] of the runtime constants. *)
Variable DELEGATE_AUX_RELATION_PREFIX : string.

Definition IDENTIFIER_NAME_MAX_LENGTH : Z :=
  50 - Z.of_nat (String.length DELEGATE_AUX_RELATION_PREFIX).

(** [s.slice(0, e)]; a negative [e] counts from the end of [s]. *)
Definition slice0 (s : string) (e : Z) : string :=
  let len := Z.of_nat (String.length s) in
  let to := if (e <? 0)%Z then Z.max (len + e) 0 else Z.min e len in
  String.substring 0 (Z.to_nat to) s.

(** [`${baseName}_${index}`] *)
Definition shortNameOf (baseName : string) (index : nat) : string :=
  baseName ++ "_" ++ pretty index.

Definition ShortNameMap : Type := list (string * string).

(** [Array.from(this.shortNameMap.values()).find((v) => v === shortName)] *)
Definition conflictOf (shortNameMap : ShortNameMap) (shortName : string)
  : option string :=
  find (fun v => String.eqb v shortName) (map snd shortNameMap).

(** The [while (true)] loop, entered with [index]: the first index from
    there on whose name is free.  [fuel] bounds the number of passes. *)
Fixpoint firstFree (fuel : nat) (shortNameMap : ShortNameMap) (baseName : string)
    (index : nat) : option string :=
  match fuel with
  | O => None
  | S fuel' =>
      let shortName := shortNameOf baseName index in
      match truthy_name (conflictOf shortNameMap shortName) with
      | None => Some shortName
      | Some _ => firstFree fuel' shortNameMap baseName (S index)
      end
  end.

(** [truncate(name)]: the name returned and the map it leaves; [None] when
    the loop needs more than [fuel] passes. *)
Definition truncate (fuel : nat) (name : string) (shortNameMap : ShortNameMap)
  : option (string * ShortNameMap) :=
  if (Z.of_nat (String.length name) <=? IDENTIFIER_NAME_MAX_LENGTH)%Z then
    Some (name, shortNameMap)
  else
    match truthy_name (assoc_get name shortNameMap) with
    | Some existing => Some (existing, shortNameMap)
    | None =>
        match firstFree fuel shortNameMap
                (slice0 name IDENTIFIER_NAME_MAX_LENGTH) 0 with
        | Some shortName => Some (shortName, assoc_set name shortName shortNameMap)
        | None => None
        end
    end.

(** The maps that calls of [truncate] lead to from [shortNameMap]. *)
Inductive calls (shortNameMap : ShortNameMap) : ShortNameMap -> Prop :=
  | calls_none : calls shortNameMap shortNameMap
  | calls_more (fuel : nat) (name shortName : string) (m1 m2 : ShortNameMap) :
      calls shortNameMap m1 ->
      truncate fuel name m1 = Some (shortName, m2) ->
      calls shortNameMap m2.

(** What the map holds after any number of calls: under a name longer than
    the limit, its first characters followed by an index, no short name
    twice. *)
Definition shortNamesOk (shortNameMap : ShortNameMap) : Prop :=
  NoDup (map snd shortNameMap) /\
  Forall (fun entry =>
            (IDENTIFIER_NAME_MAX_LENGTH < Z.of_nat (String.length (fst entry)))%Z /\
            exists index,
              snd entry =
              shortNameOf (slice0 (fst entry) IDENTIFIER_NAME_MAX_LENGTH) index)
    shortNameMap.

End Truncate.
End SchemaGenerator.

(** Names the generator makes up, longer than the limit that the prefix
    [delegate_aux] leaves (38), and their short names. *)
Definition auxPrefix : string := "delegate_aux".
Definition longName1 : string := "delegate_aux_Organization_primaryContact_Administrator".
Definition longName2 : string := "delegate_aux_Organization_primaryContact_Moderator".
Definition shortName1 : string := "delegate_aux_Organization_primaryConta_0".
Definition shortName2 : string := "delegate_aux_Organization_primaryConta_1".

(** ** What a pass over an embedded object can do

    One pass of the loop of [setDefaultValueForTypeDefData] over an object:
    nothing, update the value of a nested type-def field that is there, or
    add the field's own key. *)
Definition itemStepShape (f : FieldInfo) (ps ps' : list (string * value)) : Prop :=
  ps' = ps \/
  (isTypeDef f = true /\ assoc_mem (name f) ps = true /\
   exists x, ps' = assoc_set (name f) x ps) \/
  (isTypeDef f = false /\ assoc_mem (name f) ps = false /\
   exists x, ps' = assoc_set (name f) x ps).

(** An error other than the one that asks for a caller identity. *)
Definition notValidationError {A : Type} (r : result A) : Prop :=
  forall msg, r <> Throw (ValidationError msg).

(** The sub-fields of every type-def have distinct names. *)
Definition typeDefsDistinct (meta : ModelMeta) : Prop :=
  forall type fields,
    getTypeDefInfo meta type = Some fields ->
    distinctNames (map name fields) = true.

(** ** The inheritance hierarchy (schema-generator.ts)

    [isDescendantOf] and [findUpMatchingFieldFromDelegate] walk the
    [superTypes] of data models.  Data models are objects compared by
    identity ([s.ref === superModel]); here a model is its position among
    the declarations, and a reference that was not resolved ([ref] is
    [undefined]) is [None]. *)

Module Hierarchy.

Definition ModelRef : Type := nat.

(** A field of a data model: its name and [$inheritedFrom]. *)
Record DataModelField : Type := mkDataModelField {
  fieldName : string;
  inheritedFrom : option ModelRef;
}.

(** A data model: [superTypes], [fields], and whether it carries
    [@@delegate] ([isDelegateModel] of the SDK). *)
Record DataModel : Type := mkDataModel {
  modelName : string;
  superTypes : list (option ModelRef);
  fields : list DataModelField;
  isDelegate : bool;
}.

Definition Declarations : Type := list DataModel.

(** [xs.some(p)], the calls in order up to the first that holds. *)
Fixpoint someM {A : Type} (p : A -> result bool) (xs : list A) : result bool :=
  match xs with
  | [] => Ok false
  | x :: xs' => b ← p x; if b : bool then Ok true else someM p xs'
  end.

(** [for (const x of xs) { const r = f(x); if (r) return r; }
     return undefined;] *)
Fixpoint firstM {A B : Type} (f : A -> result (option B)) (xs : list A)
  : result (option B) :=
  match xs with
  | [] => Ok None
  | x :: xs' =>
      r ← f x;
      match r with
      | Some b => Ok (Some b)
      | None => firstM f xs'
      end
  end.

(** [isDescendantOf(model, superModel)].  Reading [superTypes] of an
    unresolved reference is a [TypeError]; [fuel] bounds the depth of the
    recursion, which a cyclic hierarchy does not end. *)
Fixpoint isDescendantOf (fuel : nat) (decls : Declarations)
    (model : option ModelRef) (superModel : ModelRef) : result bool :=
  match fuel with
  | O => Unmodelled
  | S fuel' =>
      match model with
      | None => Throw TypeError
      | Some m =>
          match decls !! m with
          | None => Unmodelled
          | Some d =>
              someM (fun s =>
                       if bool_decide (s = Some superModel) then Ok true
                       else isDescendantOf fuel' decls s superModel)
                (superTypes d)
          end
      end
  end.

(** [!field.$inheritedFrom || !isDelegateModel(field.$inheritedFrom)] *)
Definition notFromDelegate (decls : Declarations) (field : DataModelField)
  : result bool :=
  match inheritedFrom field with
  | None => Ok true
  | Some up =>
      match decls !! up with
      | Some u => Ok (negb (isDelegate u))
      | None => Unmodelled
      end
  end.

(** The field of a delegate base that [findUpMatchingFieldFromDelegate]
    stops at: the one named as [target], when it is not itself inherited
    from a delegate. *)
Definition ownMatch (decls : Declarations) (base : DataModel)
    (target : DataModelField) : result (option DataModelField) :=
  if isDelegate base then
    match find (fun f => String.eqb (fieldName f) (fieldName target))
            (fields base) with
    | Some field =>
        ok ← notFromDelegate decls field;
        Ok (if ok : bool then Some field else None)
    | None => Ok None
    end
  else Ok None.

(** [findUpMatchingFieldFromDelegate(start, target)]; a base whose
    reference is not resolved is passed over. *)
Fixpoint findUpMatchingFieldFromDelegate (fuel : nat) (decls : Declarations)
    (start : ModelRef) (target : DataModelField)
  : result (option DataModelField) :=
  match fuel with
  | O => Unmodelled
  | S fuel' =>
      match decls !! start with
      | None => Unmodelled
      | Some d =>
          firstM (fun base =>
                    match base with
                    | None => Ok None
                    | Some b =>
                        match decls !! b with
                        | None => Unmodelled
                        | Some bd =>
                            own ← ownMatch decls bd target;
                            match own with
                            | Some field => Ok (Some field)
                            | None =>
                                findUpMatchingFieldFromDelegate fuel' decls b
                                  target
                            end
                        end
                    end)
            (superTypes d)
      end
  end.

(** [superModel] is reached from [model] by one or more [superTypes]
    references. *)
Inductive inherits (decls : Declarations) : ModelRef -> ModelRef -> Prop :=
  | inherits_base (m s : ModelRef) (d : DataModel) :
      decls !! m = Some d -> In (Some s) (superTypes d) -> inherits decls m s
  | inherits_up (m mid s : ModelRef) (d : DataModel) :
      decls !! m = Some d -> In (Some mid) (superTypes d) ->
      inherits decls mid s -> inherits decls m s.

(** [rank] decreases along [superTypes]: the hierarchy has no cycle. *)
Definition acyclic (decls : Declarations) (rank : ModelRef -> nat) : Prop :=
  forall m d s, decls !! m = Some d -> In (Some s) (superTypes d) ->
    is_Some (decls !! s) /\ rank s < rank m.

(** Every reference of [superTypes] is resolved. *)
Definition resolved (decls : Declarations) : Prop :=
  forall m d r, decls !! m = Some d -> In r (superTypes d) -> is_Some r.

(** Every [$inheritedFrom] is a declaration. *)
Definition inheritedFromOk (decls : Declarations) : Prop :=
  forall m d f up, decls !! m = Some d -> In f (fields d) ->
    inheritedFrom f = Some up -> is_Some (decls !! up).

End Hierarchy.

(** [Asset] is a delegate with the field [owner]; [Video] extends it and
    [RatedVideo] extends [Video], both holding [owner] by inheritance. *)
Definition exampleHierarchy : Hierarchy.Declarations :=
  [Hierarchy.mkDataModel "Asset" [] [Hierarchy.mkDataModelField "owner" None] true;
   Hierarchy.mkDataModel "Video" [Some 0]
     [Hierarchy.mkDataModelField "owner" (Some 0)] false;
   Hierarchy.mkDataModel "RatedVideo" [Some 1]
     [Hierarchy.mkDataModelField "owner" (Some 0)] false;
   Hierarchy.mkDataModel "User" [] [] false].



(** ** Client interfaces of delegate models (enhancer generator)

    [EnhancerGenerator.transformInterface] rewrites the structure of an
    interface of the generated client: members made up for delegate
    relations go, and the interface of a delegate model loses the methods
    that create.  The structure is what [iface.getStructure()] gives:
    the name of the interface and its optional member arrays, a member
    being known by its name. *)

Module Enhancer.

Record Member : Type := mkMember {
  memberName : string;
  memberText : string;
}.

Record InterfaceStructure : Type := mkInterface {
  interfaceName : string;
  properties : option (list Member);
  methods : option (list Member);
}.

(** A delegate model and the models that extend it, by name. *)
Definition DelegateInfo : Type := list (string * list string).

Section TransformInterface.

(** [DELEGATE_AUX_RELATION_PREFIX] of the runtime constants. *)
Variable DELEGATE_AUX_RELATION_PREFIX : string.

(** [!m.name.startsWith(DELEGATE_AUX_RELATION_PREFIX)] *)
Definition notAux (m : Member) : bool :=
  negb (String.prefix DELEGATE_AUX_RELATION_PREFIX (memberName m)).

Definition createMethods : list string :=
  ["create"; "createMany"; "createManyAndReturn"; "upsert"].

(** [!['create', ...].includes(m.name)] *)
Definition notCreate (m : Member) : bool :=
  negb (existsb (String.eqb (memberName m)) createMethods).

(** [delegateInfo.some(([delegate]) =>
      `${delegate.name}Delegate` === iface.getName())] *)
Definition isDelegateInterface (delegateInfo : DelegateInfo) (iface : InterfaceStructure)
  : bool :=
  existsb (fun entry => String.eqb (fst entry ++ "Delegate") (interfaceName iface))
    delegateInfo.

Definition transformInterface (iface : InterfaceStructure)
    (delegateInfo : DelegateInfo) : InterfaceStructure :=
  let properties1 := List.filter notAux <$> properties iface in
  let methods1 := List.filter notAux <$> methods iface in
  let methods2 :=
    if isDelegateInterface delegateInfo iface
    then List.filter notCreate <$> methods1
    else methods1 in
  mkInterface (interfaceName iface) properties1 methods2.

End TransformInterface.
End Enhancer.

(** The interface of the delegate model [Asset] as the client has it. *)
Definition assetDelegate : Enhancer.InterfaceStructure :=
  Enhancer.mkInterface "AssetDelegate"
    (Some [Enhancer.mkMember "fields" "readonly fields: AssetFieldRefs"])
    (Some [Enhancer.mkMember "findMany" "findMany(args?): PrismaPromise";
           Enhancer.mkMember "create" "create(args): PrismaPromise";
           Enhancer.mkMember "delegate_aux_video" "delegate_aux_video(args?)";
           Enhancer.mkMember "upsert" "upsert(args): PrismaPromise";
           Enhancer.mkMember "update" "update(args): PrismaPromise"]).

(** ** Blank lines of a rewritten type (enhancer generator)

    [EnhancerGenerator.trimEmptyLines] is
    [source.replace(/^\s*[\r\n]/gm, '')].  A text is the list of its code
    units, taken to be ASCII (the declaration files of the generated
    client are); the regular expression is kept as the sequence of its
    terms and run by a backtracking matcher, as a JavaScript engine runs
    it. *)

Module SourceText.

Definition Text : Type := list ascii.

(** The terms that the expression is made of. *)
Inductive term : Type :=
  | LineStart                       (* [^] under the flag [m] *)
  | Class (p : ascii -> bool)       (* one code unit of a class *)
  | StarClass (p : ascii -> bool).  (* [X*], greedy, [X] a class *)

(** [\s] and the line terminators, among the ASCII code units. *)
Definition isWhiteSpace (c : ascii) : bool := Ascii.is_space c.

Definition isLineTerminator (c : ascii) : bool :=
  match c with
  | "010" | "013" => true
  | _ => false
  end%char.

(** [^] holds at the start of the text and after a line terminator;
    [prev] is the code unit before the position. *)
Definition atLineStart (prev : option ascii) : bool :=
  match prev with
  | None => true
  | Some c => isLineTerminator c
  end.

(** The match of a sequence of terms at the head of [input]: the number
    of code units it takes.  A starred class takes as many as it can and
    gives back one at a time while the rest of the sequence fails. *)
Fixpoint matchTerms (input : Text) : option ascii -> list term -> option nat :=
  fix rest_of (prev : option ascii) (terms : list term) : option nat :=
    match terms with
    | [] => Some 0
    | LineStart :: terms' =>
        if atLineStart prev then rest_of prev terms' else None
    | Class p :: terms' =>
        match input with
        | c :: input' =>
            if p c then S <$> matchTerms input' (Some c) terms' else None
        | [] => None
        end
    | StarClass p :: terms' =>
        match input with
        | c :: input' =>
            if p c then
              match S <$> matchTerms input' (Some c) terms with
              | Some n => Some n
              | None => rest_of prev terms'
              end
            else rest_of prev terms'
        | [] => rest_of prev terms'
        end
    end.

(** [input.replace(re, '')] under the flag [g], from a position on:
    [skip] code units of a match are still to be dropped; at the end of a
    match, and after a code unit where nothing matches, the expression is
    tried again. *)
Fixpoint replaceAll (terms : list term) (skip : nat) (prev : option ascii)
    (input : Text) : Text :=
  match input with
  | [] => []
  | c :: input' =>
      match skip with
      | S skip' => replaceAll terms skip' (Some c) input'
      | O =>
          match matchTerms input prev terms with
          | Some (S n) => replaceAll terms n (Some c) input'
          | _ => c :: replaceAll terms 0 (Some c) input'
          end
      end
  end.

(** [/^\s*[\r\n]/] *)
Definition emptyLine : list term :=
  [LineStart; StarClass isWhiteSpace; Class isLineTerminator].

Definition trimEmptyLines (source : Text) : Text :=
  replaceAll emptyLine 0 None source.

(** The length of the run of white space at the head of [input] up to its
    last line terminator, when it has one. *)
Fixpoint blankLength (input : Text) : option nat :=
  match input with
  | [] => None
  | c :: input' =>
      if isWhiteSpace c then
        match blankLength input' with
        | Some n => Some (S n)
        | None => if isLineTerminator c then Some 1 else None
        end
      else None
  end.

End SourceText.

(** A line ended by carriage return and line feed, a line of two spaces,
    and a line [b]. *)
Definition exampleSource : SourceText.Text :=
  (String.list_ascii_of_string "a" ++ ["013"; "010"; " "; " "; "010"]%char ++
   String.list_ascii_of_string "b" ++ ["010"%char])%list.

(** ** What the handler leaves of the payload it works on

    The handler writes to the clone by adding only: a property that an object
    does not have yet, or a new object.  [keptCells s s'] says of two stores
    that every object of [s] is in [s'] with every property it had, each with
    the value it had (the same scalar, or the same object), and that every
    array of [s] is in [s'] as it was.  [onlyAdds m] says that a run of [m]
    takes every store to a store that keeps its cells, whether the run returns
    or throws. *)
Definition keptCell (c c' : Store.cell) : Prop :=
  match c, c' with
  | Store.CObj ps, Store.CObj ps' =>
      forall k x, assoc_get k ps = Some x -> assoc_get k ps' = Some x
  | Store.CArr items, Store.CArr items' => items' = items
  | _, _ => False
  end.

Definition keptCells (s s' : Store.store) : Prop :=
  forall (l : Store.loc) c,
    s !! l = Some c -> exists c', s' !! l = Some c' /\ keptCell c c'.

Definition addsAt {A : Type} (m : Store.M A) (s : Store.store) : Prop :=
  match m s with
  | Store.Done _ s' => keptCells s s'
  | Store.Raised _ s' => keptCells s s'
  | Store.OutOfModel => True
  end.

Definition onlyAdds {A : Type} (m : Store.M A) : Prop := forall s, addsAt m s.

(** [holds depth s v t]: in the store [s] the value [v] holds the tree [t], to
    the depth [depth].  A scalar is the scalar of [t]; an object has every
    property of [t], each holding the value [t] has under it; an array has
    the elements of [t], one for one.  An object may have more properties
    than [t] has. *)
Fixpoint holds (depth : nat) (s : Store.store) (v : Store.hvalue) (t : value)
  : Prop :=
  match v with
  | Store.Imm x => x = t
  | Store.Ref l =>
      match depth with
      | O => False
      | S depth' =>
          match s !! l with
          | Some (Store.CObj ps) =>
              match t with
              | VObj ts =>
                  forall k tx, assoc_get k ts = Some tx ->
                    exists x, assoc_get k ps = Some x /\ holds depth' s x tx
              | _ => False
              end
          | Some (Store.CArr items) =>
              match t with
              | VArr ts => Forall2 (holds depth' s) items ts
              | _ => False
              end
          | None => False
          end
      end
  end.

(** * Properties *)

Open Scope list_scope.

(** ** Property lists *)

Lemma assoc_get_set_eq {A : Type} (k : string) (v : A) (ps : list (string * A)) :
  assoc_get k (assoc_set k v ps) = Some v.
Proof.
  induction ps as [|[k' v'] ps IH]; simpl.
  - by rewrite String.eqb_refl.
  - destruct (String.eqb k k') eqn:E; simpl; rewrite ?String.eqb_refl ?E //.
Qed.

Lemma assoc_get_set_ne {A : Type} (k k' : string) (v : A) (ps : list (string * A)) :
  k <> k' -> assoc_get k' (assoc_set k v ps) = assoc_get k' ps.
Proof.
  intros Hne. induction ps as [|[k0 v0] ps IH]; simpl.
  - destruct (String.eqb_spec k' k); congruence.
  - destruct (String.eqb_spec k k0) as [->|Hk]; simpl.
    + destruct (String.eqb_spec k' k0); congruence.
    + destruct (String.eqb_spec k' k0); congruence.
Qed.

Lemma assoc_set_set {A : Type} (k : string) (v w : A) (ps : list (string * A)) :
  assoc_set k v (assoc_set k w ps) = assoc_set k v ps.
Proof.
  induction ps as [|[k0 v0] ps IH]; simpl.
  - by rewrite String.eqb_refl.
  - destruct (String.eqb k k0) eqn:E; simpl; rewrite ?String.eqb_refl ?E ?IH //.
Qed.

Lemma assoc_set_same {A : Type} (k : string) (v : A) (ps : list (string * A)) :
  assoc_get k ps = Some v -> assoc_set k v ps = ps.
Proof.
  induction ps as [|[k0 v0] ps IH]; simpl; [done|].
  destruct (String.eqb_spec k k0) as [->|Hk].
  - by intros [= ->].
  - intros H. by rewrite IH.
Qed.

Lemma assoc_mem_set_eq {A : Type} (k : string) (v : A) (ps : list (string * A)) :
  assoc_mem k (assoc_set k v ps) = true.
Proof. unfold assoc_mem. by rewrite assoc_get_set_eq. Qed.

Lemma assoc_mem_set_ne {A : Type} (k k' : string) (v : A) (ps : list (string * A)) :
  k <> k' -> assoc_mem k' (assoc_set k v ps) = assoc_mem k' ps.
Proof. intros H. unfold assoc_mem. by rewrite assoc_get_set_ne. Qed.

Lemma assoc_mem_set_mono {A : Type} (k k' : string) (v : A) (ps : list (string * A)) :
  assoc_mem k' ps = true -> assoc_mem k' (assoc_set k v ps) = true.
Proof.
  intros H. destruct (String.eqb_spec k k') as [->|Hne].
  - apply assoc_mem_set_eq.
  - by rewrite assoc_mem_set_ne.
Qed.

Lemma truthy_name_Some (o : option string) (s : string) :
  truthy_name o = Some s -> o = Some s /\ s <> "".
Proof.
  destruct o as [t|]; simpl; [|done].
  destruct (String.eqb_spec t ""); [done|]. by intros [= ->].
Qed.

Lemma requireField_name (meta : ModelMeta) (model field : string) (f : FieldInfo) :
  requireField meta model field = Ok f -> name f = field.
Proof.
  unfold requireField. destruct (getFields meta model) as [fields|]; [|done].
  destruct (find _ fields) as [g|] eqn:E; [|done].
  intros [= ->]. apply find_some in E as [_ E].
  by apply String.eqb_eq in E.
Qed.

Lemma requireField_In (meta : ModelMeta) (model field : string) (f : FieldInfo)
    (fields : list FieldInfo) :
  getFields meta model = Some fields ->
  requireField meta model field = Ok f -> In f fields.
Proof.
  unfold requireField. intros ->.
  destruct (find _ fields) as [g|] eqn:E; [|done].
  intros [= ->]. by apply find_some in E as [E _].
Qed.

Lemma foldM_app {A B : Type} (body : A -> B -> result A) (xs ys : list B) (a : A) :
  foldM body (xs ++ ys) a = (a' ← foldM body xs a; foldM body ys a').
Proof.
  revert a. induction xs as [|x xs IH]; intros a; simpl; [done|].
  destruct (body a x); simpl; [apply IH|done|done].
Qed.

Lemma distinctNames_app (xs ys : list string) (n : string) :
  distinctNames (xs ++ n :: ys) = true -> ~ In n xs /\ ~ In n ys.
Proof.
  induction xs as [|x xs IH]; simpl.
  - intros [Hn _]%andb_true_iff. split; [tauto|].
    intros Hin. apply negb_true_iff in Hn.
    assert (existsb (String.eqb n) ys = true); [|congruence].
    apply existsb_exists. exists n. by rewrite String.eqb_refl.
  - intros [Hx Hrest]%andb_true_iff. destruct (IH Hrest) as [H1 H2].
    split; [|done]. intros [->|Hin]; [|done].
    apply negb_true_iff in Hx.
    assert (existsb (String.eqb n) (xs ++ n :: ys) = true); [|congruence].
    apply existsb_exists. exists n. rewrite String.eqb_refl. split; [|done].
    apply in_or_app. right. by left.
Qed.

Lemma wellFormed_distinct (pre post : list FieldInfo) (f g : FieldInfo) :
  wellFormedFields (pre ++ f :: post) = true ->
  In g pre \/ In g post -> name g <> name f.
Proof.
  intros [Hd _]%andb_true_iff Hin Heq.
  rewrite map_app /= in Hd. apply distinctNames_app in Hd as [H1 H2].
  destruct Hin as [Hin|Hin]; [apply H1|apply H2]; rewrite -Heq; by apply in_map.
Qed.

Lemma wellFormed_target (fs : list FieldInfo) (f g : FieldInfo) :
  wellFormedFields fs = true ->
  In f fs -> In g fs -> relationField f = Some (name g) ->
  isTypeDef g = false /\ isForeignKey g = false /\ defaultValueProvider g = None.
Proof.
  intros [_ Ht]%andb_true_iff Hf Hg Hrel.
  rewrite forallb_forall in Ht. specialize (Ht f Hf).
  unfold relationTargetOk in Ht. rewrite Hrel forallb_forall in Ht.
  specialize (Ht g Hg). rewrite String.eqb_refl /= in Ht.
  unfold plainRelationField in Ht.
  apply andb_true_iff in Ht as [[H1 H2]%andb_true_iff H3].
  apply negb_true_iff in H1, H2. by destruct (defaultValueProvider g).
Qed.

Lemma foldM_app_inv {A B : Type} (body : A -> B -> result A) (xs ys : list B)
    (y : B) (a r : A) :
  foldM body (xs ++ y :: ys) a = Ok r ->
  exists a1 a2, foldM body xs a = Ok a1 /\ body a1 y = Ok a2 /\
                foldM body ys a2 = Ok r.
Proof.
  rewrite foldM_app. destruct (foldM body xs a) as [a1| |]; simpl; [|done|done].
  destruct (body a1 y) as [a2| |] eqn:Hy; simpl; [|done|done].
  intros H. by exists a1, a2.
Qed.

(** ** One step of the handler on an object payload *)

Section PayloadFacts.

Variable meta : ModelMeta.
Variable userContext : value.
Variable isUnsafeMutate : string -> value -> bool.

Local Abbreviation getDefaultValue := (Payload.getDefaultValue userContext).
Local Abbreviation setDefaultValueForModelData :=
  (Payload.setDefaultValueForModelData meta isUnsafeMutate).
Local Abbreviation setDefaultValueForTypeDefData :=
  (Payload.setDefaultValueForTypeDefData meta userContext).
Local Abbreviation processField := (Payload.processField meta userContext isUnsafeMutate).
Local Abbreviation processCreatePayload :=
  (Payload.processCreatePayload meta userContext isUnsafeMutate).

(** The payload that carries [v] under [connect.<opp>] of relation [rel]. *)
Local Abbreviation connectTo rel opp v ps :=
  (VObj (assoc_set rel (VObj [("connect", VObj [(opp, v)])]) ps)).

Lemma relationAlreadySet_obj (f : FieldInfo) (ps : list (string * value)) :
  Payload.relationAlreadySet f (VObj ps) =
  Ok (isForeignKey f &&
      match truthy_name (relationField f) with
      | Some rel => assoc_mem rel ps
      | None => false
      end).
Proof.
  unfold Payload.relationAlreadySet.
  destruct (isForeignKey f); simpl; [|done].
  by destruct (truthy_name (relationField f)).
Qed.

Lemma setDefault_skip (f : FieldInfo) (model rel : string)
    (ps : list (string * value)) (v : value) :
  isForeignKey f = true ->
  truthy_name (relationField f) = Some rel ->
  assoc_mem rel ps = true ->
  setDefaultValueForModelData f model (VObj ps) v = Ok (VObj ps).
Proof.
  intros Hfk Hrel Hin. unfold Payload.setDefaultValueForModelData.
  rewrite relationAlreadySet_obj Hfk Hrel Hin. done.
Qed.

Lemma setDefault_scalar (f : FieldInfo) (model : string)
    (ps : list (string * value)) (v : value) :
  Payload.relationAlreadySet f (VObj ps) = Ok false ->
  isForeignKey f && negb (isUnsafeMutate model (VObj ps)) = false ->
  setDefaultValueForModelData f model (VObj ps) v =
  Ok (VObj (assoc_set (name f) v ps)).
Proof.
  intros Hskip Hdirect. unfold Payload.setDefaultValueForModelData.
  rewrite Hskip. simpl. by rewrite Hdirect.
Qed.

Lemma setDefault_connect (f r : FieldInfo) (model rel : string)
    (ps : list (string * value)) (v : value) :
  isForeignKey f = true ->
  isUnsafeMutate model (VObj ps) = false ->
  truthy_name (relationField f) = Some rel ->
  assoc_mem rel ps = false ->
  requireField meta model rel = Ok r ->
  setDefaultValueForModelData f model (VObj ps) v =
  match truthy_name (Payload.getOppositeFkFieldName r f) with
  | None => Throw (JsError (Payload.noOppositeFkMessage (name f) rel))
  | Some opp => Ok (connectTo rel opp v ps)
  end.
Proof.
  intros Hfk Hsafe Hrel Hout Hreq. unfold Payload.setDefaultValueForModelData.
  rewrite relationAlreadySet_obj Hfk Hrel Hout Hsafe. simpl.
  rewrite Hreq. simpl. rewrite (requireField_name _ _ _ _ Hreq).
  unfold assoc_mem in Hout.
  destruct (assoc_get rel ps) eqn:Hget; [done|]. simpl.
  destruct (truthy_name (Payload.getOppositeFkFieldName r f)) as [opp|]; [|done].
  simpl. rewrite assoc_get_set_eq. simpl.
  rewrite /assoc_mem assoc_get_set_eq assoc_set_set. done.
Qed.

Lemma setDefault_shape (f : FieldInfo) (model : string)
    (ps : list (string * value)) (v d' : value) :
  isTypeDef f = false ->
  assoc_mem (name f) ps = false ->
  defaultValueProvider f <> None ->
  setDefaultValueForModelData f model (VObj ps) v = Ok d' ->
  exists ps', d' = VObj ps' /\ stepShape f ps ps'.
Proof.
  intros Htd Habs Hprov H.
  destruct (isForeignKey f &&
      match truthy_name (relationField f) with
      | Some rel => assoc_mem rel ps
      | None => false
      end) eqn:Hskip.
  - apply andb_true_iff in Hskip as [Hfk Hskip].
    destruct (truthy_name (relationField f)) as [rel|] eqn:Hrel; [|done].
    rewrite (setDefault_skip _ _ rel) // in H. injection H as <-.
    exists ps. split; [done|by left].
  - destruct (isForeignKey f && negb (isUnsafeMutate model (VObj ps))) eqn:Hdirect.
    + apply andb_true_iff in Hdirect as [Hfk Hsafe].
      apply negb_true_iff in Hsafe. rewrite Hfk /= in Hskip.
      revert H. unfold Payload.setDefaultValueForModelData at 1.
      rewrite relationAlreadySet_obj Hfk /= Hskip Hsafe /=.
      destruct (truthy_name (relationField f)) as [rel|] eqn:Hrel; [|done].
      destruct (requireField meta model rel) as [r| |] eqn:Hreq; [|done|done].
      intros H.
      assert (Hc := setDefault_connect f r model rel ps v Hfk Hsafe Hrel Hskip Hreq).
      unfold Payload.setDefaultValueForModelData in Hc at 1.
      rewrite relationAlreadySet_obj Hfk /= Hrel Hskip Hsafe /= Hreq in Hc.
      rewrite Hc in H.
      destruct (truthy_name (Payload.getOppositeFkFieldName r f)) as [opp|]; [|done].
      injection H as <-. eexists. split; [done|].
      right. right. split; [done|]. split; [done|]. split; [done|].
      eexists _, _. split; [done|]. split; [done|].
      right. split; [done|]. by apply truthy_name_Some in Hrel as [-> _].
    + rewrite setDefault_scalar // in H.
      { by rewrite relationAlreadySet_obj Hskip. }
      injection H as <-. eexists. split; [done|].
      right. right. split; [done|]. split; [done|]. split; [done|].
      eexists _, _. split; [done|]. split; [done|]. by left.
Qed.

Lemma processField_shape (fuel : nat) (model : string) (f : FieldInfo)
    (d d' : value) :
  processField fuel model d f = Ok d' ->
  exists ps ps', d = VObj ps /\ d' = VObj ps' /\ stepShape f ps ps'.
Proof.
  unfold Payload.processField. destruct (isTypeDef f) eqn:Htd.
  - destruct d as [| | | | |ps|]; simpl; try done.
    destruct (setDefaultValueForTypeDefData fuel (type f) _) as [sub'| |];
      simpl; [|done|done].
    intros [= <-]. exists ps. destruct (assoc_mem (name f) ps) eqn:Hmem.
    + eexists. split; [done|]. split; [done|].
      right. left. eauto.
    + exists ps. split; [done|]. split; [done|]. by left.
  - destruct d as [| | | | |ps|]; simpl; try done.
    destruct (assoc_mem (name f) ps) eqn:Hmem.
    { intros [= <-]. exists ps, ps. split; [done|]. split; [done|]. by left. }
    destruct (defaultValueProvider f) as [p|] eqn:Hprov.
    2:{ intros [= <-]. exists ps, ps. split; [done|]. split; [done|]. by left. }
    destruct (getDefaultValue f) as [dv| |] eqn:Hdv; simpl; [|done|done].
    intros H.
    assert (Hcases : dv = VUndefined \/
              setDefaultValueForModelData f model (VObj ps) dv = Ok d').
    { destruct dv; auto. }
    destruct Hcases as [->|Hset].
    { injection H as <-. exists ps, ps. split; [done|]. split; [done|]. by left. }
    destruct (setDefault_shape f model ps dv d' Htd Hmem) as (ps' & -> & Hs);
      [by rewrite Hprov|done|].
    by exists ps, ps'.
Qed.

Lemma stepShape_mem_mono (f : FieldInfo) (ps ps' : list (string * value))
    (k : string) :
  stepShape f ps ps' -> assoc_mem k ps = true -> assoc_mem k ps' = true.
Proof.
  intros [->|[(_ & _ & x & ->)|(_ & _ & _ & k' & x & -> & _)]] Hk;
    [done|by apply assoc_mem_set_mono..].
Qed.

Lemma stepShape_get_frame (f : FieldInfo) (ps ps' : list (string * value))
    (k : string) :
  stepShape f ps ps' ->
  assoc_mem k ps = true ->
  (isTypeDef f = true -> name f <> k) ->
  assoc_get k ps' = assoc_get k ps.
Proof.
  intros [->|[(Htd & _ & x & ->)|(_ & _ & _ & k' & x & -> & Hk' & _)]] Hk Hne.
  - done.
  - apply assoc_get_set_ne. auto.
  - apply assoc_get_set_ne. intros ->. congruence.
Qed.

Lemma stepShape_absent_frame (f : FieldInfo) (ps ps' : list (string * value))
    (k : string) :
  stepShape f ps ps' ->
  assoc_mem k ps = false ->
  name f <> k \/ defaultValueProvider f = None ->
  relationField f <> Some k ->
  assoc_mem k ps' = false.
Proof.
  intros [->|[(_ & Hin & x & ->)|(_ & _ & Hp & k' & x & -> & _ & Hk')]] Hk Hne Hrel.
  - done.
  - rewrite assoc_mem_set_ne //. intros E. rewrite -E in Hk. congruence.
  - rewrite assoc_mem_set_ne //. destruct Hk' as [->|[_ Hk']]; [|congruence].
    destruct Hne as [Hne|Hne]; congruence.
Qed.

(** The same over a run of the loop. *)
Lemma processFields_obj (fuel : nat) (model : string) (fs : list FieldInfo)
    (ps : list (string * value)) (d' : value) :
  foldM (processField fuel model) fs (VObj ps) = Ok d' ->
  exists ps', d' = VObj ps'.
Proof.
  revert ps. induction fs as [|g fs IH]; intros ps; simpl.
  - intros [= <-]. by exists ps.
  - destruct (processField fuel model (VObj ps) g) as [d1| |] eqn:Hstep;
      simpl; [|done|done].
    apply processField_shape in Hstep as (? & ps1 & _ & -> & _). apply IH.
Qed.

Lemma processFields_mem_mono (fuel : nat) (model : string) (fs : list FieldInfo)
    (ps ps' : list (string * value)) (k : string) :
  foldM (processField fuel model) fs (VObj ps) = Ok (VObj ps') ->
  assoc_mem k ps = true -> assoc_mem k ps' = true.
Proof.
  revert ps. induction fs as [|g fs IH]; intros ps; simpl.
  - by intros [= <-].
  - destruct (processField fuel model (VObj ps) g) as [d1| |] eqn:Hstep;
      simpl; [|done|done].
    apply processField_shape in Hstep as (ps0 & ps1 & [= <-] & -> & Hs).
    intros Hrest Hk. apply (IH ps1 Hrest). by eapply stepShape_mem_mono.
Qed.

Lemma processFields_get_frame (fuel : nat) (model : string) (fs : list FieldInfo)
    (ps ps' : list (string * value)) (k : string) :
  foldM (processField fuel model) fs (VObj ps) = Ok (VObj ps') ->
  assoc_mem k ps = true ->
  (forall g, In g fs -> isTypeDef g = true -> name g <> k) ->
  assoc_get k ps' = assoc_get k ps.
Proof.
  revert ps. induction fs as [|g fs IH]; intros ps; simpl.
  - by intros [= <-].
  - destruct (processField fuel model (VObj ps) g) as [d1| |] eqn:Hstep;
      simpl; [|done|done].
    apply processField_shape in Hstep as (ps0 & ps1 & [= <-] & -> & Hs).
    intros Hrest Hk Hne.
    rewrite (IH ps1 Hrest); [by eapply stepShape_mem_mono|auto|].
    eapply stepShape_get_frame; eauto.
Qed.

Lemma processFields_absent_frame (fuel : nat) (model : string)
    (fs : list FieldInfo) (ps ps' : list (string * value)) (k : string) :
  foldM (processField fuel model) fs (VObj ps) = Ok (VObj ps') ->
  assoc_mem k ps = false ->
  (forall g, In g fs ->
     (name g <> k \/ defaultValueProvider g = None) /\ relationField g <> Some k) ->
  assoc_mem k ps' = false.
Proof.
  revert ps. induction fs as [|g fs IH]; intros ps; simpl.
  - by intros [= <-].
  - destruct (processField fuel model (VObj ps) g) as [d1| |] eqn:Hstep;
      simpl; [|done|done].
    apply processField_shape in Hstep as (ps0 & ps1 & [= <-] & -> & Hs).
    intros Hrest Hk Hne.
    apply (IH ps1 Hrest); [|auto].
    destruct (Hne g) as [? ?]; [by left|]. by eapply stepShape_absent_frame.
Qed.

Lemma processCreatePayload_at (fuel : nat) (model : string)
    (pre post : list FieldInfo) (f : FieldInfo) (ps : list (string * value))
    (d' : value) :
  getFields meta model = Some (pre ++ f :: post) ->
  processCreatePayload fuel model (VObj ps) = Ok d' ->
  exists ps1 ps2 ps',
    foldM (processField fuel model) pre (VObj ps) = Ok (VObj ps1) /\
    processField fuel model (VObj ps1) f = Ok (VObj ps2) /\
    foldM (processField fuel model) post (VObj ps2) = Ok (VObj ps') /\
    d' = VObj ps'.
Proof.
  intros Hfields. unfold Payload.processCreatePayload. rewrite Hfields.
  intros (d1 & d2 & Hpre & Hstep & Hpost)%foldM_app_inv.
  destruct (processFields_obj _ _ _ _ _ Hpre) as [ps1 ->].
  destruct (processField_shape _ _ _ _ _ Hstep) as (? & ps2 & _ & -> & _).
  destruct (processFields_obj _ _ _ _ _ Hpost) as [ps' ->].
  by exists ps1, ps2, ps'.
Qed.

Lemma processField_inject (fuel : nat) (model : string) (f : FieldInfo)
    (provider : value -> value) (ps : list (string * value)) :
  truthy userContext = true ->
  isTypeDef f = false ->
  defaultValueProvider f = Some provider ->
  provider userContext <> VUndefined ->
  assoc_mem (name f) ps = false ->
  processField fuel model (VObj ps) f =
  setDefaultValueForModelData f model (VObj ps) (provider userContext).
Proof.
  intros Hu Htd Hp Hv Habs. unfold Payload.processField, Payload.getDefaultValue.
  rewrite Htd /= Habs Hp Hu /=. by destruct (provider userContext).
Qed.

(** C1 (as amended): with the caller identity present, a field that is not
    embedded, has a default provider yielding a defined value and is not set
    in the create payload is set to [provider(identity)] in the processed
    payload, as a scalar or as the [connect] of its relation field, provided
    that, when it is a foreign key, its relation field is not in the payload
    and no earlier field of the model backs the same relation. *)
Theorem default_injected (fuel : nat) (model : string)
    (pre post : list FieldInfo) (f : FieldInfo) (provider : value -> value)
    (ps : list (string * value)) (d' : value) :
  truthy userContext = true ->
  getFields meta model = Some (pre ++ f :: post) ->
  wellFormedFields (pre ++ f :: post) = true ->
  isTypeDef f = false ->
  defaultValueProvider f = Some provider ->
  provider userContext <> VUndefined ->
  assoc_mem (name f) ps = false ->
  (isForeignKey f = true ->
   forall rel, truthy_name (relationField f) = Some rel ->
     assoc_mem rel ps = false /\
     forall g, In g pre -> relationField g <> Some rel) ->
  processCreatePayload fuel model (VObj ps) = Ok d' ->
  setDirectly d' f (provider userContext) \/
  setViaConnect meta model d' f (provider userContext).
Proof.
  intros Hu Hfields Hwf Htd Hp Hv Habs Hrel Hrun.
  destruct (processCreatePayload_at _ _ _ _ _ _ _ Hfields Hrun)
    as (ps1 & ps2 & ps' & Hpre & Hstep & Hpost & ->).
  assert (Hin : forall g, In g pre \/ g = f \/ In g post ->
                          In g (pre ++ f :: post)).
  { intros g [?|[->|?]]; apply in_or_app; simpl; auto. }
  assert (Habs1 : assoc_mem (name f) ps1 = false).
  { eapply processFields_absent_frame; [exact Hpre|done|].
    intros g Hg. split.
    - left. eapply wellFormed_distinct; eauto.
    - intros Hg'. destruct (wellFormed_target _ g f Hwf) as (_ & _ & Hnone);
        [auto|auto|done|congruence]. }
  rewrite (processField_inject _ _ _ provider) // in Hstep.
  assert (Hpostframe : forall k, assoc_mem k ps2 = true ->
            (forall g, In g post -> isTypeDef g = true -> name g <> k) ->
            assoc_get k ps' = assoc_get k ps2).
  { intros k Hk Hne. eapply processFields_get_frame; eauto. }
  destruct (isForeignKey f) eqn:Hfk.
  - destruct (truthy_name (relationField f)) as [rel|] eqn:Hrf.
    + destruct (Hrel eq_refl rel eq_refl) as [Hrabs Hfirst].
      assert (Hrabs1 : assoc_mem rel ps1 = false).
      { eapply processFields_absent_frame; [exact Hpre|done|].
        intros g Hg. split; [|auto].
        destruct (String.eqb_spec (name g) rel) as [Heq|Hne]; [|by left].
        right. apply truthy_name_Some in Hrf as [Hrf _].
        destruct (wellFormed_target _ f g Hwf) as (_ & _ & Hnone); auto.
        by rewrite Heq. }
      destruct (isUnsafeMutate model (VObj ps1)) eqn:Hunsafe.
      * rewrite setDefault_scalar in Hstep.
        { by rewrite relationAlreadySet_obj Hfk Hrf Hrabs1. }
        { by rewrite Hfk Hunsafe. }
        injection Hstep as <-. left. unfold setDirectly. simpl.
        rewrite Hpostframe ?assoc_get_set_eq ?assoc_mem_set_eq //.
        intros g Hg _. eapply wellFormed_distinct; eauto.
      * destruct (requireField meta model rel) as [r| |] eqn:Hreq.
        2,3: revert Hstep; unfold Payload.setDefaultValueForModelData;
             by rewrite relationAlreadySet_obj Hfk Hrf Hrabs1 Hunsafe /= Hreq.
        rewrite (setDefault_connect _ r _ rel) // in Hstep.
        destruct (truthy_name (Payload.getOppositeFkFieldName r f)) as [opp|]
          eqn:Hopp; [|done].
        injection Hstep as <-. right. exists rel, r, opp.
        repeat split; try done. simpl.
        rewrite Hpostframe ?assoc_get_set_eq ?assoc_mem_set_eq //.
        intros g Hg Hgtd Heq. apply truthy_name_Some in Hrf as [Hrf _].
        destruct (wellFormed_target _ f g Hwf) as (Hno & _); auto.
        { by rewrite Heq. }
        congruence.
    + destruct (isUnsafeMutate model (VObj ps1)) eqn:Hunsafe.
      * rewrite setDefault_scalar in Hstep.
        { by rewrite relationAlreadySet_obj Hfk Hrf. }
        { by rewrite Hfk Hunsafe. }
        injection Hstep as <-. left. unfold setDirectly. simpl.
        rewrite Hpostframe ?assoc_get_set_eq ?assoc_mem_set_eq //.
        intros g Hg _. eapply wellFormed_distinct; eauto.
      * revert Hstep. unfold Payload.setDefaultValueForModelData.
        by rewrite relationAlreadySet_obj Hfk Hrf /= Hunsafe.
  - rewrite setDefault_scalar in Hstep.
    { by rewrite relationAlreadySet_obj Hfk. }
    { by rewrite Hfk. }
    injection Hstep as <-. left. unfold setDirectly. simpl.
    rewrite Hpostframe ?assoc_get_set_eq ?assoc_mem_set_eq //.
    intros g Hg _. eapply wellFormed_distinct; eauto.
Qed.

Lemma assoc_mem_false {A : Type} (k : string) (ps : list (string * A)) :
  assoc_mem k ps = false <-> assoc_get k ps = None.
Proof. unfold assoc_mem. destruct (assoc_get k ps); split; congruence. Qed.

(** A foreign key whose relation field is in the payload is left alone. *)
Lemma processField_relation_set (fuel : nat) (model rel : string) (f : FieldInfo)
    (ps : list (string * value)) (d' : value) :
  isTypeDef f = false ->
  isForeignKey f = true ->
  truthy_name (relationField f) = Some rel ->
  assoc_mem rel ps = true ->
  processField fuel model (VObj ps) f = Ok d' ->
  d' = VObj ps.
Proof.
  intros Htd Hfk Hrf Hin. unfold Payload.processField. rewrite Htd /=.
  destruct (assoc_mem (name f) ps); [by intros [= <-]|].
  destruct (defaultValueProvider f); [|by intros [= <-]].
  destruct (getDefaultValue f) as [dv| |]; simpl; [|done|done].
  rewrite (setDefault_skip f model rel ps) //.
  destruct dv; by intros [= <-].
Qed.

Lemma fk_not_injected_run (fuel : nat) (model rel : string)
    (fields xs ys : list FieldInfo) (f : FieldInfo)
    (ps ps' : list (string * value)) :
  wellFormedFields fields = true ->
  In f fields ->
  (forall g, In g xs \/ In g ys -> In g fields /\ name g <> name f) ->
  isTypeDef f = false ->
  isForeignKey f = true ->
  truthy_name (relationField f) = Some rel ->
  assoc_mem rel ps = true ->
  assoc_mem (name f) ps = false ->
  foldM (processField fuel model) (xs ++ f :: ys) (VObj ps) = Ok (VObj ps') ->
  assoc_mem (name f) ps' = false.
Proof.
  intros Hwf Hf Hothers Htd Hfk Hrf Hrel Habs
    (d1 & d2 & Hpre & Hstep & Hpost)%foldM_app_inv.
  assert (Hframe : forall g, In g xs \/ In g ys ->
            (name g <> name f \/ defaultValueProvider g = None) /\
            relationField g <> Some (name f)).
  { intros g Hg. destruct (Hothers g Hg) as [Hin Hne]. split; [by left|].
    intros Hg'. destruct (wellFormed_target _ g f Hwf) as (_ & Hnofk & _); auto.
    congruence. }
  destruct (processFields_obj _ _ _ _ _ Hpre) as [ps1 ->].
  apply (processField_relation_set _ _ rel) in Hstep as ->; try done.
  2:{ eapply processFields_mem_mono; eauto. }
  eapply processFields_absent_frame; [exact Hpost| |by auto].
  eapply processFields_absent_frame; [exact Hpre|done|by auto].
Qed.

(** C5: a foreign key whose owning relation field is already in the create
    payload gets no default: the processed payload has the relation
    sub-payload of the input and still no value for the foreign key. *)
Theorem relation_targeted_no_injection (fuel : nat) (model rel : string)
    (fields : list FieldInfo) (f : FieldInfo) (ps : list (string * value))
    (d' : value) :
  getFields meta model = Some fields ->
  wellFormedFields fields = true ->
  In f fields ->
  isTypeDef f = false ->
  isForeignKey f = true ->
  truthy_name (relationField f) = Some rel ->
  assoc_mem rel ps = true ->
  assoc_mem (name f) ps = false ->
  processCreatePayload fuel model (VObj ps) = Ok d' ->
  ownProperty d' rel = assoc_get rel ps /\ ownProperty d' (name f) = None.
Proof.
  intros Hfields Hwf Hf Htd Hfk Hrf Hrel Habs Hrun.
  unfold Payload.processCreatePayload in Hrun. rewrite Hfields in Hrun.
  destruct (processFields_obj _ _ _ _ _ Hrun) as [ps' ->]. simpl. split.
  - eapply processFields_get_frame; [exact Hrun|done|].
    intros g Hg Hgtd Heq. apply truthy_name_Some in Hrf as [Hrf _].
    destruct (wellFormed_target _ f g Hwf) as (Hno & _); auto.
    { by rewrite Heq. }
    congruence.
  - apply assoc_mem_false.
    destruct (in_split _ _ Hf) as (xs & ys & ->).
    eapply (fk_not_injected_run _ _ rel _ xs ys f); eauto.
    intros g Hg. split.
    + apply in_or_app. simpl. tauto.
    + eapply wellFormed_distinct; eauto.
Qed.

(** C8 (as amended): one pass of the create callback over a node.  A field
    that is not an embedded (type-def) field and is already in the node keeps
    the value the caller gave it, whether or not it has a default provider,
    and a relation field too: the callback does not look into it.  A second
    pass over the processed node keeps the value as well.  The create
    payloads nested under a relation field are nodes of their own, which
    the visitor hands to the callback in turn; this statement is about the
    node the callback is run on. *)
Theorem present_field_unchanged (fuel : nat) (model : string)
    (fields : list FieldInfo) (f : FieldInfo) (ps : list (string * value))
    (d' : value) :
  getFields meta model = Some fields ->
  wellFormedFields fields = true ->
  In f fields ->
  isTypeDef f = false ->
  assoc_mem (name f) ps = true ->
  processCreatePayload fuel model (VObj ps) = Ok d' ->
  ownProperty d' (name f) = assoc_get (name f) ps /\
  forall d'', processCreatePayload fuel model d' = Ok d'' ->
              ownProperty d'' (name f) = assoc_get (name f) ps.
Proof.
  intros Hfields Hwf Hf Htd Hin Hrun.
  assert (Hnotd : forall g, In g fields -> isTypeDef g = true -> name g <> name f).
  { destruct (in_split _ _ Hf) as (xs & ys & ->).
    intros g [Hg|[<-|Hg]]%in_app_or Hgtd; [|congruence|];
      eapply wellFormed_distinct; eauto. }
  unfold Payload.processCreatePayload in *. rewrite Hfields in Hrun |- *.
  destruct (processFields_obj _ _ _ _ _ Hrun) as [ps' ->]. simpl.
  assert (H1 : assoc_get (name f) ps' = assoc_get (name f) ps).
  { eapply processFields_get_frame; eauto. }
  split; [done|]. intros d'' Hrun2.
  destruct (processFields_obj _ _ _ _ _ Hrun2) as [ps'' ->]. simpl.
  rewrite -H1. eapply processFields_get_frame; eauto.
  eapply processFields_mem_mono; eauto.
Qed.

(** C10: when two foreign keys [a] and [b] (in this order) back the same
    relation field and the write is not "unsafe" when [a] is reached, the
    default of [a] becomes the [connect] of the relation field and [b] is then
    skipped: the [connect] object holds the opposite key of [a] alone, and
    neither foreign key is set as a scalar. *)
Theorem one_default_per_relation (fuel : nat) (model rel : string)
    (pre mid post : list FieldInfo) (a b : FieldInfo) (provider : value -> value)
    (ps : list (string * value)) (d' : value) :
  truthy userContext = true ->
  getFields meta model = Some (pre ++ a :: mid ++ b :: post) ->
  wellFormedFields (pre ++ a :: mid ++ b :: post) = true ->
  isTypeDef a = false -> isForeignKey a = true ->
  defaultValueProvider a = Some provider ->
  provider userContext <> VUndefined ->
  truthy_name (relationField a) = Some rel ->
  isTypeDef b = false -> isForeignKey b = true ->
  truthy_name (relationField b) = Some rel ->
  assoc_mem (name a) ps = false ->
  assoc_mem (name b) ps = false ->
  assoc_mem rel ps = false ->
  (forall g, In g pre -> relationField g <> Some rel) ->
  (forall ps1, foldM (processField fuel model) pre (VObj ps) = Ok (VObj ps1) ->
               isUnsafeMutate model (VObj ps1) = false) ->
  processCreatePayload fuel model (VObj ps) = Ok d' ->
  exists r opp,
    requireField meta model rel = Ok r /\
    truthy_name (Payload.getOppositeFkFieldName r a) = Some opp /\
    ownProperty d' rel =
      Some (VObj [("connect", VObj [(opp, provider userContext)])]) /\
    ownProperty d' (name a) = None /\
    ownProperty d' (name b) = None.
Proof.
  intros Hu Hfields Hwf Hatd Hafk Hap Hav Harel Hbtd Hbfk Hbrel
    Haabs Hbabs Hrabs Hfirst Hsafe Hrun.
  set (fields := pre ++ a :: mid ++ b :: post) in *.
  assert (Ha : In a fields).
  { apply in_or_app. right. by left. }
  assert (Hb : In b fields).
  { apply in_or_app. right. right. apply in_or_app. right. by left. }
  assert (Hpre_in : forall g, In g pre -> In g fields).
  { intros g Hg. apply in_or_app. by left. }
  assert (Hrest_in : forall g, In g (mid ++ b :: post) -> In g fields).
  { intros g Hg. apply in_or_app. right. by right. }
  pose proof (truthy_name_Some _ _ Harel) as [Harel' _].
  pose proof (truthy_name_Some _ _ Hbrel) as [Hbrel' _].
  assert (Hfkframe : forall c g, In c fields -> In g fields ->
            isForeignKey c = true -> relationField g <> Some (name c)).
  { intros c g Hc Hg Hcfk Hg'.
    destruct (wellFormed_target _ g c Hwf) as (_ & Hno & _); auto. congruence. }
  assert (Hnotd : forall g, In g fields -> isTypeDef g = true -> name g <> rel).
  { intros g Hg Hgtd Heq.
    destruct (wellFormed_target _ a g Hwf) as (Hno & _); auto.
    { by rewrite Heq. }
    congruence. }
  assert (Hrelplain : forall g, In g fields ->
            name g <> rel \/ defaultValueProvider g = None).
  { intros g Hg. destruct (String.eqb_spec (name g) rel) as [Heq|Hne]; [|by left].
    right. destruct (wellFormed_target _ a g Hwf) as (_ & _ & Hnone); auto.
    by rewrite Heq. }
  destruct (processCreatePayload_at _ _ _ _ _ _ _ Hfields Hrun)
    as (ps1 & ps2 & ps' & Hpre & Hstep & Hpost & ->).
  assert (Haabs1 : assoc_mem (name a) ps1 = false).
  { eapply processFields_absent_frame; [exact Hpre|done|].
    intros g Hg. split; [left|by auto].
    eapply (wellFormed_distinct pre (mid ++ b :: post)); eauto. }
  assert (Hrabs1 : assoc_mem rel ps1 = false).
  { eapply processFields_absent_frame; [exact Hpre|done|]. by auto. }
  assert (Hbabs1 : assoc_mem (name b) ps1 = false).
  { eapply processFields_absent_frame; [exact Hpre|done|].
    intros g Hg. split; [left|by auto].
    eapply (wellFormed_distinct (pre ++ a :: mid) post); eauto.
    - by rewrite -app_assoc.
    - left. apply in_or_app. by left. }
  rewrite (processField_inject _ _ _ provider) // in Hstep.
  destruct (requireField meta model rel) as [r| |] eqn:Hreq.
  2,3: revert Hstep; unfold Payload.setDefaultValueForModelData;
       by rewrite relationAlreadySet_obj Hafk Harel Hrabs1 (Hsafe _ Hpre) /= Hreq.
  rewrite (setDefault_connect _ r _ rel) // in Hstep; [by apply Hsafe|].
  destruct (truthy_name (Payload.getOppositeFkFieldName r a)) as [opp|]
    eqn:Hopp; [|done].
  injection Hstep as <-. exists r, opp. split; [done|]. split; [done|]. simpl.
  assert (Hne_a : rel <> name a).
  { intros Heq. apply (Hfkframe a a); auto. congruence. }
  assert (Hne_b : rel <> name b).
  { intros Heq. apply (Hfkframe b b); auto. congruence. }
  split; [|split].
  - erewrite processFields_get_frame; [|exact Hpost| |].
    + by rewrite assoc_get_set_eq.
    + by rewrite assoc_mem_set_eq.
    + by auto.
  - apply assoc_mem_false.
    eapply processFields_absent_frame; [exact Hpost| |].
    + by rewrite assoc_mem_set_ne.
    + intros g Hg. split; [left|by auto].
      eapply (wellFormed_distinct pre (mid ++ b :: post)); eauto.
  - apply assoc_mem_false.
    eapply (fk_not_injected_run fuel model rel fields mid post b
              (assoc_set rel _ ps1) ps');
      [done|done| |done|done|done| | |exact Hpost].
    + intros g Hg. split.
      * apply Hrest_in. apply in_or_app. simpl. tauto.
      * eapply (wellFormed_distinct (pre ++ a :: mid) post); eauto.
        { by rewrite -app_assoc. }
        destruct Hg as [Hg|Hg]; [left|by right].
        apply in_or_app. right. by right.
    + by rewrite assoc_mem_set_eq.
    + by rewrite assoc_mem_set_ne.
Qed.

(** ** Without a caller identity *)

Lemma putBack_same (v x : value) (k : string) :
  getProperty v k = Ok x -> putBack v k x = v.
Proof.
  destruct v as [| | | | |ps|]; simpl; try done.
  intros [= <-]. unfold assoc_mem.
  destruct (assoc_get k ps) as [y|] eqn:Hget; [|done].
  simpl. by rewrite assoc_set_same.
Qed.

Lemma foldM_unchanged {A B : Type} (body : A -> B -> result A) (xs : list B)
    (a a' : A) :
  (forall a0 b a1, In b xs -> body a0 b = Ok a1 -> a1 = a0) ->
  foldM body xs a = Ok a' -> a' = a.
Proof.
  revert a. induction xs as [|x xs IH]; intros a Hbody; simpl.
  - by intros [= <-].
  - destruct (body a x) as [a1| |] eqn:Hx; simpl; [|done|done].
    apply Hbody in Hx as ->; [|by left]. apply IH.
    intros a0 b a2 Hb. apply Hbody. by right.
Qed.

Lemma forEachM_unchanged {A : Type} (body : A -> result A) (xs xs' : list A) :
  (forall x x', body x = Ok x' -> x' = x) ->
  forEachM body xs = Ok xs' -> xs' = xs.
Proof.
  intros Hbody. revert xs'. induction xs as [|x xs IH]; intros xs'; simpl.
  - by intros [= <-].
  - destruct (body x) as [x1| |] eqn:Hx; simpl; [|done|done].
    destruct (forEachM body xs) as [xs1| |]; simpl; [|done|done].
    intros [= <-]. by rewrite (Hbody _ _ Hx) (IH xs1).
Qed.

Lemma typeDefField_no_identity (recurse : string -> value -> result value)
    (item item' : value) (f : FieldInfo) :
  truthy userContext = false ->
  (forall t x x', recurse t x = Ok x' -> x' = x) ->
  Payload.typeDefField userContext recurse item f = Ok item' -> item' = item.
Proof.
  intros Hu Hrec. unfold Payload.typeDefField, Payload.getDefaultValue.
  rewrite Hu /=. destruct (isTypeDef f).
  - destruct (getProperty item (name f)) as [sub| |] eqn:Hsub; simpl; [|done|done].
    destruct (recurse (type f) sub) as [sub'| |] eqn:Hr; simpl; [|done|done].
    apply Hrec in Hr as ->. intros [= <-]. by apply putBack_same.
  - destruct (hasProperty (name f) item) as [[|]| |]; simpl; try done.
    by intros [= <-].
Qed.

Lemma typeDef_no_identity (fuel : nat) (type : string) (data data' : value) :
  truthy userContext = false ->
  setDefaultValueForTypeDefData fuel type data = Ok data' -> data' = data.
Proof.
  intros Hu. revert type data data'.
  induction fuel as [|fuel IH]; intros type data data'; simpl.
  - destruct (_ || _); [by intros [= <-]|].
    destruct (getTypeDefInfo meta type); [done|by intros [= <-]].
  - destruct (_ || _); [by intros [= <-]|].
    destruct (getTypeDefInfo meta type) as [fields|]; [|by intros [= <-]].
    assert (Hitem : forall x x',
              Payload.typeDefItem userContext
                (setDefaultValueForTypeDefData fuel) fields x = Ok x' -> x' = x).
    { intros x x'. unfold Payload.typeDefItem.
      destruct (_ || _); [by intros [= <-]|].
      apply foldM_unchanged. intros a0 g a1 _.
      by apply typeDefField_no_identity. }
    destruct data; simpl; try by intros [= <-].
    + by apply Hitem.
    + by apply Hitem.
    + by apply Hitem.
    + by apply Hitem.
    + destruct (forEachM _ items) as [items'| |] eqn:Hall; simpl; [|done|done].
      intros [= <-]. f_equal. by eapply forEachM_unchanged.
Qed.

Lemma processField_no_identity (fuel : nat) (model : string) (d d' : value)
    (f : FieldInfo) :
  truthy userContext = false ->
  processField fuel model d f = Ok d' -> d' = d.
Proof.
  intros Hu. unfold Payload.processField, Payload.getDefaultValue.
  rewrite Hu /=. destruct (isTypeDef f).
  - destruct (getProperty d (name f)) as [sub| |] eqn:Hsub; simpl; [|done|done].
    destruct (setDefaultValueForTypeDefData fuel (type f) sub) as [sub'| |] eqn:Hr;
      simpl; [|done|done].
    apply typeDef_no_identity in Hr as ->; [|done].
    intros [= <-]. by apply putBack_same.
  - destruct (hasProperty (name f) d) as [[|]| |]; simpl; try done.
    + by intros [= <-].
    + destruct (defaultValueProvider f); [done|by intros [= <-]].
Qed.

(** C3: without a caller identity, a create payload that leaves out a field
    with a default provider is not processed: the outcome is never a payload,
    and when the fields declared before that field pass, it is the
    [ValidationError] that names the field.  Inside an embedded value the
    error names the sub-field that is left out. *)
Theorem missing_identity_fails (fuel : nat) (model : string)
    (pre post : list FieldInfo) (f : FieldInfo) (provider : value -> value)
    (ps : list (string * value)) :
  truthy userContext = false ->
  getFields meta model = Some (pre ++ f :: post) ->
  isTypeDef f = false ->
  defaultValueProvider f = Some provider ->
  assoc_mem (name f) ps = false ->
  (forall d', processCreatePayload fuel model (VObj ps) <> Ok d') /\
  (forall d1, foldM (processField fuel model) pre (VObj ps) = Ok d1 ->
     processCreatePayload fuel model (VObj ps) =
     Throw (ValidationError (Payload.requiresUserMessage (name f)))) /\
  (forall recurse, Payload.typeDefField userContext recurse (VObj ps) f =
     Throw (ValidationError (Payload.requiresUserMessage (name f)))).
Proof.
  intros Hu Hfields Htd Hp Habs.
  assert (Hstep : processField fuel model (VObj ps) f =
            Throw (ValidationError (Payload.requiresUserMessage (name f)))).
  { unfold Payload.processField, Payload.getDefaultValue.
    by rewrite Htd /= Habs Hp Hu. }
  assert (Hreach : forall d1,
            foldM (processField fuel model) pre (VObj ps) = Ok d1 ->
            processCreatePayload fuel model (VObj ps) =
            Throw (ValidationError (Payload.requiresUserMessage (name f)))).
  { intros d1 Hpre. unfold Payload.processCreatePayload.
    rewrite Hfields foldM_app Hpre /=.
    apply foldM_unchanged in Hpre as ->.
    - by rewrite Hstep.
    - intros a0 g a1 _. by apply processField_no_identity. }
  split; [|split; [done|]].
  - intros d' Hrun. pose proof Hrun as Hrun'.
    unfold Payload.processCreatePayload in Hrun'. rewrite Hfields in Hrun'.
    apply foldM_app_inv in Hrun' as (d1 & _ & Hpre & _).
    rewrite (Hreach d1 Hpre) in Hrun. done.
  - intros recurse. unfold Payload.typeDefField, Payload.getDefaultValue.
    by rewrite Htd /= Habs Hu.
Qed.

(** ** Foreign keys *)

Lemma getOpposite_find (r f : FieldInfo) (mapping : list (string * string))
    (opp fk : string) :
  foreignKeyMapping r = Some mapping ->
  find (fun entry => String.eqb (snd entry) (name f)) mapping = Some (opp, fk) ->
  Payload.getOppositeFkFieldName r f = Some opp /\ fk = name f /\
  In (opp, name f) mapping.
Proof.
  intros Hm Hfind. unfold Payload.getOppositeFkFieldName. rewrite Hm Hfind.
  apply find_some in Hfind as [Hin Heq]. apply String.eqb_eq in Heq.
  simpl in Heq. subst fk. done.
Qed.

Lemma getOpposite_none (r f : FieldInfo) :
  match foreignKeyMapping r with
  | None => True
  | Some mapping => forall k v, In (k, v) mapping -> v <> name f
  end ->
  Payload.getOppositeFkFieldName r f = None.
Proof.
  unfold Payload.getOppositeFkFieldName.
  destruct (foreignKeyMapping r) as [mapping|]; [|done].
  intros Hno. destruct (find _ mapping) as [[k v]|] eqn:Hfind; [|done].
  apply find_some in Hfind as [Hin Heq]. apply String.eqb_eq in Heq.
  by destruct (Hno k v Hin).
Qed.

(** C4: the default [v] of a foreign key whose relation field is not in the
    payload is written as the scalar [data[f.name]] when the write is
    "unsafe"; otherwise as [data[rel].connect[opp]], where [rel] is the
    relation field that owns the key and [opp] is the key of the first entry
    of its foreignKeyMapping whose value is the name of the foreign key.  Both
    payloads hold the same value [v], for the column pair [(opp, f.name)] of
    the mapping. *)
Theorem fk_default_shape (model : string) (f : FieldInfo)
    (ps : list (string * value)) (v : value) :
  isForeignKey f = true ->
  Payload.relationAlreadySet f (VObj ps) = Ok false ->
  (isUnsafeMutate model (VObj ps) = true ->
   setDefaultValueForModelData f model (VObj ps) v =
     Ok (VObj (assoc_set (name f) v ps)) /\
   setDirectly (VObj (assoc_set (name f) v ps)) f v) /\
  (isUnsafeMutate model (VObj ps) = false ->
   forall rel r mapping opp fk,
     truthy_name (relationField f) = Some rel ->
     requireField meta model rel = Ok r ->
     foreignKeyMapping r = Some mapping ->
     find (fun entry => String.eqb (snd entry) (name f)) mapping = Some (opp, fk) ->
     opp <> "" ->
     setDefaultValueForModelData f model (VObj ps) v = Ok (connectTo rel opp v ps) /\
     setViaConnect meta model (connectTo rel opp v ps) f v /\
     In (opp, name f) mapping).
Proof.
  intros Hfk Hskip. split.
  - intros Hunsafe. split.
    + apply setDefault_scalar; [done|]. by rewrite Hfk Hunsafe.
    + unfold setDirectly. simpl. apply assoc_get_set_eq.
  - intros Hsafe rel r mapping opp fk Hrf Hreq Hm Hfind Hopp.
    destruct (getOpposite_find _ _ _ _ _ Hm Hfind) as (Hget & -> & Hin).
    assert (Htn : truthy_name (Payload.getOppositeFkFieldName r f) = Some opp).
    { rewrite Hget /=. by destruct (String.eqb_spec opp ""). }
    assert (Hout : assoc_mem rel ps = false).
    { rewrite relationAlreadySet_obj Hfk Hrf /= in Hskip. by injection Hskip. }
    split; [|split; [|done]].
    + by rewrite (setDefault_connect f r model rel) // Htn.
    + exists rel, r, opp. repeat split; try done. simpl. apply assoc_get_set_eq.
Qed.

(** C6: when the default of a foreign key is to be translated into a
    [connect] (identity present, key not in the payload, relation field not
    in the payload, write not "unsafe") and the key names no relation field,
    or the foreignKeyMapping of its relation field has no entry whose value
    is the name of the key, preprocessing throws the [Error] that names the
    key and produces no payload. *)
Theorem unresolved_relation_fails (fuel : nat) (model : string)
    (pre post : list FieldInfo) (f : FieldInfo) (provider : value -> value)
    (ps ps1 : list (string * value)) :
  truthy userContext = true ->
  getFields meta model = Some (pre ++ f :: post) ->
  isTypeDef f = false ->
  isForeignKey f = true ->
  defaultValueProvider f = Some provider ->
  provider userContext <> VUndefined ->
  foldM (processField fuel model) pre (VObj ps) = Ok (VObj ps1) ->
  assoc_mem (name f) ps1 = false ->
  Payload.relationAlreadySet f (VObj ps1) = Ok false ->
  isUnsafeMutate model (VObj ps1) = false ->
  (truthy_name (relationField f) = None ->
   processCreatePayload fuel model (VObj ps) =
   Throw (JsError (Payload.noRelationFieldMessage (name f)))) /\
  (forall rel r,
     truthy_name (relationField f) = Some rel ->
     requireField meta model rel = Ok r ->
     match foreignKeyMapping r with
     | None => True
     | Some mapping => forall k v, In (k, v) mapping -> v <> name f
     end ->
     processCreatePayload fuel model (VObj ps) =
     Throw (JsError (Payload.noOppositeFkMessage (name f) rel))).
Proof.
  intros Hu Hfields Htd Hfk Hp Hv Hpre Habs Hskip Hsafe.
  assert (Hrun : processCreatePayload fuel model (VObj ps) =
            (d2 ← setDefaultValueForModelData f model (VObj ps1)
                    (provider userContext);
             foldM (processField fuel model) post d2)).
  { unfold Payload.processCreatePayload.
    rewrite Hfields foldM_app Hpre /=.
    by rewrite (processField_inject _ _ _ provider). }
  rewrite Hrun. split.
  - intros Hnone. unfold Payload.setDefaultValueForModelData.
    by rewrite Hskip /= Hfk Hsafe /= Hnone.
  - intros rel r Hrf Hreq Hno.
    assert (Hout : assoc_mem rel ps1 = false).
    { rewrite relationAlreadySet_obj Hfk Hrf /= in Hskip. by injection Hskip. }
    rewrite (setDefault_connect f r model rel) //.
    by rewrite (getOpposite_none r f Hno).
Qed.

(** ** Embedded values *)

Lemma forEachM_same {A : Type} (body : A -> result A) (xs : list A) :
  Forall (fun x => body x = Ok x) xs -> forEachM body xs = Ok xs.
Proof.
  induction 1 as [|x xs Hx _ IH]; simpl; [done|]. by rewrite Hx /= IH.
Qed.

Lemma typeDef_not_object (fuel : nat) (type : string) (data : value) :
  typeof_object data = false \/ data = VNull ->
  setDefaultValueForTypeDefData fuel type data = Ok data.
Proof.
  intros H.
  assert (Hearly : negb (truthy data) ||
            (negb (typeof_object data) && negb (isArray data)) = true).
  { destruct H as [H| ->]; [|done].
    destruct data; try done; simpl; by rewrite orb_true_r. }
  destruct fuel; simpl; by rewrite Hearly.
Qed.

(** C9: default injection does nothing, and raises nothing, for an embedded
    field that the create payload leaves out or gives a value that is not an
    object ([undefined], [null], a scalar); the same holds for a type-def
    name that the metadata does not know, for an element of an array that is
    not an object, and so for an array of such elements. *)
Theorem embedded_value_skipped (fuel : nat) (model : string) :
  (forall (type : string) (data : value),
     typeof_object data = false \/ data = VNull ->
     setDefaultValueForTypeDefData fuel type data = Ok data) /\
  (forall (type : string) (data : value),
     getTypeDefInfo meta type = None ->
     setDefaultValueForTypeDefData fuel type data = Ok data) /\
  (forall (recurse : string -> value -> result value) (fields : list FieldInfo)
          (item : value),
     typeof_object item = false \/ item = VNull ->
     Payload.typeDefItem userContext recurse fields item = Ok item) /\
  (forall (type : string) (items : list value),
     Forall (fun item => typeof_object item = false \/ item = VNull) items ->
     setDefaultValueForTypeDefData (S fuel) type (VArr items) = Ok (VArr items)) /\
  (forall (f : FieldInfo) (ps : list (string * value)),
     isTypeDef f = true ->
     match assoc_get (name f) ps with
     | None => True
     | Some x => typeof_object x = false \/ x = VNull
     end ->
     processField fuel model (VObj ps) f = Ok (VObj ps)).
Proof.
  assert (Hitem : forall recurse fields item,
            typeof_object item = false \/ item = VNull ->
            Payload.typeDefItem userContext recurse fields item = Ok item).
  { intros recurse fields item Hitem. unfold Payload.typeDefItem.
    destruct Hitem as [H| ->]; [|done]. by rewrite H orb_true_r. }
  split; [|split; [|split; [done|split]]].
  - intros type data. apply typeDef_not_object.
  - intros type data Hnone. destruct fuel; simpl; rewrite Hnone;
      by destruct (_ || _).
  - intros type items Hall. simpl.
    destruct (getTypeDefInfo meta type) as [fields|]; [|done].
    rewrite /overEnumerated forEachM_same //.
    eapply Forall_impl; [exact Hall|]. intros item. apply Hitem.
  - intros f ps Htd Hval. unfold Payload.processField. rewrite Htd /=.
    destruct (assoc_get (name f) ps) as [x|] eqn:Hget; simpl.
    + rewrite typeDef_not_object // /= /assoc_mem Hget.
      by rewrite assoc_set_same.
    + rewrite typeDef_not_object /=; [by left|].
      by rewrite /assoc_mem Hget.
Qed.

(** ** The three callbacks

    Each create node the visitor hands over is processed by
    [processCreatePayload]: the payload of [create], the [create] branch of
    [upsert], every element of [createMany.data]. *)

Lemma forEachM_Forall2 {A : Type} (body : A -> result A) (xs ys : list A) :
  forEachM body xs = Ok ys -> Forall2 (fun x y => body x = Ok y) xs ys.
Proof.
  revert ys. induction xs as [|x xs IH]; intros ys; simpl.
  - intros [= <-]. constructor.
  - destruct (body x) as [y| |] eqn:Hx; simpl; [|done|done].
    destruct (forEachM body xs) as [ys'| |]; simpl; [|done|done].
    intros [= <-]. constructor; auto.
Qed.

Lemma onCreate_node (fuel : nat) (model : string) (data : value) :
  Payload.onCreate meta userContext isUnsafeMutate fuel model data =
  processCreatePayload fuel model data.
Proof. reflexivity. Qed.

Lemma onCreateMany_nodes (fuel : nat) (model : string)
    (ps : list (string * value)) (items : list value) (d' : value) :
  assoc_get "data" ps = Some (VArr items) ->
  Payload.onCreateMany meta userContext isUnsafeMutate fuel model (VObj ps) = Ok d' ->
  exists items',
    d' = VObj (assoc_set "data" (VArr items') ps) /\
    Forall2 (fun item item' => processCreatePayload fuel model item = Ok item')
      items items'.
Proof.
  intros Hget. unfold Payload.onCreateMany. simpl. rewrite Hget /=.
  destruct (forEachM _ items) as [items'| |] eqn:Hall; simpl; [|done|done].
  rewrite /assoc_mem Hget. intros [= <-]. exists items'. split; [done|].
  by apply forEachM_Forall2.
Qed.

(** ** The recursion budget

    A run that stays within the embedded fragment gives the same outcome
    with any larger budget. *)

Lemma bind_modelled {A B : Type} (m : result A) (k k' : A -> result B) :
  (m ≫= k) <> Unmodelled ->
  (forall a, m = Ok a -> k a <> Unmodelled -> k' a = k a) ->
  (m ≫= k') = (m ≫= k).
Proof.
  destruct m as [a| |]; simpl; [|done|done]. intros Hk Hext. by apply Hext.
Qed.

Lemma foldM_modelled {A B : Type} (body body' : A -> B -> result A)
    (xs : list B) (a : A) :
  (forall a0 x, body a0 x <> Unmodelled -> body' a0 x = body a0 x) ->
  foldM body xs a <> Unmodelled ->
  foldM body' xs a = foldM body xs a.
Proof.
  intros Hext. revert a. induction xs as [|x xs IH]; intros a; simpl; [done|].
  intros Hrun. rewrite Hext.
  { intros Hx. by rewrite Hx in Hrun. }
  apply bind_modelled; auto.
Qed.

Lemma forEachM_modelled {A : Type} (body body' : A -> result A) (xs : list A) :
  (forall x, body x <> Unmodelled -> body' x = body x) ->
  forEachM body xs <> Unmodelled ->
  forEachM body' xs = forEachM body xs.
Proof.
  intros Hext. induction xs as [|x xs IH]; simpl; [done|].
  intros Hrun. rewrite Hext.
  { intros Hx. by rewrite Hx in Hrun. }
  apply bind_modelled; [done|]. intros x' Hx' Hrest. rewrite IH; [|done].
  intros Hxs. by rewrite Hxs in Hrest.
Qed.

Lemma typeDefField_modelled (recurse recurse' : string -> value -> result value)
    (item : value) (f : FieldInfo) :
  (forall t x, recurse t x <> Unmodelled -> recurse' t x = recurse t x) ->
  Payload.typeDefField userContext recurse item f <> Unmodelled ->
  Payload.typeDefField userContext recurse' item f =
  Payload.typeDefField userContext recurse item f.
Proof.
  intros Hext. unfold Payload.typeDefField. destruct (isTypeDef f); [|done].
  intros Hrun. apply bind_modelled; [done|]. intros sub Hsub Hrest.
  rewrite Hext; [|done]. intros Hr. by rewrite Hr in Hrest.
Qed.

Lemma typeDef_budget_step (fuel : nat) (type : string) (data : value) :
  setDefaultValueForTypeDefData fuel type data <> Unmodelled ->
  setDefaultValueForTypeDefData (S fuel) type data =
  setDefaultValueForTypeDefData fuel type data.
Proof.
  revert type data. induction fuel as [|fuel IH]; intros type data.
  - simpl. destruct (_ || _); [done|].
    by destruct (getTypeDefInfo meta type).
  - change (setDefaultValueForTypeDefData (S (S fuel)) type data) with
      (if negb (truthy data) || (negb (typeof_object data) && negb (isArray data))
       then Ok data
       else match getTypeDefInfo meta type with
            | None => Ok data
            | Some fields =>
                overEnumerated
                  (Payload.typeDefItem userContext
                     (setDefaultValueForTypeDefData (S fuel)) fields) data
            end).
    change (setDefaultValueForTypeDefData (S fuel) type data) with
      (if negb (truthy data) || (negb (typeof_object data) && negb (isArray data))
       then Ok data
       else match getTypeDefInfo meta type with
            | None => Ok data
            | Some fields =>
                overEnumerated
                  (Payload.typeDefItem userContext
                     (setDefaultValueForTypeDefData fuel) fields) data
            end).
    destruct (_ || _); [done|].
    destruct (getTypeDefInfo meta type) as [fields|]; [|done].
    assert (Hitem : forall x,
              Payload.typeDefItem userContext
                (setDefaultValueForTypeDefData fuel) fields x <> Unmodelled ->
              Payload.typeDefItem userContext
                (setDefaultValueForTypeDefData (S fuel)) fields x =
              Payload.typeDefItem userContext
                (setDefaultValueForTypeDefData fuel) fields x).
    { intros x. unfold Payload.typeDefItem. destruct (_ || _); [done|].
      apply foldM_modelled. intros a0 g. by apply typeDefField_modelled. }
    destruct data; simpl; try done; try by apply Hitem.
    intros Hrun. rewrite (forEachM_modelled _ _ items Hitem); [|done].
    intros Hall. by rewrite Hall in Hrun.
Qed.

Lemma processCreatePayload_budget_step (fuel : nat) (model : string)
    (data : value) :
  processCreatePayload fuel model data <> Unmodelled ->
  processCreatePayload (S fuel) model data =
  processCreatePayload fuel model data.
Proof.
  unfold Payload.processCreatePayload.
  destruct (getFields meta model) as [fields|]; [|done].
  apply foldM_modelled. intros a0 g. unfold Payload.processField.
  destruct (isTypeDef g); [|done].
  intros Hstep. apply bind_modelled; [done|]. intros sub Hsub Hrest.
  rewrite typeDef_budget_step; [|done]. intros Hr. by rewrite Hr in Hrest.
Qed.

Lemma processCreatePayload_budget (fuel extra : nat) (model : string)
    (data : value) :
  processCreatePayload fuel model data <> Unmodelled ->
  processCreatePayload (fuel + extra) model data =
  processCreatePayload fuel model data.
Proof.
  intros Hrun. induction extra as [|extra IH]; [by rewrite Nat.add_0_r|].
  rewrite Nat.add_succ_r processCreatePayload_budget_step; [|done].
  by rewrite IH.
Qed.

End PayloadFacts.

(** ** The store: what the handler may write *)

Section StoreRules.
Import Store.

Variable s0 : store.

Lemma keeps_ret {A : Type} (a : A) (Q : A -> Prop) :
  Q a -> keeps s0 (mret a) Q.
Proof. intros Ha s Hs. by split. Qed.

Lemma keeps_bind {A B : Type} (m : M A) (k : A -> M B) (Q : A -> Prop)
    (R : B -> Prop) :
  keeps s0 m Q -> (forall a, Q a -> keeps s0 (k a) R) -> keeps s0 (m ≫= k) R.
Proof.
  intros Hm Hk s Hs. specialize (Hm s Hs).
  unfold mbind, M_bind, bind. destruct (m s) as [a s'| |]; [|done|done].
  destruct Hm as [Hs' Ha]. by apply Hk.
Qed.

Lemma keeps_weaken {A : Type} (m : M A) (Q Q' : A -> Prop) :
  keeps s0 m Q -> (forall a, Q a -> Q' a) -> keeps s0 m Q'.
Proof.
  intros Hm HQ s Hs. specialize (Hm s Hs).
  destruct (m s); [|done|done]. destruct Hm. split; auto.
Qed.

Lemma keeps_raise {A : Type} (e : error) (Q : A -> Prop) : keeps s0 (raise e) Q.
Proof. by intros s Hs. Qed.

Lemma keeps_outOfModel {A : Type} (Q : A -> Prop) : keeps s0 outOfModel Q.
Proof. by intros s Hs. Qed.

Lemma keeps_liftResult {A : Type} (r : result A) (Q : A -> Prop) :
  (forall a, r = Ok a -> Q a) -> keeps s0 (liftResult r) Q.
Proof.
  intros HQ. destruct r; simpl.
  - apply keeps_ret. auto.
  - apply keeps_raise.
  - apply keeps_outOfModel.
Qed.

Lemma keeps_read (l : loc) : keeps s0 (read l) (fun _ => True).
Proof. intros s Hs. unfold read. by destruct (s !! l). Qed.

Lemma keeps_read_owned (l : loc) :
  length s0 <= l -> keeps s0 (read l) (ownedCell s0).
Proof.
  intros Hl s Hs. unfold read. destruct (s !! l) as [c|] eqn:Hc; [|done].
  split; [done|]. destruct Hs as (_ & _ & Hown). by apply (Hown l).
Qed.

Lemma keeps_write (l : loc) (c : cell) :
  length s0 <= l -> ownedCell s0 c -> keeps s0 (write l c) (fun _ => True).
Proof.
  intros Hl Hc s (Hlen & Hold & Hown). unfold write. split; [|done].
  split; [|split].
  - by rewrite length_insert.
  - intros l' c' Hl'. rewrite list_lookup_insert_ne; [|by apply Hold].
    apply lookup_lt_Some in Hl'. lia.
  - intros l' c' Hl'. destruct (decide (l = l')) as [<-|Hne].
    + intros Hget. destruct (decide (l < length s)) as [Hlt|Hge].
      * rewrite list_lookup_insert_eq // in Hget. by injection Hget as <-.
      * rewrite list_insert_ge in Hget; [lia|]. by apply (Hown l).
    + rewrite list_lookup_insert_ne //. by apply Hown.
Qed.

Lemma keeps_alloc (c : cell) : ownedCell s0 c -> keeps s0 (alloc c) (owned s0).
Proof.
  intros Hc s (Hlen & Hold & Hown). unfold alloc. split; [|done].
  split; [|split].
  - rewrite length_app /=. lia.
  - intros l' c' Hl'. rewrite lookup_app_l; [|by apply Hold].
    apply Hold in Hl'. by apply lookup_lt_Some in Hl'.
  - intros l' c' Hl'. destruct (decide (l' < length s)) as [Hlt|Hge].
    + rewrite lookup_app_l //. by apply Hown.
    + rewrite lookup_app_r; [lia|].
      destruct (l' - length s) as [|n]; simpl; [|by destruct n].
      by intros [= <-].
Qed.

Lemma keeps_forEach {A : Type} (xs : list A) (body : A -> M unit)
    (P : A -> Prop) :
  Forall P xs ->
  (forall x, P x -> keeps s0 (body x) (fun _ => True)) ->
  keeps s0 (forEach xs body) (fun _ => True).
Proof.
  intros Hxs Hbody. induction Hxs as [|x xs Hx _ IH]; simpl.
  - by apply keeps_ret.
  - eapply keeps_bind; [by apply Hbody|]. by intros _ _.
Qed.

Lemma keeps_mapEach {A B : Type} (f : A -> M B) (xs : list A) (Q : B -> Prop) :
  (forall x, keeps s0 (f x) Q) -> keeps s0 (mapEach f xs) (Forall Q).
Proof.
  intros Hf. induction xs as [|x xs IH]; simpl.
  - by apply keeps_ret.
  - eapply keeps_bind; [apply Hf|]. intros y Hy.
    eapply keeps_bind; [apply IH|]. intros ys Hys.
    apply keeps_ret. by constructor.
Qed.

Lemma owned_lookup (ps : list (string * hvalue)) (k : string) :
  Forall (fun p => owned s0 (snd p)) ps ->
  owned s0 (default (Imm VUndefined) (assoc_get k ps)).
Proof.
  induction 1 as [|[k' x] ps Hx _ IH]; simpl; [done|].
  by destruct (String.eqb k k').
Qed.

Lemma owned_update (ps : list (string * hvalue)) (k : string) (x : hvalue) :
  owned s0 x ->
  Forall (fun p => owned s0 (snd p)) ps ->
  Forall (fun p => owned s0 (snd p)) (assoc_set k x ps).
Proof.
  intros Hx. induction 1 as [|[k' y] ps Hy Hps IH]; simpl.
  - by constructor.
  - destruct (String.eqb k k'); by constructor.
Qed.

Lemma keeps_isArray (v : hvalue) : keeps s0 (isArray v) (fun _ => True).
Proof.
  destruct v as [x|l]; simpl; [by apply keeps_ret|].
  eapply keeps_bind; [apply keeps_read|]. intros c _. by apply keeps_ret.
Qed.

Lemma keeps_hasProperty (k : string) (v : hvalue) :
  keeps s0 (hasProperty k v) (fun _ => True).
Proof.
  destruct v as [x|l]; simpl.
  - destruct x; auto using keeps_raise, keeps_outOfModel.
  - eapply keeps_bind; [apply keeps_read|]. intros [ps|items] _.
    + by apply keeps_ret.
    + apply keeps_outOfModel.
Qed.

Lemma keeps_keys (v : hvalue) : keeps s0 (keys v) (fun _ => True).
Proof.
  destruct v as [x|l]; simpl; [apply keeps_outOfModel|].
  eapply keeps_bind; [apply keeps_read|]. intros [ps|items] _.
  - by apply keeps_ret.
  - apply keeps_outOfModel.
Qed.

Lemma keeps_getProperty (v : hvalue) (k : string) :
  owned s0 v -> keeps s0 (getProperty v k) (owned s0).
Proof.
  destruct v as [x|l]; simpl; intros Hv.
  - destruct x; auto using keeps_raise, keeps_outOfModel.
  - eapply keeps_bind; [by apply keeps_read_owned|]. intros [ps|items] Hc.
    + apply keeps_ret. by apply owned_lookup.
    + apply keeps_outOfModel.
Qed.

Lemma keeps_setProperty (v x : hvalue) (k : string) :
  owned s0 v -> owned s0 x -> keeps s0 (setProperty v k x) (fun _ => True).
Proof.
  destruct v as [y|l]; simpl; intros Hv Hx.
  - destruct y; auto using keeps_raise, keeps_outOfModel.
  - eapply keeps_bind; [by apply keeps_read_owned|]. intros [ps|items] Hc.
    + apply keeps_write; [done|]. by apply owned_update.
    + apply keeps_outOfModel.
Qed.

Lemma keeps_enumerate (v : hvalue) :
  owned s0 v -> keeps s0 (enumerate v) (Forall (owned s0)).
Proof.
  destruct v as [x|l]; simpl; intros Hv.
  - destruct x; apply keeps_ret; repeat constructor.
    by apply Forall_fmap, Forall_true.
  - eapply keeps_bind; [by apply keeps_read_owned|]. intros [ps|items] Hc.
    + apply keeps_ret. by repeat constructor.
    + by apply keeps_ret.
Qed.

(** The clone is made of new cells only, whatever it is a clone of. *)
Lemma keeps_clone (fuel : nat) (v : hvalue) : keeps s0 (clone fuel v) (owned s0).
Proof.
  revert v. induction fuel as [|fuel IH]; intros [x|l]; simpl;
    try (by apply keeps_ret); try apply keeps_outOfModel.
  eapply keeps_bind; [apply keeps_read|]. intros [ps|items] _.
  - eapply keeps_bind.
    + apply (keeps_mapEach _ _ (fun p => owned s0 (snd p))). intros [k x].
      eapply keeps_bind; [apply IH|]. intros y Hy. by apply keeps_ret.
    + intros ps' Hps'. by apply keeps_alloc.
  - eapply keeps_bind; [by apply keeps_mapEach|].
    intros items' Hitems'. by apply keeps_alloc.
Qed.

End StoreRules.

Arguments Store.isOneOf : simpl never.

Section StoreFacts.
Import Store.

Variable meta : ModelMeta.
Variable userContext : value.
Variable isUnsafeMutate : string -> store -> hvalue -> bool.
Variable thisModel : string.
Variable ACTIONS_WITH_WRITE_PAYLOAD : list string.
Variable fuel : nat.
Variable s0 : store.

Local Abbreviation getDefaultValue := (Store.getDefaultValue userContext).
Local Abbreviation setDefaultValueForModelData :=
  (Store.setDefaultValueForModelData meta isUnsafeMutate).
Local Abbreviation setDefaultValueForTypeDefData :=
  (Store.setDefaultValueForTypeDefData meta userContext).
Local Abbreviation processCreatePayload :=
  (Store.processCreatePayload meta userContext isUnsafeMutate fuel).
Local Abbreviation visitor := (Store.visitor meta userContext isUnsafeMutate fuel).
Local Abbreviation visitNode := (Store.visitNode meta).
Local Abbreviation visit := (Store.visit meta fuel).
Local Abbreviation preprocessWritePayload :=
  (Store.preprocessWritePayload meta userContext isUnsafeMutate fuel).
Local Abbreviation preprocessArgs :=
  (Store.preprocessArgs meta userContext isUnsafeMutate thisModel
     ACTIONS_WITH_WRITE_PAYLOAD fuel).

Local Abbreviation anything := (fun _ => True).

Lemma keeps_getDefaultValue (f : FieldInfo) :
  keeps s0 (getDefaultValue f) (owned s0).
Proof.
  unfold Store.getDefaultValue.
  eapply keeps_bind; [by apply (keeps_liftResult _ _ anything)|].
  intros v _. by apply keeps_ret.
Qed.

Lemma keeps_setDefaultValueForModelData (f : FieldInfo) (model : string)
    (data v : hvalue) :
  owned s0 data -> owned s0 v ->
  keeps s0 (setDefaultValueForModelData f model data v) anything.
Proof.
  intros Hdata Hv. unfold Store.setDefaultValueForModelData.
  eapply (keeps_bind _ _ _ anything).
  { unfold Store.relationAlreadySet. destruct (isForeignKey f).
    - destruct (truthy_name (relationField f));
        [apply keeps_hasProperty|by apply keeps_ret].
    - by apply keeps_ret. }
  intros [|] _; [by apply keeps_ret|].
  eapply (keeps_bind _ _ _ anything).
  { intros s Hs. by split. }
  intros unsafe _. destruct (isForeignKey f && negb unsafe).
  2:{ by apply keeps_setProperty. }
  destruct (truthy_name (relationField f)) as [relFieldName|];
    [|apply keeps_raise].
  eapply (keeps_bind _ _ _ anything); [by apply keeps_liftResult|].
  intros r _.
  eapply keeps_bind; [by apply keeps_getProperty|]. intros rel Hrel.
  eapply (keeps_bind _ _ _ (owned s0)).
  { destruct (isNullish rel); [by apply keeps_ret|by apply keeps_getProperty]. }
  intros existing Hexisting.
  eapply (keeps_bind _ _ _ (owned s0)).
  { destruct (Store.truthy existing); [by apply keeps_ret|].
    eapply keeps_bind; [by apply keeps_alloc; constructor|].
    intros connect Hconnect.
    eapply keeps_bind; [apply keeps_alloc; by repeat constructor|].
    intros wrapper Hwrapper.
    eapply keeps_bind; [by apply keeps_setProperty|].
    intros _ _. by apply keeps_ret. }
  intros connect Hconnect.
  destruct (truthy_name _); [by apply keeps_setProperty|apply keeps_raise].
Qed.

Lemma keeps_setDefaultValueForTypeDefData (depth : nat) (typeName : string)
    (data : hvalue) :
  owned s0 data ->
  keeps s0 (setDefaultValueForTypeDefData depth typeName data) anything.
Proof.
  revert typeName data.
  induction depth as [|depth IH]; intros typeName data Hdata; simpl.
  - eapply keeps_bind; [apply keeps_isArray|]. intros array _.
    destruct (_ || _); [by apply keeps_ret|].
    destruct (getTypeDefInfo meta typeName);
      [apply keeps_outOfModel|by apply keeps_ret].
  - eapply keeps_bind; [apply keeps_isArray|]. intros array _.
    destruct (_ || _); [by apply keeps_ret|].
    destruct (getTypeDefInfo meta typeName) as [fields|]; [|by apply keeps_ret].
    eapply keeps_bind; [by apply keeps_enumerate|]. intros items Hitems.
    eapply keeps_forEach; [exact Hitems|]. intros item Hitem.
    unfold Store.typeDefItem.
    destruct (_ || _); [by apply keeps_ret|].
    apply (keeps_forEach _ _ _ anything); [by apply Forall_true|].
    intros f _. unfold Store.typeDefField. destruct (isTypeDef f).
    + eapply keeps_bind; [by apply keeps_getProperty|]. intros sub Hsub.
      by apply IH.
    + eapply keeps_bind; [apply keeps_hasProperty|]. intros [|] _;
        [by apply keeps_ret|].
      eapply keeps_bind; [apply keeps_getDefaultValue|]. intros dv Hdv.
      destruct (isUndefined dv); [by apply keeps_ret|by apply keeps_setProperty].
Qed.

Lemma keeps_processCreatePayload (model : string) (data : hvalue) :
  owned s0 data -> keeps s0 (processCreatePayload model data) anything.
Proof.
  intros Hdata. unfold Store.processCreatePayload.
  destruct (getFields meta model) as [fields|]; [|apply keeps_raise].
  apply (keeps_forEach _ _ _ anything); [by apply Forall_true|].
  intros f _. unfold Store.processField. destruct (isTypeDef f).
  - eapply keeps_bind; [by apply keeps_getProperty|]. intros sub Hsub.
    by apply keeps_setDefaultValueForTypeDefData.
  - eapply keeps_bind; [apply keeps_hasProperty|]. intros [|] _;
      [by apply keeps_ret|].
    destruct (defaultValueProvider f); [|by apply keeps_ret].
    eapply keeps_bind; [apply keeps_getDefaultValue|]. intros dv Hdv.
    destruct (isUndefined dv); [by apply keeps_ret|].
    by apply keeps_setDefaultValueForModelData.
Qed.

Lemma keeps_visitor_create (model : string) (data : hvalue) :
  owned s0 data -> keeps s0 (create visitor model data) anything.
Proof. apply keeps_processCreatePayload. Qed.

Lemma keeps_visitor_upsert (model : string) (data : hvalue) :
  owned s0 data -> keeps s0 (upsert visitor model data) anything.
Proof.
  intros Hdata. simpl.
  eapply keeps_bind; [by apply keeps_getProperty|]. intros payload Hpayload.
  by apply keeps_processCreatePayload.
Qed.

Lemma keeps_visitor_createMany (model : string) (args : hvalue) :
  owned s0 args -> keeps s0 (createMany visitor model args) anything.
Proof.
  intros Hargs. simpl.
  eapply keeps_bind; [by apply keeps_getProperty|]. intros batch Hbatch.
  eapply keeps_bind; [by apply keeps_enumerate|]. intros items Hitems.
  eapply keeps_forEach; [exact Hitems|]. intros item Hitem.
  by apply keeps_processCreatePayload.
Qed.

(** The visitor writes nothing itself: it is as careful as its callbacks. *)
Lemma keeps_visitNode (cb : NestedWriteVisitorCallback) (depth : nat)
    (model action : string) (payload : hvalue) :
  (forall m d, owned s0 d -> keeps s0 (create cb m d) anything) ->
  (forall m d, owned s0 d -> keeps s0 (upsert cb m d) anything) ->
  (forall m d, owned s0 d -> keeps s0 (createMany cb m d) anything) ->
  owned s0 payload ->
  keeps s0 (visitNode cb depth model action payload) anything.
Proof.
  intros Hcreate Hupsert HcreateMany. revert model action payload.
  induction depth as [|depth IH]; intros model action payload Hpayload;
    [apply keeps_outOfModel|].
  assert (Hdescend : forall m node, owned s0 node ->
            keeps s0 (Store.descend meta (visitNode cb depth) m node) anything).
  { intros m node Hnode. unfold Store.descend.
    destruct (_ || _); [by apply keeps_ret|].
    destruct (getFields meta m) as [fields|]; [|apply keeps_raise].
    eapply keeps_bind; [apply keeps_keys|]. intros present _.
    eapply (keeps_bind _ _ _ anything).
    { apply (keeps_forEach _ _ _ anything); [by apply Forall_true|].
      intros key _. destruct (isOneOf _ key); [by apply keeps_ret|apply keeps_raise]. }
    intros _ _.
    apply (keeps_forEach _ _ _ anything); [by apply Forall_true|].
    intros f _. destruct (isDataModel f); [|by apply keeps_ret].
    eapply keeps_bind; [by apply keeps_getProperty|]. intros sub Hsub.
    destruct (_ || _); [by apply keeps_ret|].
    apply (keeps_forEach _ _ _ anything); [by apply Forall_true|].
    intros key _.
    eapply keeps_bind; [apply keeps_hasProperty|]. intros [|] _;
      [|by apply keeps_ret].
    eapply keeps_bind; [by apply keeps_getProperty|]. intros nested Hnested.
    by apply IH. }
  simpl.
  destruct (negb (Store.truthy payload)); [by apply keeps_ret|].
  destruct (String.eqb action "create").
  { eapply keeps_bind; [by apply keeps_enumerate|]. intros items Hitems.
    eapply keeps_forEach; [exact Hitems|]. intros item Hitem.
    eapply keeps_bind; [by apply Hcreate|]. intros _ _. by apply Hdescend. }
  destruct (isOneOf _ action).
  { eapply keeps_bind; [by apply HcreateMany|]. intros _ _.
    eapply keeps_bind; [by apply keeps_getProperty|]. intros batch Hbatch.
    eapply keeps_bind; [by apply keeps_enumerate|]. intros items Hitems.
    eapply keeps_forEach; [exact Hitems|]. by auto. }
  destruct (String.eqb action "upsert").
  { eapply keeps_bind; [by apply keeps_enumerate|]. intros items Hitems.
    eapply keeps_forEach; [exact Hitems|]. intros item Hitem.
    eapply keeps_bind; [by apply Hupsert|]. intros _ _.
    eapply keeps_bind; [by apply keeps_getProperty|]. intros onCreate HonCreate.
    eapply keeps_bind; [by apply Hdescend|]. intros _ _.
    eapply keeps_bind; [by apply keeps_getProperty|]. intros onUpdate HonUpdate.
    by apply Hdescend. }
  destruct (String.eqb action "connectOrCreate").
  { eapply keeps_bind; [by apply keeps_enumerate|]. intros items Hitems.
    eapply keeps_forEach; [exact Hitems|]. intros item Hitem.
    eapply keeps_bind; [by apply keeps_getProperty|]. intros onCreate HonCreate.
    by apply IH. }
  destruct (isOneOf _ action); [|by apply keeps_ret].
  eapply keeps_bind; [by apply keeps_enumerate|]. intros items Hitems.
  eapply keeps_forEach; [exact Hitems|]. intros item Hitem.
  eapply keeps_bind; [apply keeps_hasProperty|]. intros [|] _;
    [|by apply Hdescend].
  eapply keeps_bind; [by apply keeps_getProperty|]. intros data Hdata.
  by apply Hdescend.
Qed.

Lemma keeps_preprocessWritePayload (model action : string) (args : hvalue) :
  keeps s0 (preprocessWritePayload model action args) (owned s0).
Proof.
  unfold Store.preprocessWritePayload.
  eapply keeps_bind; [apply keeps_clone|]. intros newArgs HnewArgs.
  eapply (keeps_bind _ _ _ anything); [|intros _ _; by apply keeps_ret].
  assert (Hnode : forall payload, owned s0 payload ->
            keeps s0 (visitNode visitor fuel model action payload) anything).
  { intros payload Hpayload.
    apply keeps_visitNode;
      auto using keeps_visitor_create, keeps_visitor_upsert,
                 keeps_visitor_createMany. }
  unfold Store.visit.
  destruct (negb (Store.truthy newArgs)); [by apply keeps_ret|].
  destruct (String.eqb action "create"); [|by apply Hnode].
  eapply keeps_bind; [by apply keeps_getProperty|]. intros data Hdata.
  by apply Hnode.
Qed.

End StoreFacts.

Lemma framed_refl (s0 : Store.store) : Store.framed s0 s0.
Proof.
  split; [done|]. split; [done|].
  intros l c Hl Hc. apply lookup_lt_Some in Hc. lia.
Qed.

(** C7: whatever the action and the argument, [preprocessArgs] leaves every
    object of the caller's store as it was, whether it returns or throws; for
    an action with a write payload what it returns is a clone made of new
    objects, none of which refers to an object of the caller, and for any
    other action it is the argument itself. *)
Theorem caller_args_unchanged (meta : ModelMeta) (userContext : value)
    (isUnsafeMutate : string -> Store.store -> Store.hvalue -> bool)
    (thisModel : string) (ACTIONS_WITH_WRITE_PAYLOAD : list string) (fuel : nat)
    (action : string) (args : Store.hvalue) (s0 : Store.store) :
  match Store.preprocessArgs meta userContext isUnsafeMutate thisModel
          ACTIONS_WITH_WRITE_PAYLOAD fuel action args s0 with
  | Store.Done newArgs s =>
      (forall l c, s0 !! l = Some c -> s !! l = Some c) /\
      (forall l c, length s0 <= l -> s !! l = Some c -> Store.ownedCell s0 c) /\
      (if Store.truthy args && Store.isOneOf ACTIONS_WITH_WRITE_PAYLOAD action
       then Store.owned s0 newArgs
       else newArgs = args /\ s = s0)
  | Store.Raised _ s => forall l c, s0 !! l = Some c -> s !! l = Some c
  | Store.OutOfModel => True
  end.
Proof.
  unfold Store.preprocessArgs.
  destruct (Store.truthy args && Store.isOneOf _ action).
  2:{ split; [done|]. split; [|done].
      intros l c Hl Hc. apply lookup_lt_Some in Hc. lia. }
  pose proof (keeps_preprocessWritePayload meta userContext isUnsafeMutate fuel
                s0 thisModel action args s0 (framed_refl s0)) as H.
  destruct (Store.preprocessWritePayload _ _ _ _ _ _ _ s0) as [newArgs s|e s|];
    [|by destruct H as (_ & H & _)|done].
  destruct H as [(_ & H & Hnewcells) Hnew]. done.
Qed.

(** ** The example schema, run *)

Lemma default_injected_witness :
  let d' := VObj [("title", VStr "t");
                  ("author", VObj [("connect", VObj [("id", VStr "u1")])])] in
  Payload.processCreatePayload exampleMeta alice neverUnsafe 1 "Post"
    (VObj [("title", VStr "t")]) = Ok d' /\
  (setDirectly d' authorIdField (VStr "u1") \/
   setViaConnect exampleMeta "Post" d' authorIdField (VStr "u1")).
Proof.
  split; [reflexivity|].
  apply (default_injected exampleMeta alice neverUnsafe 1 "Post"
           [scalarField "id"; scalarField "title"; authorField] [metaField]
           authorIdField authId [("title", VStr "t")]); try reflexivity.
  - discriminate.
  - intros _ rel [= <-]. split; [reflexivity|].
    intros g [<-|[<-|[<-|[]]]]; discriminate.
Defined.

(** C1 as stated fails: the caller connects the author, so [authorId], which
    has a default provider, is not in the payload and yields [u1] for the
    identity at hand, is set neither directly nor through a [connect]. *)
Lemma default_injected_counterexample :
  let d := VObj [("title", VStr "t");
                 ("author", VObj [("connect", VObj [("id", VStr "u2")])])] in
  truthy alice = true /\
  In authorIdField postFields /\
  defaultValueProvider authorIdField = Some authId /\
  authId alice = VStr "u1" /\
  ownProperty d (name authorIdField) = None /\
  Payload.processCreatePayload exampleMeta alice neverUnsafe 1 "Post" d = Ok d /\
  ~ (setDirectly d authorIdField (VStr "u1") \/
     setViaConnect exampleMeta "Post" d authorIdField (VStr "u1")).
Proof.
  repeat split; try reflexivity.
  - simpl. tauto.
  - intros [H|(rel & r & opp & Hrel & _ & _ & Hget)]; [discriminate H|].
    injection Hrel as <-. discriminate Hget.
Qed.

Lemma missing_identity_fails_witness :
  Payload.processCreatePayload exampleMeta VUndefined neverUnsafe 1 "Post"
    (VObj [("title", VStr "t")]) =
  Throw (ValidationError
           "Evaluating default value of field `authorId` requires a user context").
Proof.
  pose proof (missing_identity_fails exampleMeta VUndefined neverUnsafe 1 "Post"
                [scalarField "id"; scalarField "title"; authorField] [metaField]
                authorIdField authId [("title", VStr "t")]) as H.
  destruct H as (_ & H & _); [reflexivity..|].
  exact (H (VObj [("title", VStr "t")]) eq_refl).
Defined.

Lemma fk_default_shape_witness :
  Payload.setDefaultValueForModelData exampleMeta alwaysUnsafe authorIdField
    "Post" (VObj [("title", VStr "t")]) (VStr "u1") =
    Ok (VObj [("title", VStr "t"); ("authorId", VStr "u1")]) /\
  Payload.setDefaultValueForModelData exampleMeta neverUnsafe authorIdField
    "Post" (VObj [("title", VStr "t")]) (VStr "u1") =
    Ok (VObj [("title", VStr "t");
              ("author", VObj [("connect", VObj [("id", VStr "u1")])])]).
Proof.
  split.
  - pose proof (fk_default_shape exampleMeta alwaysUnsafe "Post" authorIdField
                  [("title", VStr "t")] (VStr "u1")) as H.
    destruct H as [H _]; [reflexivity..|].
    exact (proj1 (H eq_refl)).
  - pose proof (fk_default_shape exampleMeta neverUnsafe "Post" authorIdField
                  [("title", VStr "t")] (VStr "u1")) as H.
    destruct H as [_ H]; [reflexivity..|].
    destruct (H eq_refl "author" authorField [("id", "authorId")] "id" "authorId")
      as [Hrun _]; [reflexivity..|discriminate|].
    exact Hrun.
Defined.

Lemma relation_targeted_no_injection_witness :
  let d := VObj [("title", VStr "t");
                 ("author", VObj [("connect", VObj [("id", VStr "u2")])])] in
  ownProperty d "author" = Some (VObj [("connect", VObj [("id", VStr "u2")])]) /\
  ownProperty d "authorId" = None.
Proof.
  apply (relation_targeted_no_injection exampleMeta alice neverUnsafe 1 "Post"
           "author" postFields authorIdField
           [("title", VStr "t");
            ("author", VObj [("connect", VObj [("id", VStr "u2")])])]);
    try reflexivity.
  simpl. tauto.
Defined.

Lemma unresolved_relation_fails_witness :
  Payload.processCreatePayload exampleMeta alice neverUnsafe 1 "Orphan" (VObj []) =
    Throw (JsError
      "Field `ownerId` is a foreign key field but no corresponding relation field is found") /\
  Payload.processCreatePayload exampleMeta alice neverUnsafe 1 "Loose" (VObj []) =
    Throw (JsError
      "Cannot find opposite foreign key field for `ownerId` in relation field `owner`").
Proof.
  split.
  - pose proof (unresolved_relation_fails exampleMeta alice neverUnsafe 1 "Orphan"
                  [scalarField "id"] [] orphanIdField authId [] []) as H.
    destruct H as [H _]; [reflexivity|reflexivity|reflexivity|reflexivity|reflexivity|discriminate|
       reflexivity..|].
    exact (H eq_refl).
  - pose proof (unresolved_relation_fails exampleMeta alice neverUnsafe 1 "Loose"
                  [looseOwnerField] [] ownerIdField authId [] []) as H.
    destruct H as [_ H]; [reflexivity|reflexivity|reflexivity|reflexivity|reflexivity|discriminate|
       reflexivity..|].
    apply (H "owner" looseOwnerField); [reflexivity..|].
    simpl. intros k v [[= <- <-]|[]]. discriminate.
Defined.

Lemma present_field_unchanged_witness :
  let d := VObj [("title", VStr "t"); ("authorId", VStr "u2")] in
  ownProperty d "authorId" = Some (VStr "u2") /\
  forall d'',
    Payload.processCreatePayload exampleMeta alice neverUnsafe 1 "Post" d = Ok d'' ->
    ownProperty d'' "authorId" = Some (VStr "u2").
Proof.
  apply (present_field_unchanged exampleMeta alice neverUnsafe 1 "Post"
           postFields authorIdField
           [("title", VStr "t"); ("authorId", VStr "u2")]); try reflexivity.
  simpl. tauto.
Defined.

(** C8 as stated fails for an embedded field: [meta] is in the payload, and
    the processed payload has another value under it, the sub-field [by]
    having received its default. *)
Lemma present_field_unchanged_counterexample :
  let d := VObj [("title", VStr "t"); ("authorId", VStr "u2");
                 ("meta", VObj [("tag", VStr "x")])] in
  let d' := VObj [("title", VStr "t"); ("authorId", VStr "u2");
                  ("meta", VObj [("tag", VStr "x"); ("by", VStr "u1")])] in
  In metaField postFields /\
  ownProperty d (name metaField) = Some (VObj [("tag", VStr "x")]) /\
  Payload.processCreatePayload exampleMeta alice neverUnsafe 1 "Post" d = Ok d' /\
  ownProperty d' (name metaField) <> ownProperty d (name metaField).
Proof.
  repeat split; try reflexivity.
  - simpl. tauto.
  - discriminate.
Qed.

Lemma one_default_per_relation_witness :
  exists r opp,
    requireField exampleMeta "Asset" "owner" = Ok r /\
    truthy_name (Payload.getOppositeFkFieldName r ownerIdField) = Some opp /\
    ownProperty
      (VObj [("owner", VObj [("connect", VObj [("id", VStr "u1")])])]) "owner" =
      Some (VObj [("connect", VObj [(opp, VStr "u1")])]) /\
    ownProperty
      (VObj [("owner", VObj [("connect", VObj [("id", VStr "u1")])])])
      "ownerId" = None /\
    ownProperty
      (VObj [("owner", VObj [("connect", VObj [("id", VStr "u1")])])])
      "ownerTenant" = None.
Proof.
  apply (one_default_per_relation exampleMeta alice neverUnsafe 1 "Asset" "owner"
           [scalarField "id"; ownerField] [] [] ownerIdField ownerTenantField
           authId []); try reflexivity.
  - discriminate.
  - intros g [<-|[<-|[]]]; discriminate.
Defined.

(** C2 fails on the code: without a caller identity, an embedded value that
    leaves out [tag], a sub-field with no default provider, is not skipped
    but raises the error that asks for an identity. *)
Lemma embedded_subfield_without_provider_throws :
  defaultValueProvider tagField = None /\
  Payload.processCreatePayload exampleMeta VUndefined neverUnsafe 1 "Post"
    (VObj [("title", VStr "t"); ("authorId", VStr "u9");
           ("meta", VObj [("by", VStr "x")])]) =
  Throw (ValidationError
           "Evaluating default value of field `tag` requires a user context") /\
  Payload.processCreatePayload exampleMeta alice neverUnsafe 1 "Post"
    (VObj [("title", VStr "t"); ("authorId", VStr "u9");
           ("meta", VObj [("by", VStr "x")])]) =
  Ok (VObj [("title", VStr "t"); ("authorId", VStr "u9");
            ("meta", VObj [("by", VStr "x")])]).
Proof. repeat split. Qed.

Lemma embedded_value_skipped_witness :
  Payload.processField exampleMeta alice neverUnsafe 0 "Post"
    (VObj [("title", VStr "t"); ("meta", VNum 7)]) metaField =
  Ok (VObj [("title", VStr "t"); ("meta", VNum 7)]) /\
  Payload.setDefaultValueForTypeDefData exampleMeta alice 1 "Meta"
    (VArr [VNull; VStr "x"; VNum 0]) = Ok (VArr [VNull; VStr "x"; VNum 0]) /\
  Payload.setDefaultValueForTypeDefData exampleMeta alice 0 "Unknown"
    (VObj [("tag", VStr "x")]) = Ok (VObj [("tag", VStr "x")]).
Proof.
  pose proof (embedded_value_skipped exampleMeta alice neverUnsafe 0 "Post")
    as (_ & Hunknown & _ & Harray & Hfield).
  split; [|split].
  - apply Hfield; [reflexivity|simpl; by left].
  - apply Harray.
    repeat (apply Forall_cons_2; [simpl; first [by left|by right]|]).
    apply Forall_nil_2.
  - by apply Hunknown.
Defined.

(** A run over the store: the caller passes [{data: {title: 't'}}] (cells 0
    and 1); the clone (cells 2 and 3) receives the [connect] of the author
    (cells 4 and 5), and cells 0 and 1 are as they were. *)
Lemma caller_args_unchanged_run :
  let s0 := [Store.CObj [("title", Store.Imm (VStr "t"))];
             Store.CObj [("data", Store.Ref 0)]] in
  Store.preprocessArgs exampleMeta alice (fun _ _ _ => false) "Post"
    ["create"; "createMany"; "upsert"] 3 "create" (Store.Ref 1) s0 =
  Store.Done (Store.Ref 3)
    (s0 ++ [Store.CObj [("title", Store.Imm (VStr "t")); ("author", Store.Ref 5)];
            Store.CObj [("data", Store.Ref 2)];
            Store.CObj [("id", Store.Imm (VStr "u1"))];
            Store.CObj [("connect", Store.Ref 4)]]).
Proof. reflexivity. Qed.

(** ** The store and the tree: one handler *)

Arguments Store.isUndefined : simpl never.
Arguments Store.setProperty : simpl never.

Section Representation.

Local Abbreviation loc := Store.loc.
Local Abbreviation store := Store.store.
Local Abbreviation hvalue := Store.hvalue.
Local Abbreviation Imm := Store.Imm.
Local Abbreviation Ref := Store.Ref.
Local Abbreviation CObj := Store.CObj.
Local Abbreviation CArr := Store.CArr.
Local Abbreviation repr := Store.repr.
Local Abbreviation reprs := Store.reprs.
Local Abbreviation within := Store.within.

Lemma repr_reprs_lt (s : store) :
  (forall v t F, repr s v t F -> forall l, l ∈ F -> l < length s) /\
  (forall xs ts F, reprs s xs ts F -> forall l, l ∈ F -> l < length s).
Proof.
  apply Store.repr_reprs_ind.
  - set_solver.
  - intros l ps ts F Hl _ _ IH _ l' [->%elem_of_singleton|Hin]%elem_of_union.
    + by apply lookup_lt_Some in Hl.
    + by apply IH.
  - intros l xs ts F Hl _ IH _ l' [->%elem_of_singleton|Hin]%elem_of_union.
    + by apply lookup_lt_Some in Hl.
    + by apply IH.
  - set_solver.
  - intros x t F1 xs ts F2 _ IH1 _ IH2 _ l [Hin|Hin]%elem_of_union; auto.
Qed.

Lemma repr_lt (s : store) (v : hvalue) (t : value) (F : gset loc) (l : loc) :
  repr s v t F -> l ∈ F -> l < length s.
Proof. intros H. by apply (proj1 (repr_reprs_lt s) v t F H). Qed.

Lemma reprs_lt (s : store) (xs : list hvalue) (ts : list value) (F : gset loc)
    (l : loc) :
  reprs s xs ts F -> l ∈ F -> l < length s.
Proof. intros H. by apply (proj2 (repr_reprs_lt s) xs ts F H). Qed.

Lemma repr_reprs_frame (s s' : store) :
  (forall v t F, repr s v t F ->
     (forall l, l ∈ F -> s' !! l = s !! l) -> repr s' v t F) /\
  (forall xs ts F, reprs s xs ts F ->
     (forall l, l ∈ F -> s' !! l = s !! l) -> reprs s' xs ts F).
Proof.
  apply Store.repr_reprs_ind.
  - intros x _. constructor.
  - intros l ps ts F Hl Hkeys _ IH Hnotin Hsame.
    apply (Store.repr_obj s' l ps ts F); try done.
    + rewrite Hsame //. set_solver.
    + apply IH. intros l' Hl'. apply Hsame. set_solver.
  - intros l xs ts F Hl _ IH Hnotin Hsame.
    apply (Store.repr_arr s' l xs ts F); try done.
    + rewrite Hsame //. set_solver.
    + apply IH. intros l' Hl'. apply Hsame. set_solver.
  - intros _. constructor.
  - intros x t F1 xs ts F2 _ IH1 _ IH2 Hdisj Hsame.
    apply (Store.reprs_cons s' x t F1 xs ts F2); try done.
    + apply IH1. intros l Hl. apply Hsame. set_solver.
    + apply IH2. intros l Hl. apply Hsame. set_solver.
Qed.

Lemma within_refl (s : store) (F : gset loc) : within s s F F.
Proof. split; [done|]. split; [done|]. intros l Hl. by left. Qed.

Lemma within_trans (s1 s2 s3 : store) (F1 F2 F3 : gset loc) :
  within s1 s2 F1 F2 -> within s2 s3 F2 F3 -> within s1 s3 F1 F3.
Proof.
  intros (Hlen1 & Hsame1 & Hsub1) (Hlen2 & Hsame2 & Hsub2).
  split; [lia|]. split.
  - intros l Hl Hnot. rewrite Hsame2; [lia| |by apply Hsame1].
    intros Hin. destruct (Hsub1 l Hin); [done|lia].
  - intros l Hin. destruct (Hsub2 l Hin) as [Hin2|Hnew]; [|right; lia].
    by apply Hsub1.
Qed.

(** A run within [G] leaves every payload apart from [G] as it was. *)
Lemma repr_apart (s s' : store) (v : hvalue) (t : value) (F G G' : gset loc) :
  repr s v t F -> within s s' G G' -> F ## G -> repr s' v t F.
Proof.
  intros Hrepr (_ & Hsame & _) Hdisj.
  apply (proj1 (repr_reprs_frame s s') v t F Hrepr).
  intros l Hl. apply Hsame; [by eapply repr_lt|]. set_solver.
Qed.

Lemma reprs_apart (s s' : store) (xs : list hvalue) (ts : list value)
    (F G G' : gset loc) :
  reprs s xs ts F -> within s s' G G' -> F ## G -> reprs s' xs ts F.
Proof.
  intros Hrepr (_ & Hsame & _) Hdisj.
  apply (proj2 (repr_reprs_frame s s') xs ts F Hrepr).
  intros l Hl. apply Hsame; [by eapply reprs_lt|]. set_solver.
Qed.

Lemma repr_imm_inv (s : store) (x t : value) (F : gset loc) :
  repr s (Imm x) t F -> t = x /\ F = ∅.
Proof. by inversion 1. Qed.

Lemma repr_obj_inv (s : store) (l : loc) (ps : list (string * hvalue))
    (t : value) (F : gset loc) :
  repr s (Ref l) t F -> s !! l = Some (CObj ps) ->
  exists ts F0, t = VObj ts /\ F = {[l]} ∪ F0 /\ (l ∉ F0) /\
                ps.*1 = ts.*1 /\ reprs s ps.*2 ts.*2 F0.
Proof.
  intros H Hl.
  inversion H as [|l' ps' ts F0 Hl' Hkeys Hreprs Hnotin|l' xs ts F0 Hl' _ _];
    subst; rewrite Hl in Hl'; [|done].
  injection Hl' as <-. by eexists _, _.
Qed.

Lemma repr_arr_inv (s : store) (l : loc) (xs : list hvalue)
    (t : value) (F : gset loc) :
  repr s (Ref l) t F -> s !! l = Some (CArr xs) ->
  exists ts F0, t = VArr ts /\ F = {[l]} ∪ F0 /\ (l ∉ F0) /\ reprs s xs ts F0.
Proof.
  intros H Hl.
  inversion H as [|l' ps' ts F0 Hl' _ _ _|l' xs' ts F0 Hl' Hreprs Hnotin];
    subst; rewrite Hl in Hl'; [done|].
  injection Hl' as <-. by eexists _, _.
Qed.

Lemma repr_ref_cell (s : store) (l : loc) (t : value) (F : gset loc) :
  repr s (Ref l) t F -> exists c, s !! l = Some c.
Proof. inversion 1; eauto. Qed.

Lemma repr_truthy (s : store) (v : hvalue) (t : value) (F : gset loc) :
  repr s v t F ->
  Store.truthy v = truthy t /\ Store.typeof_object v = typeof_object t.
Proof. by inversion 1. Qed.

Lemma reprs_nil_inv (s : store) (ts : list value) (F : gset loc) :
  reprs s [] ts F -> ts = [] /\ F = ∅.
Proof. by inversion 1. Qed.

Lemma reprs_cons_inv (s : store) (x : hvalue) (xs : list hvalue) (t : value)
    (ts : list value) (F : gset loc) :
  reprs s (x :: xs) (t :: ts) F ->
  exists F1 F2, F = F1 ∪ F2 /\ repr s x t F1 /\ reprs s xs ts F2 /\ F1 ## F2.
Proof.
  intros H. inversion H as [|x' t' F1 xs' ts' F2 Hx Hxs Hdisj]; subst.
  by exists F1, F2.
Qed.

Lemma reprs_imm (s : store) (ts : list value) : reprs s (Imm <$> ts) ts ∅.
Proof.
  induction ts as [|t ts IH]; simpl; [constructor|].
  replace (∅ : gset loc) with ((∅ : gset loc) ∪ ∅) by set_solver.
  apply Store.reprs_cons; [constructor|done|set_solver].
Qed.

(** Keys of an object and of the tree it stands for. *)
Lemma aligned_mem {A B : Type} (ps : list (string * A)) (ts : list (string * B))
    (k : string) :
  ps.*1 = ts.*1 -> assoc_mem k ps = assoc_mem k ts.
Proof.
  revert ts. induction ps as [|[k1 x] ps IH]; intros [|[k2 t] ts]; try done.
  simpl. intros [= -> Hrest]. unfold assoc_mem in *. simpl.
  destruct (String.eqb k k2); [done|]. by apply IH.
Qed.

Lemma aligned_set {A B : Type} (ps : list (string * A)) (ts : list (string * B))
    (k : string) (x : A) (t : B) :
  ps.*1 = ts.*1 -> (assoc_set k x ps).*1 = (assoc_set k t ts).*1.
Proof.
  revert ts. induction ps as [|[k1 y] ps IH]; intros [|[k2 u] ts]; try done.
  simpl. intros [= -> Hrest].
  destruct (String.eqb k k2); simpl; [by rewrite Hrest|]. f_equal. by apply IH.
Qed.

(** Adding a property that was not there. *)
Lemma props_append (s : store) (ps : list (string * hvalue))
    (ts : list (string * value)) (F Fx : gset loc) (k : string)
    (x : hvalue) (t : value) :
  ps.*1 = ts.*1 ->
  reprs s ps.*2 ts.*2 F ->
  assoc_mem k ps = false ->
  repr s x t Fx ->
  Fx ## F ->
  reprs s (assoc_set k x ps).*2 (assoc_set k t ts).*2 (F ∪ Fx).
Proof.
  revert ts F. induction ps as [|[k1 y] ps IH]; intros [|[k2 u] ts] F; try done.
  - simpl. intros _ Hnil _ Hx _. apply reprs_nil_inv in Hnil as [_ ->].
    replace (∅ ∪ Fx) with (Fx ∪ ∅) by set_solver.
    apply Store.reprs_cons; [done|constructor|set_solver].
  - simpl. intros [= -> Hkeys] Hcons Habs Hx Hdisj.
    unfold assoc_mem in Habs. simpl in Habs.
    destruct (String.eqb k k2); [done|]. simpl.
    apply reprs_cons_inv in Hcons as (F1 & F2 & -> & Hy & Hrest & Hdisj12).
    replace (F1 ∪ F2 ∪ Fx) with (F1 ∪ (F2 ∪ Fx)) by set_solver.
    apply Store.reprs_cons; [done| |set_solver].
    apply IH; [done|done|done|done|set_solver].
Qed.

(** The value under a key, and what becomes of the object when a run changes
    that value in place. *)
Lemma props_child (s : store) (ps : list (string * hvalue))
    (ts : list (string * value)) (F : gset loc) (k : string) (x : hvalue) :
  ps.*1 = ts.*1 ->
  reprs s ps.*2 ts.*2 F ->
  assoc_get k ps = Some x ->
  exists t Fx,
    assoc_get k ts = Some t /\ repr s x t Fx /\ Fx ⊆ F /\
    forall s' t' Fx',
      within s s' Fx Fx' -> repr s' x t' Fx' ->
      exists F', reprs s' ps.*2 (assoc_set k t' ts).*2 F' /\
                 (forall l, l ∈ F' -> l ∈ F \/ length s <= l).
Proof.
  revert ts F. induction ps as [|[k1 y] ps IH]; intros [|[k2 u] ts] F; try done.
  simpl. intros [= -> Hkeys] Hcons.
  apply reprs_cons_inv in Hcons as (F1 & F2 & -> & Hy & Hrest & Hdisj12).
  destruct (String.eqb k k2) eqn:Hk.
  - intros [= ->]. exists u, F1. split; [done|]. split; [done|].
    split; [set_solver|].
    intros s' t' Fx' Hwithin Hx'. exists (Fx' ∪ F2). split.
    + simpl. apply Store.reprs_cons; [done|by eapply reprs_apart|].
      intros l Hl1 Hl2. destruct Hwithin as (_ & _ & Hsub).
      destruct (Hsub l Hl1) as [Hold|Hnew]; [set_solver|].
      eapply reprs_lt in Hl2; [|done]. lia.
    + intros l [Hl|Hl]%elem_of_union; [|left; set_solver].
      destruct Hwithin as (_ & _ & Hsub).
      destruct (Hsub l Hl); [left; set_solver|by right].
  - intros Hget.
    destruct (IH ts F2 Hkeys Hrest Hget) as (t & Fx & Ht & Hx & Hsub & Hupd).
    exists t, Fx. split; [done|]. split; [done|]. split; [set_solver|].
    intros s' t' Fx' Hwithin Hx'.
    destruct (Hupd s' t' Fx' Hwithin Hx') as (F' & Hrest' & HF').
    exists (F1 ∪ F'). split.
    + simpl. apply Store.reprs_cons; [|done|].
      * eapply repr_apart; [done|done|set_solver].
      * intros l Hl1 Hl2. destruct (HF' l Hl2) as [Hold|Hnew]; [set_solver|].
        eapply repr_lt in Hl1; [|done]. lia.
    + intros l [Hl|Hl]%elem_of_union; [left; set_solver|].
      destruct (HF' l Hl); [left; set_solver|by right].
Qed.

Lemma aligned_get_none {A B : Type} (ps : list (string * A))
    (ts : list (string * B)) (k : string) :
  ps.*1 = ts.*1 -> assoc_get k ps = None -> assoc_get k ts = None.
Proof.
  intros Hkeys Hget. pose proof (aligned_mem ps ts k Hkeys) as Hmem.
  unfold assoc_mem in Hmem. rewrite Hget in Hmem.
  by destruct (assoc_get k ts).
Qed.

Lemma assoc_set_keys {A : Type} (ps : list (string * A)) (k : string) (x : A) :
  assoc_mem k ps = true -> (assoc_set k x ps).*1 = ps.*1.
Proof.
  unfold assoc_mem. induction ps as [|[k1 y] ps IH]; simpl; [done|].
  destruct (String.eqb_spec k k1) as [->|Hne]; [done|].
  intros H. rewrite !fmap_cons. f_equal. by apply IH.
Qed.

Local Abbreviation simulates := Store.simulates.

Local Ltac run :=
  repeat (progress (unfold mbind, Store.M_bind, Store.bind, mret, Store.M_ret,
                    Store.ret, Store.raise, Store.outOfModel, Store.read;
                    simpl)).

(** The branch of a loop that goes into the value under a key. *)
Lemma sim_child (k : string) (runS : hvalue -> Store.M unit)
    (fT : value -> result value) :
  simulates runS fT ->
  simulates (fun data => sub ← Store.getProperty data k; runS sub)
            (fun t => sub ← getProperty t k; sub' ← fT sub; Ok (putBack t k sub')).
Proof.
  intros Hsim s v t F Hrepr. destruct v as [x|l].
  - apply repr_imm_inv in Hrepr as [-> ->]. by destruct x.
  - destruct (repr_ref_cell _ _ _ _ Hrepr) as [[ps|xs] Hl].
    2:{ run. by rewrite Hl. }
    destruct (repr_obj_inv _ _ _ _ _ Hrepr Hl)
      as (ts & F0 & -> & -> & Hnotin & Hkeys & Hprops).
    run. rewrite Hl /=.
    destruct (assoc_get k ps) as [x|] eqn:Hget; simpl.
    + destruct (props_child _ _ _ _ _ _ Hkeys Hprops Hget)
        as (tx & Fx & Htx & Hx & Hsub & Hupd).
      specialize (Hsim s x tx Fx Hx). rewrite Htx /=.
      destruct (runS x s) as [[] s'|e s'|]; [|by rewrite Hsim|done].
      destruct Hsim as (t' & Fx' & -> & Hx' & Hwithin). simpl.
      destruct (Hupd s' t' Fx' Hwithin Hx') as (F' & Hprops' & HF').
      assert (Hmem : assoc_mem k ts = true) by by rewrite /assoc_mem Htx.
      rewrite Hmem. exists (VObj (assoc_set k t' ts)), ({[l]} ∪ F').
      split; [done|].
      pose proof (lookup_lt_Some _ _ _ Hl) as Hlt.
      destruct Hwithin as (Hlen & Hsame & Hnew). split; [|split; [done|split]].
      * apply (Store.repr_obj s' l ps); [|by rewrite assoc_set_keys|done|].
        -- rewrite Hsame //. set_solver.
        -- intros Hin. destruct (HF' l Hin); [done|lia].
      * intros l' Hl' Hnot. apply Hsame; [done|]. set_solver.
      * intros l' [->%elem_of_singleton|Hin]%elem_of_union; [left; set_solver|].
        destruct (HF' l' Hin); [left; set_solver|by right].
    + specialize (Hsim s (Imm VUndefined) VUndefined ∅ (Store.repr_imm _ _)).
      rewrite (aligned_get_none _ _ _ Hkeys Hget) /=.
      destruct (runS (Imm VUndefined) s) as [[] s'|e s'|]; [|by rewrite Hsim|done].
      destruct Hsim as (t' & F' & -> & [-> ->]%repr_imm_inv & Hwithin). simpl.
      assert (Hmem : assoc_mem k ts = false).
      { by rewrite -(aligned_mem _ _ _ Hkeys) /assoc_mem Hget. }
      rewrite Hmem. exists (VObj ts), ({[l]} ∪ F0). split; [done|]. split.
      * eapply repr_apart; [done|done|set_solver].
      * destruct Hwithin as (Hlen & Hsame & _). split; [done|]. split.
        -- intros l' Hl' _. apply Hsame; [done|set_solver].
        -- intros l' Hin. by left.
Qed.

(** A loop over the fields, every pass on the same payload. *)
Lemma sim_fields (fields : list FieldInfo)
    (bodyS : hvalue -> FieldInfo -> Store.M unit)
    (bodyT : value -> FieldInfo -> result value) :
  (forall f, In f fields -> simulates (fun d => bodyS d f) (fun t => bodyT t f)) ->
  simulates (fun d => Store.forEach fields (bodyS d)) (foldM bodyT fields).
Proof.
  induction fields as [|f fields IH]; intros Hbody s v t F Hrepr; simpl.
  - exists t, F. split; [done|]. split; [done|apply within_refl].
  - run. pose proof (Hbody f (or_introl eq_refl) s v t F Hrepr) as Hf.
    destruct (bodyS v f s) as [[] s1|e s1|]; [|by rewrite Hf|done].
    destruct Hf as (t1 & F1 & -> & Hrepr1 & Hwithin1). simpl.
    assert (Hrest : forall g, In g fields ->
              simulates (fun d => bodyS d g) (fun t => bodyT t g)).
    { intros g Hg. apply Hbody. by right. }
    specialize (IH Hrest s1 v t1 F1 Hrepr1). simpl in IH.
    destruct (Store.forEach fields (bodyS v) s1) as [[] s2|e s2|]; [|done|done].
    destruct IH as (t2 & F2 & Hfold & Hrepr2 & Hwithin2).
    exists t2, F2. split; [done|]. split; [done|]. by eapply within_trans.
Qed.

(** A loop over the items of an array, every pass on its own item. *)
Lemma sim_items (itemS : hvalue -> Store.M unit) (itemT : value -> result value) :
  simulates itemS itemT ->
  forall xs s ts F, reprs s xs ts F ->
    match Store.forEach xs itemS s with
    | Store.Done _ s' =>
        exists ts' F', forEachM itemT ts = Ok ts' /\ reprs s' xs ts' F' /\
                       within s s' F F'
    | Store.Raised e _ => forEachM itemT ts = Throw e
    | Store.OutOfModel => True
    end.
Proof.
  intros Hsim. induction xs as [|x xs IH]; intros s ts F Hreprs.
  - apply reprs_nil_inv in Hreprs as [-> ->]. simpl.
    exists [], ∅. split; [done|]. split; [constructor|apply within_refl].
  - destruct ts as [|t ts]; [by inversion Hreprs|].
    apply reprs_cons_inv in Hreprs as (F1 & F2 & -> & Hx & Hxs & Hdisj).
    simpl. run. pose proof (Hsim s x t F1 Hx) as Hhead.
    destruct (itemS x s) as [[] s1|e s1|]; [|by rewrite Hhead|done].
    destruct Hhead as (t1 & F1' & -> & Hx1 & Hwithin1). simpl.
    assert (Hxs1 : reprs s1 xs ts F2).
    { eapply reprs_apart; [done|done|set_solver]. }
    specialize (IH s1 ts F2 Hxs1).
    destruct (Store.forEach xs itemS s1) as [[] s2|e s2|]; [|by rewrite IH|done].
    destruct IH as (ts2 & F2' & -> & Hxs2 & Hwithin2). simpl.
    exists (t1 :: ts2), (F1' ∪ F2'). split; [done|].
    destruct Hwithin1 as (Hlen1 & Hsame1 & Hnew1).
    pose proof Hwithin2 as (Hlen2 & Hsame2 & Hnew2).
    assert (Hapart : F1' ## F2).
    { intros l Hl1 Hl2. destruct (Hnew1 l Hl1) as [Hold|Hnew]; [set_solver|].
      eapply reprs_lt in Hl2; [|exact Hxs]. lia. }
    split; [|split; [lia|split]].
    + apply Store.reprs_cons; [by eapply repr_apart|done|].
      intros l Hl1 Hl2. destruct (Hnew2 l Hl2) as [Hold|Hnew]; [set_solver|].
      eapply repr_lt in Hl1; [|exact Hx1]. lia.
    + intros l Hl Hnot. rewrite Hsame2; [lia|set_solver|].
      apply Hsame1; [done|set_solver].
    + intros l [Hl|Hl]%elem_of_union.
      * destruct (Hnew1 l Hl); [left; set_solver|by right].
      * destruct (Hnew2 l Hl); [left; set_solver|right; lia].
Qed.

Local Abbreviation agrees := Store.agrees.

(** Writing a property that the object did not have. *)
Lemma set_absent (s : store) (l : loc) (ps : list (string * hvalue))
    (ts : list (string * value)) (F Fx : gset loc) (k : string)
    (x : hvalue) (tx : value) :
  s !! l = Some (CObj ps) ->
  repr s (Ref l) (VObj ts) F ->
  assoc_mem k ts = false ->
  repr s x tx Fx ->
  Fx ## F ->
  exists s',
    Store.setProperty (Ref l) k x s = Store.Done tt s' /\
    s' !! l = Some (CObj (assoc_set k x ps)) /\
    repr s' (Ref l) (VObj (assoc_set k tx ts)) (F ∪ Fx) /\
    length s' = length s /\
    (forall l', l' <> l -> s' !! l' = s !! l').
Proof.
  intros Hl Hrepr Habs Hx Hdisj.
  destruct (repr_obj_inv _ _ _ _ _ Hrepr Hl)
    as (ts0 & F0 & [= <-] & -> & Hnotin & Hkeys & Hprops).
  pose proof (lookup_lt_Some _ _ _ Hl) as Hlt.
  exists (<[l := CObj (assoc_set k x ps)]> s).
  assert (Hnew : (<[l := CObj (assoc_set k x ps)]> s) !! l =
                 Some (CObj (assoc_set k x ps))).
  { by rewrite list_lookup_insert_eq. }
  split; [|split; [done|split; [|split]]].
  - rewrite /Store.setProperty. run. by rewrite Hl.
  - replace ({[l]} ∪ F0 ∪ Fx) with ({[l]} ∪ (F0 ∪ Fx)) by set_solver.
    apply (Store.repr_obj _ l (assoc_set k x ps)); [done|by apply aligned_set| |].
    + apply (proj2 (repr_reprs_frame s _) _ _ (F0 ∪ Fx)).
      * apply props_append; [done|done| |done|set_solver].
        by rewrite (aligned_mem _ _ _ Hkeys).
      * intros l' Hl'. rewrite list_lookup_insert_ne //. set_solver.
    + set_solver.
  - by rewrite length_insert.
  - intros l' Hne. by rewrite list_lookup_insert_ne.
Qed.

(** The branch of a loop that acts when the payload lacks a key. *)
Lemma sim_absent (k : string) (contS : hvalue -> Store.M unit)
    (contT : value -> result value) :
  (forall s l ps ts F,
     s !! l = Some (CObj ps) -> repr s (Ref l) (VObj ts) F ->
     assoc_mem k ts = false ->
     agrees s (Ref l) F (contS (Ref l) s) (contT (VObj ts))) ->
  simulates
    (fun item => present ← Store.hasProperty k item;
                 if present : bool then mret tt else contS item)
    (fun t => present ← hasProperty k t;
              if present : bool then Ok t else contT t).
Proof.
  intros Hcont s v t F Hrepr. destruct v as [x|l].
  - apply repr_imm_inv in Hrepr as [-> ->]. by destruct x.
  - destruct (repr_ref_cell _ _ _ _ Hrepr) as [[ps|xs] Hl].
    2:{ rewrite /Store.hasProperty. run. by rewrite Hl. }
    destruct (repr_obj_inv _ _ _ _ _ Hrepr Hl)
      as (ts & F0 & -> & -> & Hnotin & Hkeys & Hprops).
    rewrite /Store.hasProperty. run. rewrite Hl /=.
    rewrite (aligned_mem _ _ _ Hkeys).
    destruct (assoc_mem k ts) eqn:Hmem.
    + simpl. exists (VObj ts), ({[l]} ∪ F0). split; [done|].
      split; [done|apply within_refl].
    + by apply (Hcont s l ps).
Qed.

Lemma getDefaultValue_run (userContext : value) (f : FieldInfo) (s : store) :
  Store.getDefaultValue userContext f s =
  match Payload.getDefaultValue userContext f with
  | Ok v => Store.Done (Imm v) s
  | Throw e => Store.Raised e s
  | Unmodelled => Store.OutOfModel
  end.
Proof.
  rewrite /Store.getDefaultValue. run.
  by destruct (Payload.getDefaultValue userContext f).
Qed.

Lemma match_undefined {A : Type} (v : value) (a b : A) :
  match v with VUndefined => a | _ => b end =
  if Store.isUndefined (Imm v) then a else b.
Proof. rewrite /Store.isUndefined. by destruct v. Qed.

Lemma agrees_then_ret (s : store) (v : hvalue) (F : gset loc)
    (m : Store.M unit) (r : result value) :
  agrees s v F (m s) r ->
  agrees s v F ((m ≫= fun _ => Store.ret tt) s) r.
Proof.
  rewrite /mbind /Store.M_bind /Store.bind. by destruct (m s) as [[] s'|e s'|].
Qed.

Lemma reprs_imm_inv (s : store) (xs ts : list value) (F : gset loc) :
  reprs s (Imm <$> xs) ts F -> ts = xs /\ F = ∅.
Proof.
  revert ts F. induction xs as [|x xs IH]; intros ts F; simpl.
  - apply reprs_nil_inv.
  - destruct ts as [|t ts]; [by inversion 1|].
    intros (F1 & F2 & -> & [-> ->]%repr_imm_inv & [-> ->]%IH & _)%reprs_cons_inv.
    split; [done|set_solver].
Qed.

(** *** The clone is an unshared payload *)

(** A store that keeps its cells shows every tree it showed. *)
Lemma readBack_frame (depth : nat) (s s' : store) (v : hvalue) (t : value) :
  (forall l c, s !! l = Some c -> s' !! l = Some c) ->
  Store.readBack depth s v = Some t -> Store.readBack depth s' v = Some t.
Proof.
  intros Hkeep. revert v t.
  induction depth as [|depth IH]; intros [x|l] t; simpl; try done.
  destruct (s !! l) as [c|] eqn:Hl; [|done]. rewrite (Hkeep _ _ Hl).
  destruct c as [ps|items].
  - destruct (mapM _ ps) as [ts|] eqn:Hps; [|done]. intros [= <-].
    assert (mapM (fun p => x ← Store.readBack depth s' p.2; Some (p.1, x)) ps
            = Some ts) as ->; [|done].
    apply mapM_Some. apply mapM_Some in Hps.
    eapply Forall2_impl; [exact Hps|]. intros [k x] y. simpl.
    destruct (Store.readBack depth s x) as [tx|] eqn:Hx; [|done].
    by rewrite (IH _ _ Hx).
  - destruct (mapM _ items) as [ts|] eqn:Hps; [|done]. intros [= <-].
    assert (mapM (Store.readBack depth s') items = Some ts) as ->; [|done].
    apply mapM_Some. apply mapM_Some in Hps.
    eapply Forall2_impl; [exact Hps|]. intros x y. apply IH.
Qed.

Lemma readBack_extend (depth : nat) (s ext : store) (v : hvalue) (t : value) :
  Store.readBack depth s v = Some t -> Store.readBack depth (s ++ ext) v = Some t.
Proof. apply readBack_frame. intros l c. apply lookup_app_l_Some. Qed.

Lemma repr_extend (s ext : store) (v : hvalue) (t : value) (F : gset loc) :
  repr s v t F -> repr (s ++ ext) v t F.
Proof.
  intros H. apply (proj1 (repr_reprs_frame s (s ++ ext)) v t F H).
  intros l Hl. apply lookup_app_l. by apply (repr_lt s v t F).
Qed.

Lemma reprs_extend (s ext : store) (xs : list hvalue) (ts : list value)
    (F : gset loc) :
  reprs s xs ts F -> reprs (s ++ ext) xs ts F.
Proof.
  intros H. apply (proj2 (repr_reprs_frame s (s ++ ext)) xs ts F H).
  intros l Hl. apply lookup_app_l. by apply (reprs_lt s xs ts F).
Qed.

Lemma clone_items (depth : nat) :
  (forall s v t, Store.readBack depth s v = Some t ->
     exists v' s',
       Store.clone depth v s = Store.Done v' s' /\ Store.cloned s t v' s') ->
  forall items s ts, mapM (Store.readBack depth s) items = Some ts ->
    exists items' s',
      Store.mapEach (Store.clone depth) items s = Store.Done items' s'
      /\ Store.clonedAll s ts items' s'.
Proof.
  intros IH. induction items as [|x items IHitems]; intros s ts.
  - intros [= <-]. exists [], s. split; [done|]. exists [], ∅.
    rewrite app_nil_r. split; [done|]. split; [constructor|set_solver].
  - rewrite /=. destruct (Store.readBack depth s x) as [t|] eqn:Hx; [|done].
    destruct (mapM _ items) as [ts'|] eqn:Hitems; [|done]. intros [= <-].
    destruct (IH s x t Hx) as (x' & s1 & Hrun1 & ext1 & F1 & -> & Hrepr1 & Hnew1).
    assert (Hitems1 : mapM (Store.readBack depth (s ++ ext1)) items = Some ts').
    { apply mapM_Some. apply mapM_Some in Hitems.
      eapply Forall2_impl; [exact Hitems|]. intros y ty. apply readBack_extend. }
    destruct (IHitems _ _ Hitems1)
      as (items' & s2 & Hrun2 & ext2 & F2 & -> & Hreprs2 & Hnew2).
    exists (x' :: items'), ((s ++ ext1) ++ ext2). split.
    { run. rewrite Hrun1. run. by rewrite Hrun2. }
    exists (ext1 ++ ext2), (F1 ∪ F2). split; [by rewrite app_assoc|]. split.
    + constructor; [by apply repr_extend|done|].
      intros l Hl1 Hl2. apply (repr_lt _ _ _ _ l Hrepr1) in Hl1.
      apply Hnew2 in Hl2. lia.
    + intros l [Hl|Hl]%elem_of_union; [by apply Hnew1|].
      apply Hnew2 in Hl. rewrite length_app in Hl. lia.
Qed.

Lemma clone_props (depth : nat) :
  (forall s v t, Store.readBack depth s v = Some t ->
     exists v' s',
       Store.clone depth v s = Store.Done v' s' /\ Store.cloned s t v' s') ->
  forall (ps : list (string * hvalue)) s ts,
    mapM (fun p => x ← Store.readBack depth s p.2; Some (p.1, x)) ps = Some ts ->
    exists ps' s',
      Store.mapEach (fun p => x ← Store.clone depth p.2; Store.ret (p.1, x)) ps s
        = Store.Done ps' s'
      /\ ps'.*1 = ts.*1 /\ Store.clonedAll s ts.*2 ps'.*2 s'.
Proof.
  intros IH. induction ps as [|[k x] ps IHps]; intros s ts.
  - intros [= <-]. exists [], s. split; [done|]. split; [done|]. exists [], ∅.
    rewrite app_nil_r. split; [done|]. split; [constructor|set_solver].
  - rewrite /=. destruct (Store.readBack depth s x) as [t|] eqn:Hx; [|done].
    rewrite /=. destruct (mapM _ ps) as [ts'|] eqn:Hps; [|done]. intros [= <-].
    destruct (IH s x t Hx) as (x' & s1 & Hrun1 & ext1 & F1 & -> & Hrepr1 & Hnew1).
    assert (Hps1 : mapM (fun p => y ← Store.readBack depth (s ++ ext1) p.2;
                                  Some (p.1, y)) ps = Some ts').
    { apply mapM_Some. apply mapM_Some in Hps.
      eapply Forall2_impl; [exact Hps|]. intros [k1 y] ty. simpl.
      destruct (Store.readBack depth s y) as [t1|] eqn:Hy; [|done].
      by rewrite (readBack_extend _ _ ext1 _ _ Hy). }
    destruct (IHps _ _ Hps1)
      as (ps' & s2 & Hrun2 & Hkeys & ext2 & F2 & -> & Hreprs2 & Hnew2).
    exists ((k, x') :: ps'), ((s ++ ext1) ++ ext2). split.
    { run. rewrite Hrun1. run. by rewrite Hrun2. }
    split; [by rewrite !fmap_cons Hkeys|].
    exists (ext1 ++ ext2), (F1 ∪ F2). split; [by rewrite app_assoc|]. split.
    + rewrite !fmap_cons. constructor; [by apply repr_extend|done|].
      intros l Hl1 Hl2. apply (repr_lt _ _ _ _ l Hrepr1) in Hl1.
      apply Hnew2 in Hl2. lia.
    + intros l [Hl|Hl]%elem_of_union; [by apply Hnew1|].
      apply Hnew2 in Hl. rewrite length_app in Hl. lia.
Qed.

(** [clone] returns, and returns an unshared copy: when the argument stands
    for the tree [t] to the depth [depth], the clone is made of new cells,
    each reached once, stands for the same tree, and the store it is taken
    in is only extended. *)
Theorem clone_unshared (depth : nat) (s : store) (v : hvalue) (t : value) :
  Store.readBack depth s v = Some t ->
  exists v' s',
    Store.clone depth v s = Store.Done v' s' /\ Store.cloned s t v' s'.
Proof.
  revert s v t. induction depth as [|depth IH]; intros s [x|l] t; simpl; try done.
  - intros [= <-]. exists (Imm x), s. split; [done|]. exists [], ∅.
    rewrite app_nil_r. split; [done|]. split; [constructor|set_solver].
  - intros [= <-]. exists (Imm x), s. split; [done|]. exists [], ∅.
    rewrite app_nil_r. split; [done|]. split; [constructor|set_solver].
  - destruct (s !! l) as [[ps|items]|] eqn:Hl; [| |done].
    + destruct (mapM _ ps) as [ts|] eqn:Hps; [|done]. intros [= <-].
      destruct (clone_props depth IH ps s ts Hps)
        as (ps' & s1 & Hrun & Hkeys & ext & F & -> & Hreprs & Hnew).
      exists (Ref (length (s ++ ext))), ((s ++ ext) ++ [CObj ps']). split.
      { run. rewrite Hl /=. by rewrite Hrun. }
      exists (ext ++ [CObj ps']), ({[length (s ++ ext)]} ∪ F).
      split; [by rewrite app_assoc|].
      assert (Hfresh : length (s ++ ext) ∉ F).
      { intros Hin. apply (reprs_lt _ _ _ _ _ Hreprs) in Hin. lia. }
      split.
      * apply (Store.repr_obj _ _ ps' ts F); try done.
        -- by rewrite lookup_app_r // Nat.sub_diag.
        -- by apply reprs_extend.
      * intros l' [->%elem_of_singleton|Hin]%elem_of_union; [|by apply Hnew].
        rewrite length_app. lia.
    + destruct (mapM _ items) as [ts|] eqn:Hitems; [|done]. intros [= <-].
      destruct (clone_items depth IH items s ts Hitems)
        as (items' & s1 & Hrun & ext & F & -> & Hreprs & Hnew).
      exists (Ref (length (s ++ ext))), ((s ++ ext) ++ [CArr items']). split.
      { run. rewrite Hl /=. by rewrite Hrun. }
      exists (ext ++ [CArr items']), ({[length (s ++ ext)]} ∪ F).
      split; [by rewrite app_assoc|].
      assert (Hfresh : length (s ++ ext) ∉ F).
      { intros Hin. apply (reprs_lt _ _ _ _ _ Hreprs) in Hin. lia. }
      split.
      * apply (Store.repr_arr _ _ items' ts F); try done.
        -- by rewrite lookup_app_r // Nat.sub_diag.
        -- by apply reprs_extend.
      * intros l' [->%elem_of_singleton|Hin]%elem_of_union; [|by apply Hnew].
        rewrite length_app. lia.
Qed.

Section Simulation.

Variable meta : ModelMeta.
Variable userContext : value.

Lemma sim_scalar_default (f : FieldInfo) (s : store) (l : loc)
    (ps : list (string * hvalue)) (ts : list (string * value)) (F : gset loc) :
  s !! l = Some (CObj ps) ->
  repr s (Ref l) (VObj ts) F ->
  assoc_mem (name f) ts = false ->
  agrees s (Ref l) F
    ((defaultValue ← Store.getDefaultValue userContext f;
      if Store.isUndefined defaultValue then mret tt
      else Store.setProperty (Ref l) (name f) defaultValue) s)
    (defaultValue ← Payload.getDefaultValue userContext f;
     match defaultValue with
     | VUndefined => Ok (VObj ts)
     | _ => setProperty (VObj ts) (name f) defaultValue
     end).
Proof.
  intros Hl Hrepr Habs.
  rewrite {1}/mbind /Store.M_bind /Store.bind getDefaultValue_run.
  destruct (Payload.getDefaultValue userContext f) as [v| |]; [|done|done].
  rewrite /= (match_undefined v). destruct (Store.isUndefined (Imm v)).
  - exists (VObj ts), F. split; [done|]. split; [done|apply within_refl].
  - destruct (set_absent s l ps ts F ∅ (name f) (Imm v) v Hl Hrepr Habs)
      as (s' & -> & _ & Hrepr' & Hlen & Hsame); [constructor|set_solver|].
    exists (VObj (assoc_set (name f) v ts)), (F ∪ ∅). split; [done|].
    split; [done|]. split; [lia|]. split.
    + intros l' Hl' Hnot. apply Hsame. intros ->.
      apply Hnot. inversion Hrepr; set_solver.
    + intros l' Hin. left. set_solver.
Qed.

Lemma sim_typeDefField (recS : string -> hvalue -> Store.M unit)
    (recT : string -> value -> result value) (f : FieldInfo) :
  (forall type, simulates (recS type) (recT type)) ->
  simulates (fun item => Store.typeDefField userContext recS item f)
            (fun t => Payload.typeDefField userContext recT t f).
Proof.
  intros Hrec. unfold Store.typeDefField, Payload.typeDefField.
  destruct (isTypeDef f).
  - apply (sim_child (name f) (recS (type f)) (recT (type f))), Hrec.
  - apply (sim_absent (name f)). intros s l ps ts F Hl Hrepr Habs.
    by apply (sim_scalar_default f s l ps).
Qed.

Lemma sim_typeDefItem (recS : string -> hvalue -> Store.M unit)
    (recT : string -> value -> result value) (fields : list FieldInfo) :
  (forall type, simulates (recS type) (recT type)) ->
  simulates (Store.typeDefItem userContext recS fields)
            (Payload.typeDefItem userContext recT fields).
Proof.
  intros Hrec s v t F Hrepr. unfold Store.typeDefItem, Payload.typeDefItem.
  destruct (repr_truthy _ _ _ _ Hrepr) as [-> ->].
  destruct (_ || _).
  - exists t, F. split; [done|]. split; [done|apply within_refl].
  - apply (sim_fields fields (Store.typeDefField userContext recS)
             (Payload.typeDefField userContext recT)); [|done].
    intros f _. by apply sim_typeDefField.
Qed.

(** The embedded values: the store function does what the tree function
    computes, at every depth. *)
Lemma sim_typeDef (depth : nat) (type : string) :
  simulates (Store.setDefaultValueForTypeDefData meta userContext depth type)
            (Payload.setDefaultValueForTypeDefData meta userContext depth type).
Proof.
  revert type. induction depth as [|depth IH]; intros type s v t F Hrepr.
  - destruct v as [x|l].
    + apply repr_imm_inv in Hrepr as [-> ->]. simpl. run.
      destruct (_ || _); simpl.
      { exists x, ∅. split; [done|]. split; [constructor|apply within_refl]. }
      destruct (getTypeDefInfo meta type); simpl; [done|].
      exists x, ∅. split; [done|]. split; [constructor|apply within_refl].
    + destruct (repr_ref_cell _ _ _ _ Hrepr) as [c Hl]. simpl. run.
      rewrite Hl /=.
      assert (Hcond : negb (truthy t) ||
                negb (typeof_object t) && negb (isArray t) = false).
      { by inversion Hrepr. }
      rewrite Hcond. destruct (getTypeDefInfo meta type); simpl; [done|].
      exists t, F. split; [done|]. split; [done|apply within_refl].
  - destruct v as [x|l].
    + apply repr_imm_inv in Hrepr as [-> ->]. simpl. run.
      destruct (_ || _) eqn:Hcond; simpl.
      { exists x, ∅. split; [done|]. split; [constructor|apply within_refl]. }
      destruct (getTypeDefInfo meta type) as [fields|]; simpl.
      2:{ exists x, ∅. split; [done|]. split; [constructor|apply within_refl]. }
      pose proof (sim_typeDefItem _ _ fields IH) as Hitem.
      destruct x as [| | | | |ts|items]; simpl in Hcond;
        rewrite ?orb_true_r in Hcond; try done; simpl.
      * apply agrees_then_ret, Hitem. constructor.
      * pose proof (sim_items _ _ Hitem (Imm <$> items) s items ∅
                      (reprs_imm s items)) as Hall.
        destruct (Store.forEach _ _ s) as [[] s'|e s'|]; [|by rewrite Hall|done].
        destruct Hall as (ts' & F' & -> & [-> ->]%reprs_imm_inv & Hwithin).
        simpl. exists (VArr items), ∅. split; [done|]. split; [constructor|done].
    + destruct (repr_ref_cell _ _ _ _ Hrepr) as [[ps|xs] Hl]; simpl; run;
        rewrite Hl /=.
      * destruct (repr_obj_inv _ _ _ _ _ Hrepr Hl)
          as (ts & F0 & -> & -> & Hnotin & Hkeys & Hprops). simpl.
        destruct (getTypeDefInfo meta type) as [fields|]; simpl.
        2:{ exists (VObj ts), ({[l]} ∪ F0). split; [done|].
            split; [done|apply within_refl]. }
        rewrite Hl /=.
        by apply agrees_then_ret, (sim_typeDefItem _ _ fields IH).
      * destruct (repr_arr_inv _ _ _ _ _ Hrepr Hl)
          as (ts & F0 & -> & -> & Hnotin & Hitems). simpl.
        destruct (getTypeDefInfo meta type) as [fields|]; simpl.
        2:{ exists (VArr ts), ({[l]} ∪ F0). split; [done|].
            split; [done|apply within_refl]. }
        rewrite Hl /=.
        pose proof (sim_items _ _ (sim_typeDefItem _ _ fields IH) xs s ts F0
                      Hitems) as Hall.
        destruct (Store.forEach _ _ s) as [[] s'|e s'|]; [|by rewrite Hall|done].
        destruct Hall as (ts' & F' & -> & Hitems' & Hwithin). simpl.
        pose proof (lookup_lt_Some _ _ _ Hl) as Hlt.
        destruct Hwithin as (Hlen & Hsame & Hnew).
        exists (VArr ts'), ({[l]} ∪ F'). split; [done|]. split; [|split; [done|split]].
        -- apply (Store.repr_arr s' l xs); [by rewrite Hsame|done|].
           intros Hin. destruct (Hnew l Hin); [done|lia].
        -- intros l' Hl' Hnot. apply Hsame; [done|set_solver].
        -- intros l' [->%elem_of_singleton|Hin]%elem_of_union; [left; set_solver|].
           destruct (Hnew l' Hin); [left; set_solver|by right].
Qed.

(** *** Defaults of the model's own fields *)

Variable isUnsafeMutateS : string -> store -> hvalue -> bool.
Variable isUnsafeMutateT : string -> value -> bool.

(** The trust predicate reads the payload, not the cells it is made of. *)
Hypothesis isUnsafeMutate_reads :
  forall model s v t F,
    repr s v t F -> isUnsafeMutateS model s v = isUnsafeMutateT model t.

Lemma setProperty_run (s : store) (l : loc) (ps : list (string * hvalue))
    (k : string) (x : hvalue) :
  s !! l = Some (CObj ps) ->
  Store.setProperty (Ref l) k x s =
  Store.Done tt (<[l := CObj (assoc_set k x ps)]> s).
Proof. intros Hl. rewrite /Store.setProperty. run. by rewrite Hl. Qed.

Lemma hasProperty_run (s : store) (l : loc) (ps : list (string * hvalue))
    (k : string) :
  s !! l = Some (CObj ps) ->
  Store.hasProperty k (Ref l) s = Store.Done (assoc_mem k ps) s.
Proof. intros Hl. rewrite /Store.hasProperty. run. by rewrite Hl. Qed.

Lemma getProperty_run (s : store) (l : loc) (ps : list (string * hvalue))
    (k : string) :
  s !! l = Some (CObj ps) ->
  Store.getProperty (Ref l) k s =
  Store.Done (default (Imm VUndefined) (assoc_get k ps)) s.
Proof. intros Hl. rewrite /Store.getProperty. run. by rewrite Hl. Qed.

Lemma relationAlreadySet_run (f : FieldInfo) (s : store) (l : loc)
    (ps : list (string * hvalue)) (ts : list (string * value)) :
  s !! l = Some (CObj ps) ->
  ps.*1 = ts.*1 ->
  exists skip,
    Store.relationAlreadySet f (Ref l) s = Store.Done skip s /\
    Payload.relationAlreadySet f (VObj ts) = Ok skip /\
    skip = isForeignKey f &&
           match truthy_name (relationField f) with
           | Some rel => assoc_mem rel ts
           | None => false
           end.
Proof.
  intros Hl Hkeys. unfold Store.relationAlreadySet, Payload.relationAlreadySet.
  destruct (isForeignKey f); [|by exists false].
  destruct (truthy_name (relationField f)) as [rel|]; [|by exists false].
  exists (assoc_mem rel ts). rewrite (hasProperty_run s l ps) //.
  by rewrite (aligned_mem _ _ _ Hkeys).
Qed.

(** The new [{connect: {opp: v}}] under the relation field. *)
Lemma connect_written (s : store) (l : loc) (ps : list (string * hvalue))
    (ts : list (string * value)) (F : gset loc) (rel opp : string) (v : value) :
  s !! l = Some (CObj ps) ->
  repr s (Ref l) (VObj ts) F ->
  assoc_mem rel ts = false ->
  let l1 := length s in
  let l2 := S (length s) in
  let s' := <[l1 := CObj [(opp, Imm v)]]>
              (<[l := CObj (assoc_set rel (Ref l2) ps)]>
                 ((s ++ [CObj []]) ++ [CObj [("connect", Ref l1)]])) in
  exists F',
    repr s' (Ref l)
      (VObj (assoc_set rel (VObj [("connect", VObj [(opp, v)])]) ts)) F' /\
    within s s' F F'.
Proof.
  intros Hl Hrepr Habs l1 l2 s'.
  pose proof (lookup_lt_Some _ _ _ Hl) as Hlt.
  set (s2 := (s ++ [CObj []]) ++ [CObj [("connect", Ref l1)]]).
  set (s3 := <[l1 := CObj [(opp, Imm v)]]> s2).
  assert (Hs' : s' = <[l := CObj (assoc_set rel (Ref l2) ps)]> s3).
  { unfold s', s3. apply list_insert_insert_ne. unfold l1. lia. }
  assert (Hlen2 : length s2 = S (S (length s))).
  { rewrite /s2 !length_app /=. lia. }
  assert (Hold : forall l', l' < length s -> s3 !! l' = s !! l').
  { intros l' Hl'. rewrite /s3 list_lookup_insert_ne; [unfold l1; lia|].
    rewrite /s2 lookup_app_l; [rewrite length_app /=; lia|].
    by rewrite lookup_app_l. }
  assert (H1 : s3 !! l1 = Some (CObj [(opp, Imm v)])).
  { rewrite /s3 list_lookup_insert_eq //. unfold l1. lia. }
  assert (H2 : s3 !! l2 = Some (CObj [("connect", Ref l1)])).
  { rewrite /s3 list_lookup_insert_ne; [unfold l1, l2; lia|].
    rewrite /s2 lookup_app_r; rewrite length_app /=; [unfold l2; lia|].
    replace (l2 - (length s + 1)) with 0 by (unfold l2; lia). done. }
  assert (Hconnect : repr s3 (Ref l1) (VObj [(opp, v)]) ({[l1]} ∪ (∅ ∪ ∅))).
  { apply (Store.repr_obj s3 l1 [(opp, Imm v)]); [done|done| |set_solver].
    simpl. apply Store.reprs_cons; [constructor|constructor|set_solver]. }
  assert (Hwrapper : repr s3 (Ref l2) (VObj [("connect", VObj [(opp, v)])])
                       ({[l2]} ∪ (({[l1]} ∪ (∅ ∪ ∅)) ∪ ∅))).
  { apply (Store.repr_obj s3 l2 [("connect", Ref l1)]); [done|done| |].
    - simpl. apply Store.reprs_cons; [done|constructor|set_solver].
    - unfold l1, l2. set_solver by lia. }
  assert (Hdata : repr s3 (Ref l) (VObj ts) F).
  { apply (proj1 (repr_reprs_frame s s3) _ _ _ Hrepr).
    intros l' Hl'. apply Hold. by eapply repr_lt. }
  assert (Hfresh : forall l', l' ∈ F -> l' < length s).
  { intros l' Hl'. by eapply repr_lt. }
  destruct (set_absent s3 l ps ts F _ rel (Ref l2) _
              (eq_trans (Hold l Hlt) Hl) Hdata Habs Hwrapper)
    as (s4 & Hset & _ & Hrepr4 & Hlen4 & Hsame4).
  { intros l' Hin HinF. apply Hfresh in HinF. unfold l1, l2 in Hin.
    set_solver by lia. }
  rewrite (setProperty_run s3 l ps) in Hset; [by rewrite Hold|].
  injection Hset as <-. rewrite Hs'. eexists. split; [exact Hrepr4|].
  split; [|split].
  - rewrite length_insert /s3 length_insert Hlen2. lia.
  - intros l' Hl' Hnot. rewrite list_lookup_insert_ne; [|by apply Hold].
    intros ->. apply Hnot. inversion Hrepr; set_solver.
  - intros l' Hin. unfold l1, l2 in Hin.
    destruct (decide (l' ∈ F)); [by left|right]. set_solver by lia.
Qed.

Lemma sim_modelDefault (f : FieldInfo) (model : string) (v : value)
    (s : store) (l : loc) (ps : list (string * hvalue))
    (ts : list (string * value)) (F : gset loc) :
  s !! l = Some (CObj ps) ->
  repr s (Ref l) (VObj ts) F ->
  assoc_mem (name f) ts = false ->
  agrees s (Ref l) F
    (Store.setDefaultValueForModelData meta isUnsafeMutateS f model (Ref l)
       (Imm v) s)
    (Payload.setDefaultValueForModelData meta isUnsafeMutateT f model (VObj ts) v).
Proof.
  intros Hl Hrepr Habs.
  destruct (repr_obj_inv _ _ _ _ _ Hrepr Hl)
    as (ts0 & F0 & [= <-] & HF & Hnotin & Hkeys & Hprops).
  destruct (relationAlreadySet_run f s l ps ts Hl Hkeys)
    as (skip & HskipS & HskipT & Hskip).
  unfold Store.setDefaultValueForModelData.
  rewrite {1}/mbind /Store.M_bind /Store.bind HskipS.
  destruct skip.
  { rewrite /Payload.setDefaultValueForModelData HskipT /=.
    exists (VObj ts), F. split; [done|]. split; [done|apply within_refl]. }
  rewrite {1}/mbind /Store.M_bind /Store.bind.
  rewrite (isUnsafeMutate_reads model s (Ref l) (VObj ts) F Hrepr).
  destruct (isForeignKey f && negb (isUnsafeMutateT model (VObj ts))) eqn:Hvia.
  2:{ rewrite setDefault_scalar //.
      destruct (set_absent s l ps ts F ∅ (name f) (Imm v) v Hl Hrepr Habs)
        as (s' & -> & _ & Hrepr' & Hlen & Hsame); [constructor|set_solver|].
      exists (VObj (assoc_set (name f) v ts)), (F ∪ ∅). split; [done|].
      split; [done|]. split; [lia|]. split.
      - intros l' Hl' Hnot. apply Hsame. intros ->. apply Hnot. set_solver.
      - intros l' Hin. left. set_solver. }
  pose proof Hvia as Hvia'.
  apply andb_true_iff in Hvia as [Hfk Hsafe]. apply negb_true_iff in Hsafe.
  rewrite Hfk /= in Hskip.
  destruct (truthy_name (relationField f)) as [rel|] eqn:Hrel.
  2:{ rewrite /Payload.setDefaultValueForModelData HskipT /=.
      rewrite Hvia'. by rewrite Hrel. }
  symmetry in Hskip.
  destruct (requireField meta model rel) as [r| |] eqn:Hreq.
  2:{ run. rewrite /Payload.setDefaultValueForModelData HskipT /=.
      rewrite Hvia'. by rewrite Hrel Hreq. }
  2:{ by run. }
  rewrite (setDefault_connect meta isUnsafeMutateT f r model rel) //.
  pose proof (requireField_name _ _ _ _ Hreq) as Hname.
  assert (Hget : assoc_get (name r) ps = None).
  { rewrite Hname. apply assoc_mem_false.
    by rewrite (aligned_mem _ _ _ Hkeys). }
  simpl. run. rewrite Hl /= Hget /=.
  replace (length (s ++ [CObj []])) with (S (length s))
    by (rewrite length_app /=; lia).
  pose proof (lookup_lt_Some _ _ _ Hl) as Hlt.
  set (s2 := (s ++ [CObj []]) ++ [CObj [("connect", Ref (length s))]]).
  assert (Hl2 : s2 !! l = Some (CObj ps)).
  { rewrite /s2 lookup_app_l; [rewrite length_app /=; lia|].
    by rewrite lookup_app_l. }
  rewrite (setProperty_run s2 l ps) // Hname.
  destruct (truthy_name (Payload.getOppositeFkFieldName r f)) as [opp|]; [|done].
  rewrite (setProperty_run _ (length s) []).
  { rewrite list_lookup_insert_ne; [lia|].
    rewrite /s2 lookup_app_l; [rewrite length_app /=; lia|].
    by rewrite lookup_app_r // Nat.sub_diag. }
  destruct (connect_written s l ps ts F rel opp v Hl Hrepr Hskip)
    as (F' & Hrepr' & Hwithin).
  by eexists _, F'.
Qed.

Lemma sim_processField (fuel : nat) (model : string) (f : FieldInfo) :
  simulates
    (fun data => Store.processField meta userContext isUnsafeMutateS fuel
                   model data f)
    (fun t => Payload.processField meta userContext isUnsafeMutateT fuel
                model t f).
Proof.
  unfold Store.processField, Payload.processField. destruct (isTypeDef f).
  - apply (sim_child (name f)
             (Store.setDefaultValueForTypeDefData meta userContext fuel (type f))
             (Payload.setDefaultValueForTypeDefData meta userContext fuel (type f))).
    apply sim_typeDef.
  - apply (sim_absent (name f)). intros s l ps ts F Hl Hrepr Habs.
    destruct (defaultValueProvider f) as [provider|].
    2:{ exists (VObj ts), F. split; [done|]. split; [done|apply within_refl]. }
    rewrite {1}/mbind /Store.M_bind /Store.bind getDefaultValue_run.
    destruct (Payload.getDefaultValue userContext f) as [v| |]; [|done|done].
    rewrite /= (match_undefined v). destruct (Store.isUndefined (Imm v)).
    + exists (VObj ts), F. split; [done|]. split; [done|apply within_refl].
    + by apply (sim_modelDefault f model v s l ps).
Qed.

(** The store function [processCreatePayload], run on a payload that stands
    for the tree [t] without sharing, leaves it standing for the tree that
    [Payload.processCreatePayload] computes from [t], and throws what that
    function throws. *)
Theorem processCreatePayload_simulates (fuel : nat) (model : string) :
  simulates
    (Store.processCreatePayload meta userContext isUnsafeMutateS fuel model)
    (Payload.processCreatePayload meta userContext isUnsafeMutateT fuel model).
Proof.
  unfold Store.processCreatePayload, Payload.processCreatePayload.
  destruct (getFields meta model) as [fields|]; [|by intros s v t F _].
  apply (sim_fields fields
           (Store.processField meta userContext isUnsafeMutateS fuel model)
           (Payload.processField meta userContext isUnsafeMutateT fuel model)).
  intros f _. apply sim_processField.
Qed.

(** The clone of the caller's payload, processed in the store, stands for
    the tree that [Payload.processCreatePayload] computes from the caller's
    tree, and the caller's value still stands for the tree it stood for. *)
Theorem cloned_payload_processed (depth fuel : nat) (model : string)
    (s : store) (args : hvalue) (t : value) :
  Store.readBack depth s args = Some t ->
  match (newArgs ← Store.clone depth args;
         Store.processCreatePayload meta userContext isUnsafeMutateS fuel model
           newArgs;;
         mret newArgs) s with
  | Store.Done newArgs s' =>
      exists t' F',
        Payload.processCreatePayload meta userContext isUnsafeMutateT fuel model t
          = Ok t' /\
        repr s' newArgs t' F' /\
        Store.readBack depth s' args = Some t
  | Store.Raised e _ =>
      Payload.processCreatePayload meta userContext isUnsafeMutateT fuel model t
        = Throw e
  | Store.OutOfModel => True
  end.
Proof.
  intros Hread.
  destruct (clone_unshared depth s args t Hread)
    as (v' & s1 & Hclone & ext & F & -> & Hrepr & Hnew).
  run. rewrite Hclone.
  pose proof (processCreatePayload_simulates fuel model (s ++ ext) v' t F Hrepr)
    as Hsim.
  unfold Store.agrees in Hsim.
  destruct (Store.processCreatePayload _ _ _ _ _ v' (s ++ ext))
    as [[] s'|e s'|]; [|done|].
  - destruct Hsim as (t' & F' & Hrun & Hrepr' & Hlen & Hsame & _).
    exists t', F'. split; [done|]. split; [done|].
    apply (readBack_frame depth s); [|done].
    intros l c Hl. pose proof (lookup_lt_Some _ _ _ Hl) as Hlt.
    rewrite Hsame.
    + rewrite length_app. lia.
    + intros Hin. apply Hnew in Hin. lia.
    + by apply lookup_app_l_Some.
  - done.
Qed.

End Simulation.
End Representation.

(** ** The handler at work on the example schema *)

(** The caller holds a payload whose [meta] object is a cell of its own.
    The clone is processed: its [meta] receives [by], the payload receives
    the connect of [author]; the tree is the one the handler on trees
    computes, and the caller's payload reads as before. *)
Lemma cloned_payload_processed_witness :
  let s0 := [Store.CObj [("tag", Store.Imm (VStr "x"))];
             Store.CObj [("title", Store.Imm (VStr "t")); ("meta", Store.Ref 0)]] in
  let t0 := VObj [("title", VStr "t"); ("meta", VObj [("tag", VStr "x")])] in
  let s1 :=
    s0 ++ [Store.CObj [("tag", Store.Imm (VStr "x")); ("by", Store.Imm (VStr "u1"))];
           Store.CObj [("title", Store.Imm (VStr "t")); ("meta", Store.Ref 2);
                       ("author", Store.Ref 5)];
           Store.CObj [("id", Store.Imm (VStr "u1"))];
           Store.CObj [("connect", Store.Ref 4)]] in
  Store.readBack 2 s0 (Store.Ref 1) = Some t0 /\
  exists t' F',
    Payload.processCreatePayload exampleMeta alice neverUnsafe 1 "Post" t0 = Ok t' /\
    Store.repr s1 (Store.Ref 3) t' F' /\
    Store.readBack 2 s1 (Store.Ref 1) = Some t0.
Proof.
  split; [reflexivity|].
  exact (cloned_payload_processed exampleMeta alice (fun _ _ _ => false)
           neverUnsafe (fun _ _ _ _ _ _ => eq_refl) 2 1 "Post"
           [Store.CObj [("tag", Store.Imm (VStr "x"))];
            Store.CObj [("title", Store.Imm (VStr "t")); ("meta", Store.Ref 0)]]
           (Store.Ref 1)
           (VObj [("title", VStr "t"); ("meta", VObj [("tag", VStr "x")])])
           eq_refl).
Defined.

(** The tree of the processed clone, read back from the store, is the
    payload that the handler on trees returns. *)
Lemma cloned_payload_read_back :
  let s0 := [Store.CObj [("tag", Store.Imm (VStr "x"))];
             Store.CObj [("title", Store.Imm (VStr "t")); ("meta", Store.Ref 0)]] in
  match (newArgs ← Store.clone 2 (Store.Ref 1);
         Store.processCreatePayload exampleMeta alice (fun _ _ _ => false) 1
           "Post" newArgs;;
         mret newArgs) s0 with
  | Store.Done newArgs s1 =>
      Ok <$> Store.readBack 3 s1 newArgs =
      Some (Payload.processCreatePayload exampleMeta alice neverUnsafe 1 "Post"
              (VObj [("title", VStr "t"); ("meta", VObj [("tag", VStr "x")])]))
  | _ => False
  end.
Proof. reflexivity. Qed.

Lemma processCreatePayload_budget_witness :
  Payload.processCreatePayload exampleMeta alice neverUnsafe (1 + 5) "Post"
    (VObj [("title", VStr "a"); ("meta", VObj [("tag", VStr "x")])]) =
  Payload.processCreatePayload exampleMeta alice neverUnsafe 1 "Post"
    (VObj [("title", VStr "a"); ("meta", VObj [("tag", VStr "x")])]).
Proof. apply processCreatePayload_budget. vm_compute. discriminate. Defined.

Lemma onCreateMany_nodes_witness :
  exists items',
    VObj [("data",
           VArr [VObj [("title", VStr "a");
                       ("author", VObj [("connect", VObj [("id", VStr "u1")])])];
                 VObj [("title", VStr "b"); ("authorId", VStr "u7")]])] =
    VObj (assoc_set "data" (VArr items')
            [("data", VArr [VObj [("title", VStr "a")];
                            VObj [("title", VStr "b"); ("authorId", VStr "u7")]])]) /\
    Forall2
      (fun item item' =>
         Payload.processCreatePayload exampleMeta alice neverUnsafe 1 "Post" item =
         Ok item')
      [VObj [("title", VStr "a")];
       VObj [("title", VStr "b"); ("authorId", VStr "u7")]]
      items'.
Proof.
  apply (onCreateMany_nodes exampleMeta alice neverUnsafe 1 "Post"
           [("data", VArr [VObj [("title", VStr "a")];
                           VObj [("title", VStr "b"); ("authorId", VStr "u7")]])]);
    reflexivity.
Defined.

(** ** Identifier truncation *)

Section TruncateFacts.

Variable prefix : string.

Local Abbreviation MAX := (SchemaGenerator.IDENTIFIER_NAME_MAX_LENGTH prefix).
Local Abbreviation truncate := (SchemaGenerator.truncate prefix).
Local Abbreviation calls := (SchemaGenerator.calls prefix).
Local Abbreviation shortNameOf := SchemaGenerator.shortNameOf.
Local Abbreviation conflictOf := SchemaGenerator.conflictOf.
Local Abbreviation firstFree := SchemaGenerator.firstFree.
Local Abbreviation ShortNameMap := SchemaGenerator.ShortNameMap.

Lemma string_length_app (s1 s2 : string) :
  String.length (s1 +:+ s2) = String.length s1 + String.length s2.
Proof. induction s1 as [|c s1 IH]; simpl; [done|]. by rewrite IH. Qed.

Lemma substring_length (n : nat) (s : string) :
  String.length (String.substring 0 n s) = Nat.min n (String.length s).
Proof.
  revert n. induction s as [|c s IH]; intros [|n]; simpl; try done.
  by rewrite IH.
Qed.

Lemma shortNameOf_inj (baseName : string) (i j : nat) :
  shortNameOf baseName i = shortNameOf baseName j -> i = j.
Proof.
  unfold SchemaGenerator.shortNameOf. intros H.
  apply (inj (String.app baseName)) in H.
  apply (inj (String.app "_")) in H.
  by apply (inj pretty) in H.
Qed.

Lemma shortNameOf_length (baseName : string) (i : nat) :
  String.length baseName < String.length (shortNameOf baseName i).
Proof.
  unfold SchemaGenerator.shortNameOf. rewrite !string_length_app /=. lia.
Qed.

Lemma shortNameOf_nonempty (baseName : string) (i : nat) :
  shortNameOf baseName i <> "".
Proof.
  intros H. pose proof (shortNameOf_length baseName i) as Hlen.
  rewrite H /= in Hlen. lia.
Qed.

Lemma conflictOf_None (m : ShortNameMap) (s : string) :
  conflictOf m s = None <-> s ∉ m.*2.
Proof.
  unfold SchemaGenerator.conflictOf.
  induction m as [|[k v] m IH]; simpl.
  - split; [intros _; apply not_elem_of_nil|done].
  - destruct (String.eqb_spec v s) as [->|Hne].
    + split; [done|]. intros []. left.
    + rewrite IH. rewrite not_elem_of_cons. naive_solver.
Qed.

Lemma conflictOf_Some (m : ShortNameMap) (s v : string) :
  conflictOf m s = Some v -> v = s /\ s ∈ m.*2.
Proof.
  unfold SchemaGenerator.conflictOf.
  induction m as [|[k w] m IH]; simpl; [done|].
  destruct (String.eqb_spec w s) as [->|Hne].
  - intros [= <-]. split; [done|left].
  - intros [-> Hin]%IH. split; [done|by right].
Qed.

(** Whether the name of [index] is taken, as the loop tests it. *)
Lemma conflict_truthy (m : ShortNameMap) (baseName : string) (i : nat) :
  truthy_name (conflictOf m (shortNameOf baseName i)) = None <->
  shortNameOf baseName i ∉ m.*2.
Proof.
  rewrite -conflictOf_None.
  destruct (conflictOf m (shortNameOf baseName i)) as [v|] eqn:Hc; simpl; [|done].
  apply conflictOf_Some in Hc as [-> _].
  destruct (String.eqb_spec (shortNameOf baseName i) "") as [Hempty|_]; [|done].
  by apply shortNameOf_nonempty in Hempty.
Qed.

(** Among the first [length m + 1] indices one is free. *)
Lemma free_index_exists (m : ShortNameMap) (baseName : string) :
  exists i, i <= length m /\ shortNameOf baseName i ∉ m.*2.
Proof.
  destruct (decide (Forall (fun i => shortNameOf baseName i ∈ m.*2)
                      (seq 0 (S (length m))))) as [Hall|Hex].
  - exfalso.
    assert (Hsub : shortNameOf baseName <$> seq 0 (S (length m)) ⊆+ m.*2).
    { apply NoDup_submseteq.
      - apply NoDup_fmap_2; [|apply NoDup_seq].
        intros i j. apply shortNameOf_inj.
      - intros s (i & -> & Hi)%list_elem_of_fmap.
        by apply (proj1 (Forall_forall _ _) Hall). }
    apply submseteq_length in Hsub.
    rewrite !length_fmap length_seq in Hsub. lia.
  - apply not_Forall_Exists in Hex; [|intros i; apply _].
    apply Exists_exists in Hex as (i & Hi & Hfree).
    apply elem_of_seq in Hi. exists i. split; [lia|done].
Qed.

(** The loop returns the first free name at or after [index], as soon as
    [fuel] reaches a free index. *)
Lemma firstFree_spec (m : ShortNameMap) (baseName : string) (fuel index j : nat) :
  index <= j < index + fuel ->
  shortNameOf baseName j ∉ m.*2 ->
  exists i, index <= i <= j /\
    firstFree fuel m baseName index = Some (shortNameOf baseName i) /\
    (shortNameOf baseName i ∉ m.*2) /\
    forall i', index <= i' < i -> shortNameOf baseName i' ∈ m.*2.
Proof.
  revert index. induction fuel as [|fuel IH]; intros index Hj Hfree; [lia|].
  simpl.
  destruct (truthy_name (conflictOf m (shortNameOf baseName index))) as [v|] eqn:Hc.
  - assert (Htaken : shortNameOf baseName index ∈ m.*2).
    { destruct (decide (shortNameOf baseName index ∈ m.*2)) as [|Hnot]; [done|].
      apply conflict_truthy in Hnot. congruence. }
    assert (index <> j) by (intros ->; done).
    destruct (IH (S index)) as (i & Hi & Hrun & Hfree' & Hleast); [lia|done|].
    exists i. split; [lia|]. split; [done|]. split; [done|].
    intros i' Hi'. destruct (decide (i' = index)) as [->|]; [done|].
    apply Hleast. lia.
  - apply conflict_truthy in Hc. exists index. split; [lia|]. split; [done|].
    split; [done|]. intros i' Hi'. lia.
Qed.

Local Abbreviation shortNamesOk := (SchemaGenerator.shortNamesOk prefix).
Local Abbreviation slice0 := SchemaGenerator.slice0.

Lemma slice0_length (s : string) :
  (0 <= MAX)%Z -> (MAX < Z.of_nat (String.length s))%Z ->
  Z.of_nat (String.length (slice0 s MAX)) = MAX.
Proof.
  intros Hpos Hlong. unfold SchemaGenerator.slice0.
  destruct (Z.ltb_spec MAX 0) as [|_]; [lia|].
  rewrite substring_length. lia.
Qed.

Lemma shortName_long (n : string) (i : nat) :
  (MAX < Z.of_nat (String.length n))%Z ->
  (MAX < Z.of_nat (String.length (shortNameOf (slice0 n MAX) i)))%Z.
Proof.
  intros Hlong. pose proof (shortNameOf_length (slice0 n MAX) i) as Hlen.
  destruct (Z.le_gt_cases 0 MAX) as [Hpos|Hneg]; [|lia].
  pose proof (slice0_length n Hpos Hlong). lia.
Qed.

Lemma assoc_get_elem_of {A : Type} (k : string) (v : A) (m : list (string * A)) :
  assoc_get k m = Some v -> (k, v) ∈ m.
Proof.
  induction m as [|[k1 v1] m IH]; simpl; [done|].
  destruct (String.eqb_spec k k1) as [->|_].
  - intros [= ->]. left.
  - intros H. right. by apply IH.
Qed.

Lemma assoc_set_absent {A : Type} (k : string) (v : A) (m : list (string * A)) :
  assoc_get k m = None -> assoc_set k v m = m ++ [(k, v)].
Proof.
  induction m as [|[k1 v1] m IH]; simpl; [done|].
  destruct (String.eqb_spec k k1) as [->|_]; [done|].
  intros H. by rewrite IH.
Qed.

(** In a map that calls have made, a name is bound to a short name or not
    at all. *)
Lemma ok_binding (m : ShortNameMap) (n : string) :
  shortNamesOk m ->
  truthy_name (assoc_get n m) = assoc_get n m.
Proof.
  intros [_ Hshape]. destruct (assoc_get n m) as [v|] eqn:Hget; [|done].
  apply assoc_get_elem_of in Hget.
  apply (proj1 (Forall_forall _ _) Hshape) in Hget as [_ [i Hv]]. simpl in Hv.
  rewrite /= Hv.
  destruct (String.eqb_spec (shortNameOf (slice0 n MAX) i) "") as [Hempty|_];
    [|done].
  by apply shortNameOf_nonempty in Hempty.
Qed.

(** Two names bound in the map have two short names. *)
Lemma ok_apart (m : ShortNameMap) (n1 n2 s : string) :
  shortNamesOk m ->
  assoc_get n1 m = Some s -> assoc_get n2 m = Some s -> n1 = n2.
Proof.
  intros [Hnodup _]. induction m as [|[k v] m IH]; simpl; [done|].
  simpl in Hnodup. apply NoDup_cons in Hnodup as [Hnotin Hnodup].
  destruct (String.eqb_spec n1 k) as [->|Hne1];
    destruct (String.eqb_spec n2 k) as [->|Hne2]; try done.
  - intros [= ->] Hget. apply assoc_get_elem_of in Hget.
    destruct Hnotin. apply list_elem_of_fmap. by exists (n2, s).
  - intros Hget [= ->]. apply assoc_get_elem_of in Hget.
    destruct Hnotin. apply list_elem_of_fmap. by exists (n1, s).
  - by apply IH.
Qed.

Lemma truncate_ok (fuel : nat) (n s : string) (m m' : ShortNameMap) :
  shortNamesOk m -> truncate fuel n m = Some (s, m') -> shortNamesOk m'.
Proof.
  intros Hok. pose proof Hok as [Hnodup Hshape]. unfold SchemaGenerator.truncate.
  destruct (Z.leb_spec (Z.of_nat (String.length n)) MAX) as [|Hlong].
  { by intros [= _ <-]. }
  rewrite ok_binding //. destruct (assoc_get n m) as [v|] eqn:Hget.
  { by intros [= _ <-]. }
  destruct (firstFree _ _ _ _) as [short|] eqn:Hrun; [|done]. intros [= _ <-].
  assert (exists i, short = shortNameOf (slice0 n MAX) i /\ short ∉ m.*2)
    as (i & -> & Hfree).
  { clear -Hrun. revert Hrun. generalize 0 as index.
    induction fuel as [|fuel IH]; intros index; simpl; [done|].
    destruct (truthy_name _) as [v|] eqn:Hc.
    - apply IH.
    - intros [= <-]. exists index. split; [done|]. by apply conflict_truthy. }
  rewrite assoc_set_absent //. split.
  - rewrite map_app /=. apply NoDup_app. split; [done|]. split.
    + intros x Hx ->%list_elem_of_singleton. done.
    + apply NoDup_singleton.
  - apply Forall_app. split; [done|]. apply Forall_singleton. simpl.
    split; [done|by exists i].
Qed.

Lemma calls_ok (m m' : ShortNameMap) :
  shortNamesOk m -> calls m m' -> shortNamesOk m'.
Proof.
  intros Hok. induction 1 as [|fuel n s m1 m2 _ IH Hrun]; [done|].
  by eapply truncate_ok.
Qed.

Lemma empty_ok : shortNamesOk [].
Proof. split; [apply NoDup_nil_2|apply Forall_nil_2]. Qed.

(** A call leaves the names that are bound as they are. *)
Lemma truncate_keeps (fuel : nat) (n s k v : string) (m m' : ShortNameMap) :
  shortNamesOk m -> truncate fuel n m = Some (s, m') ->
  assoc_get k m = Some v -> assoc_get k m' = Some v.
Proof.
  intros Hok. unfold SchemaGenerator.truncate.
  destruct (Z.leb_spec (Z.of_nat (String.length n)) MAX) as [|Hlong].
  { by intros [= _ <-]. }
  rewrite ok_binding //. destruct (assoc_get n m) as [w|] eqn:Hget.
  { by intros [= _ <-]. }
  destruct (firstFree _ _ _ _) as [short|]; [|done]. intros [= _ <-] Hk.
  rewrite assoc_get_set_ne //. intros ->. congruence.
Qed.

Lemma calls_keep (k v : string) (m m' : ShortNameMap) :
  shortNamesOk m -> calls m m' ->
  assoc_get k m = Some v -> assoc_get k m' = Some v.
Proof.
  intros Hok Hcalls Hk. induction Hcalls as [|fuel n s m1 m2 Hcalls IH Hrun]; [done|].
  eapply truncate_keeps; [|done|done]. by eapply calls_ok.
Qed.

(** What a call returns: the name itself when it is within the limit; else
    the short name the map holds for it when the call returns. *)
Lemma truncate_result (fuel : nat) (n s : string) (m m' : ShortNameMap) :
  shortNamesOk m -> truncate fuel n m = Some (s, m') ->
  ((Z.of_nat (String.length n) <= MAX)%Z /\ s = n /\ m' = m) \/
  ((MAX < Z.of_nat (String.length n))%Z /\ assoc_get n m' = Some s).
Proof.
  intros Hok. unfold SchemaGenerator.truncate.
  destruct (Z.leb_spec (Z.of_nat (String.length n)) MAX) as [Hshort|Hlong].
  { intros [= <- <-]. by left. }
  rewrite ok_binding //. intros Hrun. right. split; [done|].
  destruct (assoc_get n m) as [w|] eqn:Hget.
  { by injection Hrun as <- <-. }
  destruct (firstFree _ _ _ _) as [short|]; [|done]. injection Hrun as <- <-.
  apply assoc_get_set_eq.
Qed.

(** A name longer than the limit that has no short name yet gets the first
    free one: the loop ends within [length m + 1] passes, at the least index
    whose name no other name has been given. *)
Theorem truncate_first_free (fuel : nat) (n : string) (m : ShortNameMap) :
  length m < fuel ->
  (MAX < Z.of_nat (String.length n))%Z ->
  truthy_name (assoc_get n m) = None ->
  exists i, i <= length m /\
    truncate fuel n m =
      Some (shortNameOf (slice0 n MAX) i,
            assoc_set n (shortNameOf (slice0 n MAX) i) m) /\
    (shortNameOf (slice0 n MAX) i ∉ m.*2) /\
    forall i', i' < i -> shortNameOf (slice0 n MAX) i' ∈ m.*2.
Proof.
  intros Hfuel Hlong Hnew. unfold SchemaGenerator.truncate.
  destruct (Z.leb_spec (Z.of_nat (String.length n)) MAX) as [|_]; [lia|].
  rewrite Hnew.
  destruct (free_index_exists m (slice0 n MAX)) as (j & Hj & Hfree).
  destruct (firstFree_spec m (slice0 n MAX) fuel 0 j) as (i & Hi & -> & Hi' & Hleast);
    [lia|done|].
  exists i. split; [lia|]. split; [done|]. split; [done|].
  intros i' Hi''. apply Hleast. lia.
Qed.

(** Asked again for a name, at any later point of the run, [truncate]
    gives the name it gave before and leaves the map as it is. *)
Theorem truncate_stable (fuel fuel' : nat) (n s : string)
    (m m1 m2 : ShortNameMap) :
  calls [] m ->
  truncate fuel n m = Some (s, m1) ->
  calls m1 m2 ->
  truncate fuel' n m2 = Some (s, m2).
Proof.
  intros Hm Hrun Hlater.
  pose proof (calls_ok _ _ empty_ok Hm) as Hok.
  pose proof (truncate_ok _ _ _ _ _ Hok Hrun) as Hok1.
  pose proof (calls_ok _ _ Hok1 Hlater) as Hok2.
  unfold SchemaGenerator.truncate.
  destruct (truncate_result _ _ _ _ _ Hok Hrun) as [(Hshort & -> & _)|[Hlong Hget]].
  - by destruct (Z.leb_spec (Z.of_nat (String.length n)) MAX) as [_|]; [|lia].
  - destruct (Z.leb_spec (Z.of_nat (String.length n)) MAX) as [|_]; [lia|].
    by rewrite ok_binding // (calls_keep _ _ _ _ Hok1 Hlater Hget).
Qed.

(** In one run, two names never come out as the same name. *)
Theorem truncate_injective (fuel1 fuel2 : nat) (n1 n2 s1 s2 : string)
    (m m1 m2 m3 : ShortNameMap) :
  calls [] m ->
  truncate fuel1 n1 m = Some (s1, m1) ->
  calls m1 m2 ->
  truncate fuel2 n2 m2 = Some (s2, m3) ->
  n1 <> n2 -> s1 <> s2.
Proof.
  intros Hm Hrun1 Hlater Hrun2 Hne <-. apply Hne.
  pose proof (calls_ok _ _ empty_ok Hm) as Hok.
  pose proof (truncate_ok _ _ _ _ _ Hok Hrun1) as Hok1.
  pose proof (calls_ok _ _ Hok1 Hlater) as Hok2.
  pose proof (truncate_ok _ _ _ _ _ Hok2 Hrun2) as Hok3.
  assert (Hbound : forall k v (m0 : ShortNameMap), shortNamesOk m0 ->
            assoc_get k m0 = Some v -> (MAX < Z.of_nat (String.length v))%Z).
  { intros k v m0 [_ Hshape] Hget%assoc_get_elem_of.
    apply (proj1 (Forall_forall _ _) Hshape) in Hget as [Hlong [i Hv]].
    simpl in *. rewrite Hv. by apply shortName_long. }
  destruct (truncate_result _ _ _ _ _ Hok Hrun1) as [(Hshort1 & -> & _)|[Hlong1 Hget1]];
    destruct (truncate_result _ _ _ _ _ Hok2 Hrun2)
      as [(Hshort2 & Heq & _)|[Hlong2 Hget2]].
  - done.
  - apply (Hbound _ _ _ Hok3) in Hget2. lia.
  - subst s1. apply (Hbound _ _ _ Hok1) in Hget1. lia.
  - apply (ok_apart m3 n1 n2 s1 Hok3); [|done].
    eapply truncate_keeps; [exact Hok2|exact Hrun2|].
    by apply (calls_keep _ _ _ _ Hok1 Hlater).
Qed.

(** What [truncate] returns: a name within the limit as it is; for a
    longer name, its first characters up to the limit, an underscore and an
    index, which is longer than the limit. *)
Theorem truncate_shape (fuel : nat) (n s : string) (m m' : ShortNameMap) :
  calls [] m ->
  truncate fuel n m = Some (s, m') ->
  ((Z.of_nat (String.length n) <= MAX)%Z /\ s = n) \/
  ((MAX < Z.of_nat (String.length n))%Z /\
   (exists i, s = shortNameOf (slice0 n MAX) i) /\
   (MAX < Z.of_nat (String.length s))%Z /\
   ((0 <= MAX)%Z -> String.prefix (slice0 n MAX) n = true /\
                    Z.of_nat (String.length (slice0 n MAX)) = MAX)).
Proof.
  intros Hm Hrun.
  pose proof (calls_ok _ _ empty_ok Hm) as Hok.
  pose proof (truncate_ok _ _ _ _ _ Hok Hrun) as [_ Hshape].
  destruct (truncate_result _ _ _ _ _ Hok Hrun) as [(Hshort & -> & _)|[Hlong Hget]].
  { by left. }
  right. split; [done|].
  apply assoc_get_elem_of in Hget.
  apply (proj1 (Forall_forall _ _) Hshape) in Hget as [_ [i Hs]]. simpl in Hs.
  split; [by exists i|]. split.
  - rewrite Hs. by apply shortName_long.
  - intros Hpos. split; [|by apply slice0_length].
    unfold SchemaGenerator.slice0. generalize (Z.to_nat
      (if (MAX <? 0)%Z then Z.max (Z.of_nat (String.length n) + MAX) 0
       else Z.min MAX (Z.of_nat (String.length n)))) as k.
    clear. induction n as [|c n IH]; intros [|k]; simpl; try done.
    destruct (Ascii.ascii_dec c c) as [_|]; [apply IH|done].
Qed.

End TruncateFacts.

Lemma truncate_first_free_witness :
  exists i, i <= 1 /\
    SchemaGenerator.truncate auxPrefix 2 longName2 [(longName1, shortName1)] =
      Some (SchemaGenerator.shortNameOf
              (SchemaGenerator.slice0 longName2
                 (SchemaGenerator.IDENTIFIER_NAME_MAX_LENGTH auxPrefix)) i,
            assoc_set longName2
              (SchemaGenerator.shortNameOf
                 (SchemaGenerator.slice0 longName2
                    (SchemaGenerator.IDENTIFIER_NAME_MAX_LENGTH auxPrefix)) i)
              [(longName1, shortName1)]) /\
    (SchemaGenerator.shortNameOf
       (SchemaGenerator.slice0 longName2
          (SchemaGenerator.IDENTIFIER_NAME_MAX_LENGTH auxPrefix)) i
       ∉ [(longName1, shortName1)].*2) /\
    forall i', i' < i ->
      SchemaGenerator.shortNameOf
        (SchemaGenerator.slice0 longName2
           (SchemaGenerator.IDENTIFIER_NAME_MAX_LENGTH auxPrefix)) i'
        ∈ [(longName1, shortName1)].*2.
Proof.
  apply (truncate_first_free auxPrefix 2 longName2 [(longName1, shortName1)]).
  - simpl. lia.
  - vm_compute. reflexivity.
  - reflexivity.
Defined.

Lemma truncate_stable_witness :
  SchemaGenerator.truncate auxPrefix 0 longName1
    [(longName1, shortName1); (longName2, shortName2)] =
  Some (shortName1, [(longName1, shortName1); (longName2, shortName2)]).
Proof.
  apply (truncate_stable auxPrefix 1 0 longName1 shortName1 []
           [(longName1, shortName1)]).
  - apply SchemaGenerator.calls_none.
  - vm_compute. reflexivity.
  - apply (SchemaGenerator.calls_more auxPrefix _ 2 longName2 shortName2
             [(longName1, shortName1)]);
      [apply SchemaGenerator.calls_none|vm_compute; reflexivity].
Defined.

Lemma truncate_injective_witness : shortName1 <> shortName2.
Proof.
  apply (truncate_injective auxPrefix 1 2 longName1 longName2 shortName1
           shortName2 [] [(longName1, shortName1)] [(longName1, shortName1)]
           [(longName1, shortName1); (longName2, shortName2)]).
  - apply SchemaGenerator.calls_none.
  - vm_compute. reflexivity.
  - apply SchemaGenerator.calls_none.
  - vm_compute. reflexivity.
  - discriminate.
Defined.

Lemma truncate_shape_witness :
  ((Z.of_nat (String.length longName2) <=
    SchemaGenerator.IDENTIFIER_NAME_MAX_LENGTH auxPrefix)%Z /\
   shortName2 = longName2) \/
  ((SchemaGenerator.IDENTIFIER_NAME_MAX_LENGTH auxPrefix <
    Z.of_nat (String.length longName2))%Z /\
   (exists i,
      shortName2 =
      SchemaGenerator.shortNameOf
        (SchemaGenerator.slice0 longName2
           (SchemaGenerator.IDENTIFIER_NAME_MAX_LENGTH auxPrefix)) i) /\
   (SchemaGenerator.IDENTIFIER_NAME_MAX_LENGTH auxPrefix <
    Z.of_nat (String.length shortName2))%Z /\
   ((0 <= SchemaGenerator.IDENTIFIER_NAME_MAX_LENGTH auxPrefix)%Z ->
    String.prefix
      (SchemaGenerator.slice0 longName2
         (SchemaGenerator.IDENTIFIER_NAME_MAX_LENGTH auxPrefix)) longName2 = true /\
    Z.of_nat
      (String.length
         (SchemaGenerator.slice0 longName2
            (SchemaGenerator.IDENTIFIER_NAME_MAX_LENGTH auxPrefix))) =
    SchemaGenerator.IDENTIFIER_NAME_MAX_LENGTH auxPrefix)).
Proof.
  apply (truncate_shape auxPrefix 2 longName2 shortName2
           [(longName1, shortName1)]
           [(longName1, shortName1); (longName2, shortName2)]).
  - apply (SchemaGenerator.calls_more auxPrefix _ 1 longName1 shortName1 []);
      [apply SchemaGenerator.calls_none|vm_compute; reflexivity].
  - vm_compute. reflexivity.
Defined.

(** ** More on the handler on one payload *)

Section PayloadMore.

Variable meta : ModelMeta.
Variable userContext : value.
Variable isUnsafeMutate : string -> value -> bool.

Local Abbreviation getDefaultValue := (Payload.getDefaultValue userContext).
Local Abbreviation setDefaultValueForModelData :=
  (Payload.setDefaultValueForModelData meta isUnsafeMutate).
Local Abbreviation setDefaultValueForTypeDefData :=
  (Payload.setDefaultValueForTypeDefData meta userContext).
Local Abbreviation typeDefField := (Payload.typeDefField userContext).
Local Abbreviation typeDefItem := (Payload.typeDefItem userContext).
Local Abbreviation processField := (Payload.processField meta userContext isUnsafeMutate).
Local Abbreviation processCreatePayload :=
  (Payload.processCreatePayload meta userContext isUnsafeMutate).

(** Without a caller identity, a create payload that is accepted is
    returned as it was given: nothing is injected. *)
Theorem anonymous_payload_unchanged (fuel : nat) (model : string) (d d' : value) :
  truthy userContext = false ->
  processCreatePayload fuel model d = Ok d' -> d' = d.
Proof.
  intros Hanon. unfold Payload.processCreatePayload.
  destruct (getFields meta model) as [fields|]; [|done].
  apply foldM_unchanged. intros d0 f d1 _.
  by apply processField_no_identity.
Qed.

(** *** With a caller identity *)

Lemma clean_bind {A B : Type} (m : result A) (k : A -> result B) :
  notValidationError m -> (forall a, m = Ok a -> notValidationError (k a)) ->
  notValidationError (m ≫= k).
Proof.
  intros Hm Hk msg. destruct m as [a|e|]; simpl; [by apply Hk| |done].
  intros [= ->]. by apply (Hm msg).
Qed.

Lemma clean_Ok {A : Type} (a : A) : notValidationError (Ok a).
Proof. by intros msg. Qed.

Lemma clean_hasProperty (k : string) (v : value) :
  notValidationError (hasProperty k v).
Proof. intros msg. by destruct v. Qed.

Lemma clean_getProperty (v : value) (k : string) :
  notValidationError (getProperty v k).
Proof. intros msg. by destruct v. Qed.

Lemma clean_setProperty (v : value) (k : string) (x : value) :
  notValidationError (setProperty v k x).
Proof. intros msg. by destruct v. Qed.

Lemma clean_requireField (model field : string) :
  notValidationError (requireField meta model field).
Proof.
  intros msg. unfold requireField. destruct (getFields meta model); [|done].
  by destruct (find _ _).
Qed.

Lemma clean_foldM {A B : Type} (body : A -> B -> result A) (xs : list B) (a : A) :
  (forall a0 x, notValidationError (body a0 x)) ->
  notValidationError (foldM body xs a).
Proof.
  intros Hbody. revert a. induction xs as [|x xs IH]; intros a; simpl.
  - apply clean_Ok.
  - apply clean_bind; [apply Hbody|]. intros a1 _. apply IH.
Qed.

Lemma clean_forEachM {A : Type} (body : A -> result A) (xs : list A) :
  (forall x, notValidationError (body x)) ->
  notValidationError (forEachM body xs).
Proof.
  intros Hbody. induction xs as [|x xs IH]; simpl.
  - apply clean_Ok.
  - apply clean_bind; [apply Hbody|]. intros x1 _.
    apply clean_bind; [apply IH|]. intros xs1 _. apply clean_Ok.
Qed.

Lemma clean_getDefaultValue (f : FieldInfo) :
  truthy userContext = true -> notValidationError (getDefaultValue f).
Proof. intros Hu msg. unfold Payload.getDefaultValue. by rewrite Hu. Qed.

Lemma clean_setDefaultValueForModelData (f : FieldInfo) (model : string)
    (d v : value) :
  notValidationError (setDefaultValueForModelData f model d v).
Proof.
  unfold Payload.setDefaultValueForModelData.
  apply clean_bind.
  { unfold Payload.relationAlreadySet. destruct (isForeignKey f); [|apply clean_Ok].
    destruct (truthy_name _); [apply clean_hasProperty|apply clean_Ok]. }
  intros [|] _; [apply clean_Ok|].
  destruct (isForeignKey f && negb (isUnsafeMutate model d));
    [|apply clean_setProperty].
  destruct (truthy_name (relationField f)) as [rel|]; [|by intros msg].
  apply clean_bind; [apply clean_requireField|]. intros r _.
  apply clean_bind; [apply clean_getProperty|]. intros x _.
  apply clean_bind.
  { destruct x; try apply clean_Ok; apply clean_getProperty. }
  intros existing _. apply clean_bind.
  { destruct (truthy existing); [apply clean_Ok|apply clean_setProperty]. }
  intros d1 _. destruct (truthy_name _) as [opp|]; [|by intros msg].
  apply clean_bind; [apply clean_setProperty|]. intros c _.
  apply clean_bind; [apply clean_getProperty|]. intros r1 _. apply clean_Ok.
Qed.

Lemma clean_typeDef (fuel : nat) (type : string) (data : value) :
  truthy userContext = true ->
  notValidationError (setDefaultValueForTypeDefData fuel type data).
Proof.
  intros Hu. revert type data. induction fuel as [|fuel IH]; intros type data; simpl.
  - destruct (_ || _); [apply clean_Ok|].
    destruct (getTypeDefInfo meta type); [by intros msg|apply clean_Ok].
  - destruct (_ || _); [apply clean_Ok|].
    destruct (getTypeDefInfo meta type) as [fields|]; [|apply clean_Ok].
    assert (Hitem : forall item,
              notValidationError
                (typeDefItem (setDefaultValueForTypeDefData fuel) fields item)).
    { intros item. unfold Payload.typeDefItem.
      destruct (_ || _); [apply clean_Ok|]. apply clean_foldM.
      intros item0 f. unfold Payload.typeDefField. destruct (isTypeDef f).
      - apply clean_bind; [apply clean_getProperty|]. intros sub _.
        apply clean_bind; [apply IH|]. intros sub' _. apply clean_Ok.
      - apply clean_bind; [apply clean_hasProperty|]. intros [|] _; [apply clean_Ok|].
        apply clean_bind; [by apply clean_getDefaultValue|].
        intros v _. destruct v; try apply clean_Ok; apply clean_setProperty. }
    unfold overEnumerated. destruct data; try apply Hitem; try apply clean_Ok.
    intros msg. pose proof (clean_forEachM _ items Hitem msg) as Hclean.
    unfold fmap, result_fmap.
    destruct (forEachM _ items) as [xs|e|] eqn:Hrun; [done| |done].
    intros [= ->]. done.
Qed.

(** With a caller identity the handler never raises the error that asks
    for one: what it can throw is a [TypeError] or a configuration error. *)
Theorem identity_no_validation_error (fuel : nat) (model : string) (d : value)
    (msg : string) :
  truthy userContext = true ->
  processCreatePayload fuel model d <> Throw (ValidationError msg).
Proof.
  intros Hu. revert msg. change (notValidationError (processCreatePayload fuel model d)).
  unfold Payload.processCreatePayload.
  destruct (getFields meta model) as [fields|]; [|by intros msg].
  apply clean_foldM. intros d0 f. unfold Payload.processField.
  destruct (isTypeDef f).
  - apply clean_bind; [apply clean_getProperty|]. intros sub _.
    apply clean_bind; [by apply clean_typeDef|]. intros sub' _. apply clean_Ok.
  - apply clean_bind; [apply clean_hasProperty|]. intros [|] _; [apply clean_Ok|].
    destruct (defaultValueProvider f) as [provider|]; [|apply clean_Ok].
    apply clean_bind; [by apply clean_getDefaultValue|].
    intros v _. destruct v; try apply clean_Ok;
      apply clean_setDefaultValueForModelData.
Qed.

(** *** Embedded objects *)

Lemma typeDefField_shape (recurse : string -> value -> result value)
    (item item' : value) (f : FieldInfo) :
  typeDefField recurse item f = Ok item' ->
  exists ps ps', item = VObj ps /\ item' = VObj ps' /\ itemStepShape f ps ps'.
Proof.
  unfold Payload.typeDefField. destruct (isTypeDef f) eqn:Htd.
  - destruct item as [| | | | |ps|]; try done. simpl.
    destruct (recurse _ _) as [sub'| |]; [|done|done]. simpl.
    intros [= <-]. exists ps. destruct (assoc_mem (name f) ps) eqn:Hmem.
    + eexists. split; [done|]. split; [done|]. right. left. eauto.
    + exists ps. split; [done|]. split; [done|]. by left.
  - destruct item as [| | | | |ps|]; try done. simpl.
    destruct (assoc_mem (name f) ps) eqn:Hmem.
    { intros [= <-]. exists ps, ps. split; [done|]. split; [done|]. by left. }
    destruct (getDefaultValue f) as [v| |]; [|done|done]. simpl.
    destruct v; intros [= <-]; eexists ps, _; (split; [done|]); (split; [done|]);
      first [by left|right; right; eauto].
Qed.

Lemma itemStep_mem_mono (f : FieldInfo) (ps ps' : list (string * value))
    (k : string) :
  itemStepShape f ps ps' -> assoc_mem k ps = true -> assoc_mem k ps' = true.
Proof.
  intros [->|[(_ & _ & x & ->)|(_ & _ & x & ->)]] Hk; [done|..];
    by apply assoc_mem_set_mono.
Qed.

Lemma itemStep_get_frame (f : FieldInfo) (ps ps' : list (string * value))
    (k : string) :
  itemStepShape f ps ps' ->
  assoc_mem k ps = true ->
  (isTypeDef f = true -> name f <> k) ->
  assoc_get k ps' = assoc_get k ps.
Proof.
  intros [->|[(Htd & _ & x & ->)|(_ & Habs & x & ->)]] Hk Hne; [done|..].
  - apply assoc_get_set_ne. by apply Hne.
  - apply assoc_get_set_ne. intros Heq. congruence.
Qed.

Lemma itemStep_absent_frame (f : FieldInfo) (ps ps' : list (string * value))
    (k : string) :
  itemStepShape f ps ps' ->
  assoc_mem k ps = false -> name f <> k -> assoc_mem k ps' = false.
Proof.
  intros [->|[(_ & _ & x & ->)|(_ & _ & x & ->)]] Hk Hne; [done|..];
    by rewrite assoc_mem_set_ne.
Qed.

Lemma typeDefFields_obj (recurse : string -> value -> result value)
    (fs : list FieldInfo) (ps : list (string * value)) (d' : value) :
  foldM (typeDefField recurse) fs (VObj ps) = Ok d' -> exists ps', d' = VObj ps'.
Proof.
  revert ps. induction fs as [|f fs IH]; intros ps; simpl.
  - intros [= <-]. by exists ps.
  - destruct (typeDefField recurse (VObj ps) f) as [d1| |] eqn:Hstep; [|done|done].
    apply typeDefField_shape in Hstep as (ps0 & ps1 & _ & -> & _). apply IH.
Qed.

Lemma typeDefFields_frame (recurse : string -> value -> result value)
    (fs : list FieldInfo) (ps ps' : list (string * value)) (k : string) :
  foldM (typeDefField recurse) fs (VObj ps) = Ok (VObj ps') ->
  (assoc_mem k ps = true -> assoc_mem k ps' = true) /\
  (assoc_mem k ps = true ->
   (forall g, In g fs -> isTypeDef g = true -> name g <> k) ->
   assoc_get k ps' = assoc_get k ps) /\
  (assoc_mem k ps = false ->
   (forall g, In g fs -> name g <> k) -> assoc_mem k ps' = false).
Proof.
  revert ps. induction fs as [|f fs IH]; intros ps; simpl.
  - by intros [= <-].
  - destruct (typeDefField recurse (VObj ps) f) as [d1| |] eqn:Hstep; [|done|done].
    apply typeDefField_shape in Hstep as (ps0 & ps1 & [= <-] & -> & Hshape).
    intros (Hmono & Hget & Habs)%IH. split; [|split].
    + intros Hk. apply Hmono. by eapply itemStep_mem_mono.
    + intros Hk Hne. rewrite Hget.
      * by eapply itemStep_mem_mono.
      * intros g Hg. apply Hne. by right.
      * eapply itemStep_get_frame; [done|done|]. apply Hne. by left.
    + intros Hk Hne. apply Habs.
      * eapply itemStep_absent_frame; [done|done|]. apply Hne. by left.
      * intros g Hg. apply Hne. by right.
Qed.

(** The pass over an object of a known type-def is the loop over its
    sub-fields. *)
Lemma typeDef_object (fuel : nat) (type : string) (fields : list FieldInfo)
    (ps : list (string * value)) :
  getTypeDefInfo meta type = Some fields ->
  setDefaultValueForTypeDefData (S fuel) type (VObj ps) =
  foldM (typeDefField (setDefaultValueForTypeDefData fuel)) fields (VObj ps).
Proof. intros Hfields. by rewrite /= Hfields. Qed.

(** With a caller identity, an embedded object that leaves out a sub-field
    with a default comes out with that sub-field set to
    [provider(identity)]. *)
Theorem typeDef_default_injected (fuel : nat) (type : string)
    (pre post : list FieldInfo) (f : FieldInfo) (provider : value -> value)
    (ps : list (string * value)) (d' : value) :
  truthy userContext = true ->
  getTypeDefInfo meta type = Some (pre ++ f :: post) ->
  distinctNames (map name (pre ++ f :: post)) = true ->
  isTypeDef f = false ->
  defaultValueProvider f = Some provider ->
  provider userContext <> VUndefined ->
  assoc_mem (name f) ps = false ->
  setDefaultValueForTypeDefData (S fuel) type (VObj ps) = Ok d' ->
  ownProperty d' (name f) = Some (provider userContext).
Proof.
  intros Hu Hfields Hdistinct Htd Hprov Hdef Habs.
  rewrite (typeDef_object _ _ _ _ Hfields). intros Hrun.
  rewrite map_app /= in Hdistinct.
  apply distinctNames_app in Hdistinct as [Hpre Hpost].
  destruct (foldM_app_inv _ _ _ _ _ _ Hrun) as (d1 & d2 & Hrun1 & Hstep & Hrun2).
  destruct (typeDefFields_obj _ _ _ _ Hrun1) as [ps1 ->].
  assert (Habs1 : assoc_mem (name f) ps1 = false).
  { apply (typeDefFields_frame _ _ _ _ (name f) Hrun1); [done|].
    intros g Hg Heq. apply Hpre. rewrite -Heq. by apply in_map. }
  revert Hstep. unfold Payload.typeDefField, Payload.getDefaultValue.
  rewrite Htd /= Habs1 Hu Hprov /=.
  assert (Hset : match provider userContext with
                 | VUndefined => Ok (VObj ps1)
                 | _ => Ok (VObj (assoc_set (name f) (provider userContext) ps1))
                 end = Ok (VObj (assoc_set (name f) (provider userContext) ps1))).
  { by destruct (provider userContext). }
  rewrite Hset. intros [= <-].
  destruct (typeDefFields_obj _ _ _ _ Hrun2) as [ps' ->]. simpl.
  destruct (typeDefFields_frame _ _ _ _ (name f) Hrun2) as (_ & Hget & _).
  rewrite Hget.
  - apply assoc_mem_set_eq.
  - intros g Hg _ Heq. apply Hpost. rewrite -Heq. by apply in_map.
  - apply assoc_get_set_eq.
Qed.

(** What an embedded object holds under a key that is not a nested
    type-def field stays as it is, default or not. *)
Theorem typeDef_property_kept (fuel : nat) (type k : string)
    (fields : list FieldInfo) (ps : list (string * value)) (x d' : value) :
  getTypeDefInfo meta type = Some fields ->
  (forall g, In g fields -> isTypeDef g = true -> name g <> k) ->
  assoc_get k ps = Some x ->
  setDefaultValueForTypeDefData (S fuel) type (VObj ps) = Ok d' ->
  ownProperty d' k = Some x.
Proof.
  intros Hfields Hne Hk. rewrite (typeDef_object _ _ _ _ Hfields). intros Hrun.
  destruct (typeDefFields_obj _ _ _ _ Hrun) as [ps' ->]. simpl.
  destruct (typeDefFields_frame _ _ _ _ k Hrun) as (_ & Hget & _).
  rewrite Hget //. by rewrite /assoc_mem Hk.
Qed.

(** An array of embedded values is gone through item by item, in order,
    each item coming out as it would if it were given alone. *)
Theorem typeDef_array_itemwise (fuel : nat) (type : string) (items : list value)
    (d' : value) :
  setDefaultValueForTypeDefData (S fuel) type (VArr items) = Ok d' ->
  exists items',
    d' = VArr items' /\
    Forall2 (fun item item' =>
               isArray item = false ->
               setDefaultValueForTypeDefData (S fuel) type item = Ok item')
      items items'.
Proof.
  simpl. destruct (getTypeDefInfo meta type) as [fields|] eqn:Hfields.
  - unfold fmap, result_fmap.
    destruct (forEachM _ items) as [items'| |] eqn:Hrun; [|done|done].
    intros [= <-]. exists items'. split; [done|].
    apply forEachM_Forall2 in Hrun.
    eapply Forall2_impl; [exact Hrun|]. intros item item' Hitem Harr.
    rewrite -Hitem. unfold Payload.typeDefItem.
    by destruct item; rewrite /= ?Hfields ?orb_true_r.
  - intros [= <-]. exists items. split; [done|].
    apply Forall_Forall2_diag. apply Forall_forall. intros item _ _.
    by destruct item; rewrite /= ?Hfields ?orb_true_r.
Qed.

(** *** A second pass changes nothing *)

Lemma foldM_fixed {A B : Type} (body : A -> B -> result A) (xs : list B) (a : A) :
  (forall x, In x xs -> body a x = Ok a) -> foldM body xs a = Ok a.
Proof.
  induction xs as [|x xs IH]; intros Hbody; simpl; [done|].
  rewrite Hbody /=; [by left|]. apply IH. intros y Hy. apply Hbody. by right.
Qed.

Lemma distinct_split (fields pre post : list FieldInfo) (f g : FieldInfo) :
  distinctNames (map name fields) = true ->
  fields = pre ++ f :: post ->
  In g pre \/ In g post -> name g <> name f.
Proof.
  intros Hdistinct -> Hg. rewrite map_app /= in Hdistinct.
  apply distinctNames_app in Hdistinct as [Hpre Hpost].
  intros Heq. rewrite -Heq in Hpre Hpost.
  destruct Hg as [Hg|Hg]; [apply Hpre|apply Hpost]; by apply in_map.
Qed.

Lemma typeDefFields_idempotent (recurse : string -> value -> result value)
    (fields : list FieldInfo) (ps : list (string * value)) (d' : value) :
  (forall t x x', recurse t x = Ok x' -> recurse t x' = Ok x') ->
  distinctNames (map name fields) = true ->
  foldM (typeDefField recurse) fields (VObj ps) = Ok d' ->
  foldM (typeDefField recurse) fields d' = Ok d'.
Proof.
  intros Hrec Hdistinct Hrun. apply foldM_fixed. intros f Hf.
  destruct (in_split _ _ Hf) as (pre & post & Hsplit).
  pose proof (fun g => distinct_split _ _ _ f g Hdistinct Hsplit) as Hne.
  rewrite Hsplit in Hrun.
  destruct (foldM_app_inv _ _ _ _ _ _ Hrun) as (d1 & d2 & Hrun1 & Hstep & Hrun2).
  destruct (typeDefFields_obj _ _ _ _ Hrun1) as [ps1 ->].
  destruct (typeDefField_shape _ _ _ _ Hstep) as (ps0 & ps2 & _ & -> & _).
  destruct (typeDefFields_obj _ _ _ _ Hrun2) as [ps' ->].
  destruct (typeDefFields_frame _ _ _ _ (name f) Hrun2) as (Hmono & Hget & Habs).
  revert Hstep. unfold Payload.typeDefField. destruct (isTypeDef f) eqn:Htd.
  - simpl. destruct (assoc_get (name f) ps1) as [x|] eqn:Hx; simpl.
    + destruct (recurse (type f) x) as [sub'| |] eqn:Hsub; [|done|done]. simpl.
      rewrite /assoc_mem Hx. intros [= <-].
      assert (Hx' : assoc_get (name f) ps' = Some sub').
      { rewrite Hget.
        - apply assoc_mem_set_eq.
        - intros g Hg _. apply Hne. by right.
        - apply assoc_get_set_eq. }
      by rewrite Hx' /= (Hrec _ _ _ Hsub) /= assoc_set_same.
    + destruct (recurse (type f) VUndefined) as [sub'| |] eqn:Hsub; [|done|done].
      rewrite /= /assoc_mem Hx. intros [= <-].
      assert (Hx' : assoc_mem (name f) ps' = false).
      { apply Habs; [by rewrite /assoc_mem Hx|]. intros g Hg. apply Hne. by right. }
      apply assoc_mem_false in Hx'. by rewrite Hx' /= Hsub.
  - simpl. destruct (assoc_mem (name f) ps1) eqn:Hmem.
    { intros [= <-]. by rewrite (Hmono Hmem). }
    destruct (assoc_mem (name f) ps') eqn:Hmem'; [done|].
    destruct (getDefaultValue f) as [v| |]; [|done|done]. simpl.
    destruct v; try done; intros [= <-];
      by pose proof (Hmono (assoc_mem_set_eq _ _ _)).
Qed.

Lemma typeDefItem_idempotent (recurse : string -> value -> result value)
    (fields : list FieldInfo) (item item' : value) :
  (forall t x x', recurse t x = Ok x' -> recurse t x' = Ok x') ->
  distinctNames (map name fields) = true ->
  typeDefItem recurse fields item = Ok item' ->
  typeDefItem recurse fields item' = Ok item'.
Proof.
  intros Hrec Hdistinct. unfold Payload.typeDefItem.
  destruct (negb (truthy item) || negb (typeof_object item)) eqn:Hearly.
  { intros [= <-]. by rewrite Hearly. }
  destruct fields as [|f fields].
  { intros [= <-]. by rewrite Hearly. }
  intros Hrun. assert (exists ps, item = VObj ps) as [ps ->].
  { simpl in Hrun.
    destruct (typeDefField recurse item f) as [d1| |] eqn:Hstep; [|done|done].
    apply typeDefField_shape in Hstep as (ps & _ & -> & _). by exists ps. }
  destruct (typeDefFields_obj _ _ _ _ Hrun) as [ps' ->].
  change (foldM (typeDefField recurse) (f :: fields) (VObj ps') = Ok (VObj ps')).
  by apply (typeDefFields_idempotent recurse _ ps).
Qed.

Lemma typeDef_idempotent (fuel : nat) (type : string) (x x' : value) :
  typeDefsDistinct meta ->
  setDefaultValueForTypeDefData fuel type x = Ok x' ->
  setDefaultValueForTypeDefData fuel type x' = Ok x'.
Proof.
  intros Hdistinct. revert type x x'.
  induction fuel as [|fuel IH]; intros type x x'; simpl.
  - destruct (_ || _) eqn:Hearly.
    { intros [= <-]. by rewrite Hearly. }
    destruct (getTypeDefInfo meta type); [done|].
    intros [= <-]. by rewrite Hearly.
  - destruct (negb (truthy x) || negb (typeof_object x) && negb (isArray x))
      eqn:Hearly.
    { intros [= <-]. by rewrite Hearly. }
    destruct (getTypeDefInfo meta type) as [fields|] eqn:Hfields.
    2:{ intros [= <-]. by rewrite Hearly. }
    pose proof (Hdistinct _ _ Hfields) as Hnames.
    pose proof (fun item item' =>
                  typeDefItem_idempotent (setDefaultValueForTypeDefData fuel)
                    fields item item' IH Hnames) as Hitem.
    destruct x as [| | | | |ps|items]; simpl in Hearly;
      rewrite ?orb_true_r in Hearly; try done; simpl.
    + intros Hrun. pose proof Hrun as Hrun'. unfold Payload.typeDefItem in Hrun'.
      simpl in Hrun'. destruct (typeDefFields_obj _ _ _ _ Hrun') as [ps' ->].
      by apply (Hitem (VObj ps)).
    + unfold fmap, result_fmap.
      destruct (forEachM _ items) as [items'| |] eqn:Hrun; [|done|done].
      intros [= <-]. simpl. apply forEachM_Forall2 in Hrun.
      rewrite (forEachM_same _ items'); [|done].
      clear -Hrun Hitem IH Hnames. induction Hrun as [|item item' items items' Hi _ IHrun].
      * constructor.
      * constructor; [|done]. by apply (Hitem item).
Qed.

(** Processing a payload that has been processed returns it as it is:
    every default a second pass would look for is already there, or is
    guarded by the relation the first pass has set. *)
Theorem processCreatePayload_idempotent (fuel : nat) (model : string)
    (fields : list FieldInfo) (d d' : value) :
  getFields meta model = Some fields ->
  wellFormedFields fields = true ->
  typeDefsDistinct meta ->
  processCreatePayload fuel model d = Ok d' ->
  processCreatePayload fuel model d' = Ok d'.
Proof.
  intros Hfields Hwf Hdistinct. unfold Payload.processCreatePayload.
  rewrite Hfields. intros Hrun. apply foldM_fixed. intros f Hf.
  destruct (in_split _ _ Hf) as (pre & post & Hsplit).
  rewrite Hsplit in Hrun Hwf.
  pose proof (wellFormed_distinct pre post f) as Hne.
  destruct (foldM_app_inv _ _ _ _ _ _ Hrun) as (d1 & d2 & Hrun1 & Hstep & Hrun2).
  destruct (processField_shape _ _ _ _ _ _ _ _ Hstep)
    as (ps1 & ps2 & -> & -> & _).
  destruct (processFields_obj _ _ _ _ _ _ _ _ Hrun2) as [ps' ->].
  pose proof (processFields_mem_mono _ _ _ _ _ _ _ ps' (name f) Hrun2) as Hmono.
  assert (Hpost_in : forall g, In g post -> In g (pre ++ f :: post)).
  { intros g Hg. apply in_or_app. right. by right. }
  assert (Hf_in : In f (pre ++ f :: post)).
  { apply in_or_app. right. by left. }
  revert Hstep. unfold Payload.processField. destruct (isTypeDef f) eqn:Htd.
  - simpl. destruct (assoc_get (name f) ps1) as [x|] eqn:Hx; simpl.
    + destruct (setDefaultValueForTypeDefData fuel (type f) x) as [sub'| |] eqn:Hsub;
        [|done|done].
      rewrite /= /assoc_mem Hx. intros [= <-].
      assert (Hx' : assoc_get (name f) ps' = Some sub').
      { erewrite processFields_get_frame; [|exact Hrun2| |].
        - apply assoc_get_set_eq.
        - apply assoc_mem_set_eq.
        - intros g Hg _. apply Hne; [done|by right]. }
      by rewrite Hx' /= (typeDef_idempotent _ _ _ _ Hdistinct Hsub) /=
           assoc_set_same.
    + rewrite /assoc_mem Hx.
      assert (Hund : setDefaultValueForTypeDefData fuel (type f) VUndefined =
                     Ok VUndefined) by by destruct fuel.
      rewrite Hund /=. intros [= <-].
      assert (Hx' : assoc_mem (name f) ps' = false).
      { eapply processFields_absent_frame; [exact Hrun2|by rewrite /assoc_mem Hx|].
        intros g Hg. split.
        - left. apply Hne; [done|by right].
        - intros Hrel.
          destruct (wellFormed_target _ g f Hwf) as (Hno & _); auto. congruence. }
      apply assoc_mem_false in Hx'. by rewrite Hx' /= Hund.
  - simpl. destruct (assoc_mem (name f) ps1) eqn:Hmem.
    { intros [= <-]. by rewrite (Hmono Hmem). }
    destruct (assoc_mem (name f) ps') eqn:Hmem'; [done|].
    destruct (defaultValueProvider f) as [provider|] eqn:Hprov; [|done].
    unfold Payload.getDefaultValue. destruct (truthy userContext) eqn:Hu; [|done].
    rewrite /= Hprov.
    assert (provider userContext = VUndefined \/ provider userContext <> VUndefined)
      as [->|Hdef]; [by destruct (provider userContext); auto|done|].
    assert (Hgo : forall (ps0 : list (string * value)),
              match provider userContext with
              | VUndefined => Ok (VObj ps0)
              | _ => setDefaultValueForModelData f model (VObj ps0)
                       (provider userContext)
              end = setDefaultValueForModelData f model (VObj ps0)
                      (provider userContext)).
    { intros ps0. by destruct (provider userContext). }
    rewrite !Hgo. clear Hgo.
    assert (Hskip : forall rel, isForeignKey f = true ->
              truthy_name (relationField f) = Some rel ->
              assoc_mem rel ps2 = true ->
              setDefaultValueForModelData f model (VObj ps') (provider userContext)
              = Ok (VObj ps')).
    { intros rel Hfk Hrel Hin. apply (setDefault_skip _ _ _ _ rel); [done|done|].
      by apply (processFields_mem_mono _ _ _ _ _ _ _ ps' rel Hrun2). }
    pose proof (relationAlreadySet_obj f ps1) as Hguard.
    destruct (isForeignKey f) eqn:Hfk; simpl in Hguard.
    + destruct (truthy_name (relationField f)) as [rel|] eqn:Hrel.
      * destruct (assoc_mem rel ps1) eqn:Hrelmem.
        { rewrite (setDefault_skip _ _ _ _ rel) //. intros [= <-]. by eapply Hskip. }
        destruct (isUnsafeMutate model (VObj ps1)) eqn:Hunsafe.
        { rewrite setDefault_scalar //; [by rewrite Hfk Hunsafe|].
          intros [= <-]. by pose proof (Hmono (assoc_mem_set_eq _ _ _)). }
        destruct (requireField meta model rel) as [r| |] eqn:Hreq.
        2,3: by unfold Payload.setDefaultValueForModelData;
             rewrite Hguard Hfk Hunsafe /= Hrel Hreq.
        rewrite (setDefault_connect _ _ _ r _ rel) //.
        destruct (truthy_name (Payload.getOppositeFkFieldName r f)); [|done].
        intros [= <-]. eapply Hskip; [done|done|apply assoc_mem_set_eq].
      * destruct (isUnsafeMutate model (VObj ps1)) eqn:Hunsafe.
        { rewrite setDefault_scalar //; [by rewrite Hfk Hunsafe|].
          intros [= <-]. by pose proof (Hmono (assoc_mem_set_eq _ _ _)). }
        by unfold Payload.setDefaultValueForModelData;
           rewrite Hguard Hfk Hunsafe /= Hrel.
    + rewrite setDefault_scalar //; [by rewrite Hfk|].
      intros [= <-]. by pose proof (Hmono (assoc_mem_set_eq _ _ _)).
Qed.

(** *** What the handler leaves of the payload *)

Lemma stepShape_keys (f : FieldInfo) (ps ps' : list (string * value)) :
  stepShape f ps ps' ->
  ps'.*1 = ps.*1 \/
  exists k, ps'.*1 = ps.*1 ++ [k] /\ assoc_mem k ps = false /\
    isTypeDef f = false /\ defaultValueProvider f <> None /\
    (k = name f \/ (isForeignKey f = true /\ relationField f = Some k)).
Proof.
  intros [->|[(_ & Hmem & x & ->)|(Htd & _ & Hprov & k & x & -> & Hk & Hwhich)]].
  - by left.
  - left. by apply assoc_set_keys.
  - right. exists k. rewrite assoc_set_absent; [by apply assoc_mem_false|].
    by rewrite fmap_app.
Qed.

Lemma processFields_keys (fuel : nat) (model : string) (fs : list FieldInfo)
    (ps ps' : list (string * value)) :
  foldM (processField fuel model) fs (VObj ps) = Ok (VObj ps') ->
  exists added,
    ps'.*1 = ps.*1 ++ added /\
    forall k, In k added ->
      assoc_mem k ps = false /\
      exists f, In f fs /\ isTypeDef f = false /\ defaultValueProvider f <> None /\
        (k = name f \/ (isForeignKey f = true /\ relationField f = Some k)).
Proof.
  revert ps. induction fs as [|f fs IH]; intros ps; simpl.
  - intros [= <-]. exists []. by rewrite app_nil_r.
  - destruct (processField fuel model (VObj ps) f) as [d1| |] eqn:Hstep; [|done|done].
    destruct (processField_shape _ _ _ _ _ _ _ _ Hstep)
      as (ps0 & ps1 & [= <-] & -> & Hshape).
    intros (added & Hkeys & Hadded)%IH.
    assert (Hlater : forall k, In k added ->
              assoc_mem k ps = false /\
              exists g, In g (f :: fs) /\ isTypeDef g = false /\
                defaultValueProvider g <> None /\
                (k = name g \/ (isForeignKey g = true /\ relationField g = Some k))).
    { intros k Hk. destruct (Hadded k Hk) as (Habs & g & Hg & Hrest). split.
      - destruct (assoc_mem k ps) eqn:Hmem; [|done].
        by rewrite (stepShape_mem_mono _ _ _ _ Hshape Hmem) in Habs.
      - exists g. split; [by right|done]. }
    destruct (stepShape_keys _ _ _ Hshape) as [Hsame|(k & Hone & Hk & Hrest)].
    + exists added. by rewrite Hkeys Hsame.
    + exists (k :: added). split.
      * by rewrite Hkeys Hone -app_assoc.
      * intros k' [<-|Hk']; [|by apply Hlater].
        split; [done|]. exists f. split; [by left|done].
Qed.

(** The processed payload has the keys of the input, in their order,
    followed by the keys the handler added; a key is added only for a
    field with a default that was left out, under the field's name or under
    the name of the relation the field backs; and what the input held
    under a key that is not an embedded field is still there. *)
Theorem payload_frame (fuel : nat) (model : string) (fields : list FieldInfo)
    (ps : list (string * value)) (d' : value) :
  getFields meta model = Some fields ->
  processCreatePayload fuel model (VObj ps) = Ok d' ->
  exists ps' added,
    d' = VObj ps' /\
    ps'.*1 = ps.*1 ++ added /\
    (forall k, In k added ->
       assoc_mem k ps = false /\
       exists f, In f fields /\ isTypeDef f = false /\
         defaultValueProvider f <> None /\
         (k = name f \/ (isForeignKey f = true /\ relationField f = Some k))) /\
    (forall k, assoc_mem k ps = true ->
       (forall g, In g fields -> isTypeDef g = true -> name g <> k) ->
       assoc_get k ps' = assoc_get k ps).
Proof.
  intros Hfields. unfold Payload.processCreatePayload. rewrite Hfields.
  intros Hrun. destruct (processFields_obj _ _ _ _ _ _ _ _ Hrun) as [ps' ->].
  destruct (processFields_keys _ _ _ _ _ Hrun) as (added & Hkeys & Hadded).
  exists ps', added. split; [done|]. split; [done|]. split; [done|].
  intros k Hk Hne. by eapply processFields_get_frame.
Qed.

End PayloadMore.

Lemma anonymous_payload_unchanged_witness :
  VObj [("title", VStr "t"); ("authorId", VStr "u9")] =
  VObj [("title", VStr "t"); ("authorId", VStr "u9")].
Proof.
  apply (anonymous_payload_unchanged exampleMeta VUndefined neverUnsafe 1 "Post");
    reflexivity.
Defined.

Lemma identity_no_validation_error_witness :
  Payload.processCreatePayload exampleMeta alice neverUnsafe 1 "Orphan" (VObj []) <>
  Throw (ValidationError
           "Evaluating default value of field `ownerId` requires a user context").
Proof. apply identity_no_validation_error. reflexivity. Defined.

Lemma typeDef_default_injected_witness :
  ownProperty (VObj [("tag", VStr "x"); ("by", VStr "u1")]) (name byField) =
  Some (authId alice).
Proof.
  apply (typeDef_default_injected exampleMeta alice 0 "Meta" [tagField] []
           byField authId [("tag", VStr "x")]); try reflexivity.
  discriminate.
Defined.

Lemma typeDef_property_kept_witness :
  ownProperty (VObj [("by", VStr "x")]) "by" = Some (VStr "x").
Proof.
  apply (typeDef_property_kept exampleMeta alice 0 "Meta" "by"
           [tagField; byField] [("by", VStr "x")]); try reflexivity.
  intros g [<-|[<-|[]]]; discriminate.
Defined.

Lemma typeDef_array_itemwise_witness :
  exists items',
    VArr [VObj [("by", VStr "u1")]; VStr "s"] = VArr items' /\
    Forall2 (fun item item' =>
               isArray item = false ->
               Payload.setDefaultValueForTypeDefData exampleMeta alice 1 "Meta"
                 item = Ok item')
      [VObj []; VStr "s"] items'.
Proof.
  apply (typeDef_array_itemwise exampleMeta alice 0 "Meta"). reflexivity.
Defined.

Lemma exampleMeta_typeDefsDistinct : typeDefsDistinct exampleMeta.
Proof.
  intros type fields. unfold getTypeDefInfo. simpl.
  destruct (String.eqb type "Meta"); [|done]. by intros [= <-].
Qed.

Lemma processCreatePayload_idempotent_witness :
  Payload.processCreatePayload exampleMeta alice neverUnsafe 1 "Post"
    (VObj [("title", VStr "t"); ("meta", VObj [("by", VStr "u1")]);
           ("author", VObj [("connect", VObj [("id", VStr "u1")])])]) =
  Ok (VObj [("title", VStr "t"); ("meta", VObj [("by", VStr "u1")]);
            ("author", VObj [("connect", VObj [("id", VStr "u1")])])]).
Proof.
  apply (processCreatePayload_idempotent exampleMeta alice neverUnsafe 1 "Post"
           postFields (VObj [("title", VStr "t"); ("meta", VObj [])])).
  - reflexivity.
  - reflexivity.
  - exact exampleMeta_typeDefsDistinct.
  - reflexivity.
Defined.

Lemma payload_frame_witness :
  exists ps' added,
    VObj [("title", VStr "t");
          ("author", VObj [("connect", VObj [("id", VStr "u1")])])] = VObj ps' /\
    ps'.*1 = [("title", VStr "t")].*1 ++ added /\
    (forall k, In k added ->
       assoc_mem k [("title", VStr "t")] = false /\
       exists f, In f postFields /\ isTypeDef f = false /\
         defaultValueProvider f <> None /\
         (k = name f \/ (isForeignKey f = true /\ relationField f = Some k))) /\
    (forall k, assoc_mem k [("title", VStr "t")] = true ->
       (forall g, In g postFields -> isTypeDef g = true -> name g <> k) ->
       assoc_get k ps' = assoc_get k [("title", VStr "t")]).
Proof.
  apply (payload_frame exampleMeta alice neverUnsafe 1 "Post" postFields
           [("title", VStr "t")]); reflexivity.
Defined.

(** ** The inheritance hierarchy *)

Section HierarchyFacts.

Local Abbreviation isDescendantOf := Hierarchy.isDescendantOf.
Local Abbreviation inherits := Hierarchy.inherits.
Local Abbreviation someM := Hierarchy.someM.
Local Abbreviation superTypes := Hierarchy.superTypes.

Lemma someM_true {A : Type} (p : A -> result bool) (xs : list A) :
  someM p xs = Ok true -> exists x, In x xs /\ p x = Ok true.
Proof.
  induction xs as [|x xs IH]; simpl; [done|].
  destruct (p x) as [[|]| |] eqn:Hx; simpl; try done.
  - intros _. exists x. split; [by left|done].
  - intros (y & Hy & Hp)%IH. exists y. split; [by right|done].
Qed.

Lemma someM_decides {A : Type} (p : A -> result bool) (xs : list A)
    (holds : A -> Prop) :
  (forall x, In x xs -> exists b, p x = Ok b /\ (b = true <-> holds x)) ->
  exists b, someM p xs = Ok b /\ (b = true <-> exists x, In x xs /\ holds x).
Proof.
  induction xs as [|x xs IH]; intros Hp; simpl.
  - exists false. split; [done|]. split; [done|]. by intros (x & [] & _).
  - destruct (Hp x (or_introl eq_refl)) as (b & -> & Hb). simpl.
    destruct b.
    + exists true. split; [done|]. split; [|done]. intros _. exists x.
      split; [by left|]. by apply Hb.
    + destruct IH as (b & -> & Hrest).
      { intros y Hy. apply Hp. by right. }
      exists b. split; [done|]. rewrite Hrest. split.
      * intros (y & Hy & Hholds). exists y. split; [by right|done].
      * intros (y & [<-|Hy] & Hholds).
        -- apply Hb in Hholds. done.
        -- by exists y.
Qed.

Lemma inherits_rank (decls : Hierarchy.Declarations)
    (rank : Hierarchy.ModelRef -> nat) :
  Hierarchy.acyclic decls rank ->
  forall m s, inherits decls m s -> rank s < rank m.
Proof.
  intros Hacyclic m s. induction 1 as [m s d Hm Hin|m mid s d Hm Hin _ IH].
  - by destruct (Hacyclic _ _ _ Hm Hin).
  - destruct (Hacyclic _ _ _ Hm Hin). lia.
Qed.

(** When [isDescendantOf] answers yes, [superModel] is reached from
    [model] through [superTypes]. *)
Theorem isDescendantOf_sound (fuel : nat) (decls : Hierarchy.Declarations)
    (m s : Hierarchy.ModelRef) :
  isDescendantOf fuel decls (Some m) s = Ok true -> inherits decls m s.
Proof.
  revert m. induction fuel as [|fuel IH]; intros m; simpl; [done|].
  destruct (decls !! m) as [d|] eqn:Hm; [|done].
  intros (r & Hr & Hp)%someM_true. revert Hp.
  destruct (bool_decide_reflect (r = Some s)) as [->|Hne]; intros Hp.
  - by eapply Hierarchy.inherits_base.
  - destruct r as [mid|]; [|by destruct fuel].
    eapply Hierarchy.inherits_up; [done|done|]. by apply IH.
Qed.

(** In a hierarchy without cycles whose references are resolved,
    [isDescendantOf] returns, and says whether [superModel] is reached from
    [model]; a model is no descendant of itself. *)
Theorem isDescendantOf_decides (fuel : nat) (decls : Hierarchy.Declarations)
    (rank : Hierarchy.ModelRef -> nat) (m s : Hierarchy.ModelRef) :
  Hierarchy.acyclic decls rank ->
  Hierarchy.resolved decls ->
  is_Some (decls !! m) ->
  rank m < fuel ->
  exists b, isDescendantOf fuel decls (Some m) s = Ok b /\
            (b = true <-> inherits decls m s) /\
            (m = s -> b = false).
Proof.
  intros Hacyclic Hresolved. revert m.
  pose proof (inherits_rank decls rank Hacyclic) as Hrank.
  induction fuel as [|fuel IH]; intros m [d Hm] Hfuel; [lia|]. simpl. rewrite Hm.
  destruct (someM_decides
              (fun r => if bool_decide (r = Some s) then Ok true
                        else isDescendantOf fuel decls r s)
              (superTypes d)
              (fun r => r = Some s \/ exists mid, r = Some mid /\ inherits decls mid s))
    as (b & Hrun & Hb).
  { intros r Hr. destruct (Hresolved _ _ _ Hm Hr) as [mid ->].
    destruct (Hacyclic _ _ _ Hm Hr) as [Hmid Hlt].
    destruct (bool_decide_reflect (Some mid = Some s)) as [Heq|Hne].
    - exists true. split; [done|]. split; [by left|done].
    - destruct (IH mid Hmid) as (b & Hrun & Hb & _); [lia|].
      exists b. split; [done|]. rewrite Hb. split.
      + intros Hinh. right. by exists mid.
      + intros [Heq|(mid' & [= <-] & Hinh)]; done. }
  exists b. split; [done|].
  assert (Hiff : b = true <-> inherits decls m s).
  { rewrite Hb. split.
    - intros (r & Hr & [->|(mid & -> & Hinh)]).
      + by eapply Hierarchy.inherits_base.
      + by eapply Hierarchy.inherits_up.
    - intros Hinh. inversion Hinh as [? ? d' Hm' Hin|? mid ? d' Hm' Hin Hup]; subst.
      + assert (d' = d) as -> by congruence. exists (Some s). split; [done|by left].
      + assert (d' = d) as -> by congruence. exists (Some mid).
        split; [done|]. right. by exists mid. }
  split; [done|]. intros ->. destruct b; [|done].
  assert (Hself : inherits decls s s) by by apply Hiff.
  apply Hrank in Hself. lia.
Qed.

End HierarchyFacts.

Lemma firstM_Some {A B : Type} (f : A -> result (option B)) (xs : list A) (b : B) :
  Hierarchy.firstM f xs = Ok (Some b) -> exists x, In x xs /\ f x = Ok (Some b).
Proof.
  induction xs as [|x xs IH]; simpl; [done|].
  destruct (f x) as [[b0|]| |] eqn:Hx; simpl; try done.
  - intros [= ->]. exists x. split; [by left|done].
  - intros (y & Hy & Hf)%IH. exists y. split; [by right|done].
Qed.

Lemma firstM_returns {A B : Type} (f : A -> result (option B)) (xs : list A) :
  (forall x, In x xs -> exists r, f x = Ok r) ->
  exists r, Hierarchy.firstM f xs = Ok r /\
            (r = None <-> forall x, In x xs -> f x = Ok None).
Proof.
  induction xs as [|x xs IH]; intros Hf; simpl.
  - exists None. split; [done|]. split; [by intros _ x []|done].
  - destruct (Hf x (or_introl eq_refl)) as ([b|] & Hx); rewrite Hx /=.
    + exists (Some b). split; [done|]. split; [done|].
      intros Hall. specialize (Hall x (or_introl eq_refl)). congruence.
    + destruct IH as (r & -> & Hr).
      { intros y Hy. apply Hf. by right. }
      exists r. split; [done|]. rewrite Hr. split.
      * intros Hall y [<-|Hy]; [done|by apply Hall].
      * intros Hall y Hy. apply Hall. by right.
Qed.

Lemma ownMatch_Some (decls : Hierarchy.Declarations) (base : Hierarchy.DataModel)
    (target field : Hierarchy.DataModelField) :
  Hierarchy.ownMatch decls base target = Ok (Some field) ->
  Hierarchy.isDelegate base = true /\
  find (fun f => String.eqb (Hierarchy.fieldName f) (Hierarchy.fieldName target))
    (Hierarchy.fields base) = Some field /\
  Hierarchy.notFromDelegate decls field = Ok true.
Proof.
  unfold Hierarchy.ownMatch. destruct (Hierarchy.isDelegate base); [|done].
  destruct (find _ _) as [f|]; [|done].
  destruct (Hierarchy.notFromDelegate decls f) as [[|]| |] eqn:Hok; try done.
  by intros [= <-].
Qed.

(** The field that [findUpMatchingFieldFromDelegate] returns is the field
    named as the target of a delegate model that [start] inherits from, and
    that model did not inherit it from a delegate. *)
Theorem findUp_sound (fuel : nat) (decls : Hierarchy.Declarations)
    (start : Hierarchy.ModelRef) (target field : Hierarchy.DataModelField) :
  Hierarchy.findUpMatchingFieldFromDelegate fuel decls start target =
    Ok (Some field) ->
  exists a da,
    Hierarchy.inherits decls start a /\
    decls !! a = Some da /\
    Hierarchy.isDelegate da = true /\
    find (fun f => String.eqb (Hierarchy.fieldName f) (Hierarchy.fieldName target))
      (Hierarchy.fields da) = Some field /\
    Hierarchy.notFromDelegate decls field = Ok true.
Proof.
  revert start. induction fuel as [|fuel IH]; intros start; simpl; [done|].
  destruct (decls !! start) as [d|] eqn:Hstart; [|done].
  intros ([b|] & Hin & Hbase)%firstM_Some; [|done].
  destruct (decls !! b) as [bd|] eqn:Hb; [|done].
  destruct (Hierarchy.ownMatch decls bd target) as [[own|]| |] eqn:Hown;
    simpl in Hbase; try done.
  - injection Hbase as ->. apply ownMatch_Some in Hown as (Hdel & Hfind & Hnot).
    exists b, bd. split; [by eapply Hierarchy.inherits_base|done].
  - destruct (IH b Hbase) as (a & da & Hinh & Hrest).
    exists a, da. split; [by eapply Hierarchy.inherits_up|done].
Qed.

(** In a hierarchy without cycles, [findUpMatchingFieldFromDelegate]
    returns, and it returns nothing exactly when no model that [start]
    inherits from has a field to stop at. *)
Theorem findUp_decides (fuel : nat) (decls : Hierarchy.Declarations)
    (rank : Hierarchy.ModelRef -> nat) (start : Hierarchy.ModelRef)
    (target : Hierarchy.DataModelField) :
  Hierarchy.acyclic decls rank ->
  Hierarchy.inheritedFromOk decls ->
  is_Some (decls !! start) ->
  rank start < fuel ->
  exists r,
    Hierarchy.findUpMatchingFieldFromDelegate fuel decls start target = Ok r /\
    (r = None <->
     forall a da, Hierarchy.inherits decls start a -> decls !! a = Some da ->
       Hierarchy.ownMatch decls da target = Ok None).
Proof.
  intros Hacyclic Hfrom. revert start.
  assert (Hown : forall b bd, decls !! b = Some bd ->
            exists own, Hierarchy.ownMatch decls bd target = Ok own).
  { intros b bd Hb. unfold Hierarchy.ownMatch.
    destruct (Hierarchy.isDelegate bd); [|by eexists].
    destruct (find _ _) as [f|] eqn:Hfind; [|by eexists].
    apply find_some in Hfind as [Hin _]. unfold Hierarchy.notFromDelegate.
    destruct (Hierarchy.inheritedFrom f) as [up|] eqn:Hup; [|by eexists].
    destruct (Hfrom _ _ _ _ Hb Hin Hup) as [u ->]. by eexists. }
  induction fuel as [|fuel IH]; intros start [d Hstart] Hfuel; [lia|].
  simpl. rewrite Hstart.
  set (body := fun base : option Hierarchy.ModelRef => _).
  assert (Hbody : forall b bd, In (Some b) (Hierarchy.superTypes d) ->
            decls !! b = Some bd ->
            exists r, body (Some b) = Ok r /\
              (r = None <->
               Hierarchy.ownMatch decls bd target = Ok None /\
               forall a da, Hierarchy.inherits decls b a -> decls !! a = Some da ->
                 Hierarchy.ownMatch decls da target = Ok None)).
  { intros b bd Hin Hb. destruct (Hacyclic _ _ _ Hstart Hin) as [Hsome Hlt].
    destruct (IH b Hsome) as (r & Hrun & Hr); [lia|].
    unfold body. rewrite Hb. destruct (Hown _ _ Hb) as ([own|] & ->); simpl.
    - exists (Some own). split; [done|]. split; [done|]. by intros [[=] _].
    - exists r. split; [done|]. rewrite Hr. tauto. }
  destruct (firstM_returns body (Hierarchy.superTypes d)) as (r & Hrun & Hr).
  { intros [b|] Hin; [|by eexists].
    destruct (Hacyclic _ _ _ Hstart Hin) as [[bd Hb] _].
    destruct (Hbody b bd Hin Hb) as (r & Hrun & _). by exists r. }
  exists r. split; [done|]. rewrite Hr. split.
  - intros Hall a da Hinh Ha.
    inversion Hinh as [? ? d' Hm Hin|? mid ? d' Hm Hin Hup]; subst;
      assert (d' = d) as -> by congruence.
    + destruct (Hbody a da Hin Ha) as (r0 & Hrun0 & Hr0).
      rewrite (Hall _ Hin) in Hrun0. injection Hrun0 as <-. by apply Hr0.
    + destruct (Hacyclic _ _ _ Hstart Hin) as [[md Hmid] _].
      destruct (Hbody mid md Hin Hmid) as (r0 & Hrun0 & Hr0).
      rewrite (Hall _ Hin) in Hrun0. injection Hrun0 as <-.
      destruct Hr0 as [Hr0 _]. destruct (Hr0 eq_refl) as [_ Hup']. by eapply Hup'.
  - intros Hall [b|] Hin; [|done].
    destruct (Hacyclic _ _ _ Hstart Hin) as [[bd Hb] _].
    destruct (Hbody b bd Hin Hb) as (r0 & -> & Hr0). f_equal. apply Hr0. split.
    + eapply Hall; [|done]. by eapply Hierarchy.inherits_base.
    + intros a da Hinh Ha. eapply Hall; [|done]. by eapply Hierarchy.inherits_up.
Qed.

Lemma isDescendantOf_sound_witness :
  Hierarchy.inherits exampleHierarchy 2 0.
Proof. apply (isDescendantOf_sound 2). reflexivity. Defined.

Lemma exampleHierarchy_acyclic : Hierarchy.acyclic exampleHierarchy id.
Proof.
  intros [|[|[|[|m]]]] d s; simpl; intros [= <-]; simpl; try done.
  - intros [[= <-]|[]]. split; [by eexists|]. unfold id. lia.
  - intros [[= <-]|[]]. split; [by eexists|]. unfold id. lia.
Qed.

Lemma exampleHierarchy_resolved : Hierarchy.resolved exampleHierarchy.
Proof.
  intros [|[|[|[|m]]]] d r; simpl; intros [= <-]; simpl; try done.
  - intros [<-|[]]. by eexists.
  - intros [<-|[]]. by eexists.
Qed.

Lemma isDescendantOf_decides_witness :
  exists b, Hierarchy.isDescendantOf 3 exampleHierarchy (Some 2) 3 = Ok b /\
            (b = true <-> Hierarchy.inherits exampleHierarchy 2 3) /\
            (2 = 3 -> b = false).
Proof.
  apply (isDescendantOf_decides 3 exampleHierarchy id 2 3).
  - exact exampleHierarchy_acyclic.
  - exact exampleHierarchy_resolved.
  - by eexists.
  - unfold id. lia.
Defined.

Lemma findUp_sound_witness :
  exists a da,
    Hierarchy.inherits exampleHierarchy 2 a /\
    exampleHierarchy !! a = Some da /\
    Hierarchy.isDelegate da = true /\
    find (fun f => String.eqb (Hierarchy.fieldName f) "owner")
      (Hierarchy.fields da) = Some (Hierarchy.mkDataModelField "owner" None) /\
    Hierarchy.notFromDelegate exampleHierarchy
      (Hierarchy.mkDataModelField "owner" None) = Ok true.
Proof.
  apply (findUp_sound 2 exampleHierarchy 2
           (Hierarchy.mkDataModelField "owner" (Some 0))).
  reflexivity.
Defined.

Lemma exampleHierarchy_inheritedFromOk : Hierarchy.inheritedFromOk exampleHierarchy.
Proof.
  intros [|[|[|[|m]]]] d f up; simpl; intros [= <-]; simpl; try done.
  - by intros [<-|[]].
  - intros [<-|[]] [= <-]. by eexists.
  - intros [<-|[]] [= <-]. by eexists.
Qed.

Lemma findUp_decides_witness :
  exists r,
    Hierarchy.findUpMatchingFieldFromDelegate 3 exampleHierarchy 2
      (Hierarchy.mkDataModelField "title" None) = Ok r /\
    (r = None <->
     forall a da, Hierarchy.inherits exampleHierarchy 2 a ->
       exampleHierarchy !! a = Some da ->
       Hierarchy.ownMatch exampleHierarchy da
         (Hierarchy.mkDataModelField "title" None) = Ok None).
Proof.
  apply (findUp_decides 3 exampleHierarchy id 2).
  - exact exampleHierarchy_acyclic.
  - exact exampleHierarchy_inheritedFromOk.
  - by eexists.
  - unfold id. lia.
Defined.

(** ** The callbacks in the store *)

Section CallbackSimulation.

Local Abbreviation loc := Store.loc.
Local Abbreviation store := Store.store.
Local Abbreviation hvalue := Store.hvalue.
Local Abbreviation Imm := Store.Imm.
Local Abbreviation Ref := Store.Ref.
Local Abbreviation repr := Store.repr.
Local Abbreviation reprs := Store.reprs.
Local Abbreviation simulates := Store.simulates.

Local Ltac run :=
  repeat (progress (unfold mbind, Store.M_bind, Store.bind, mret, Store.M_ret,
                    Store.ret, Store.raise, Store.outOfModel, Store.read;
                    simpl)).

(** [for (const item of enumerate(x)) body(item)] *)
Lemma sim_enumerated (itemS : hvalue -> Store.M unit)
    (itemT : value -> result value) :
  simulates itemS itemT ->
  simulates (fun batch => items ← Store.enumerate batch; Store.forEach items itemS)
            (overEnumerated itemT).
Proof.
  intros Hitem s v t F Hrepr. destruct v as [x|l].
  - apply repr_imm_inv in Hrepr as [-> ->].
    assert (Hone : forall y, Store.agrees s (Imm y) ∅
              ((itemS (Imm y) ≫= fun _ => Store.ret tt) s) (itemT y)).
    { intros y. apply agrees_then_ret, Hitem. constructor. }
    destruct x as [| | | | |ts|items]; simpl; run;
      try (by apply (Hone _));
      try (by eexists _, ∅; split; [done|]; split; [constructor|apply within_refl]).
    pose proof (sim_items _ _ Hitem (Imm <$> items) s items ∅
                  (reprs_imm s items)) as Hall.
    destruct (Store.forEach _ _ s) as [[] s'|e s'|]; [|by rewrite Hall|done].
    destruct Hall as (ts' & F' & -> & [-> ->]%reprs_imm_inv & Hwithin).
    simpl. exists (VArr items), ∅. split; [done|]. split; [constructor|done].
  - destruct (repr_ref_cell _ _ _ _ Hrepr) as [[ps|xs] Hl]; simpl; run;
      rewrite Hl /=.
    + destruct (repr_obj_inv _ _ _ _ _ Hrepr Hl)
        as (ts & F0 & -> & -> & Hnotin & Hkeys & Hprops). simpl.
      by apply (agrees_then_ret _ _ _ (itemS (Ref l))), Hitem.
    + destruct (repr_arr_inv _ _ _ _ _ Hrepr Hl)
        as (ts & F0 & -> & -> & Hnotin & Hitems). simpl.
      pose proof (sim_items _ _ Hitem xs s ts F0 Hitems) as Hall.
      destruct (Store.forEach _ _ s) as [[] s'|e s'|]; [|by rewrite Hall|done].
      destruct Hall as (ts' & F' & -> & Hitems' & Hwithin). simpl.
      pose proof (lookup_lt_Some _ _ _ Hl) as Hlt.
      destruct Hwithin as (Hlen & Hsame & Hnew).
      exists (VArr ts'), ({[l]} ∪ F'). split; [done|]. split; [|split; [done|split]].
      * apply (Store.repr_arr s' l xs); [by rewrite Hsame|done|].
        intros Hin. destruct (Hnew l Hin); [done|lia].
      * intros l' Hl' Hnot. apply Hsame; [done|set_solver].
      * intros l' [->%elem_of_singleton|Hin]%elem_of_union; [left; set_solver|].
        destruct (Hnew l' Hin); [left; set_solver|by right].
Qed.

Variable meta : ModelMeta.
Variable userContext : value.
Variable isUnsafeMutateS : string -> store -> hvalue -> bool.
Variable isUnsafeMutateT : string -> value -> bool.

Hypothesis isUnsafeMutate_reads :
  forall model s v t F,
    repr s v t F -> isUnsafeMutateS model s v = isUnsafeMutateT model t.

(** The three callbacks that [preprocessWritePayload] registers, run on a
    node of the clone, leave it standing for the tree that the callbacks on
    trees compute, and throw what they throw: [create] processes the node,
    [upsert] its [create] branch, [createMany] every item of its [data]. *)
Theorem visitor_callbacks_simulate (fuel : nat) (model : string) :
  let cb := Store.visitor meta userContext isUnsafeMutateS fuel in
  simulates (Store.create cb model)
            (Payload.onCreate meta userContext isUnsafeMutateT fuel model) /\
  simulates (Store.upsert cb model)
            (Payload.onUpsert meta userContext isUnsafeMutateT fuel model) /\
  simulates (Store.createMany cb model)
            (Payload.onCreateMany meta userContext isUnsafeMutateT fuel model).
Proof.
  pose proof (processCreatePayload_simulates meta userContext isUnsafeMutateS
                isUnsafeMutateT isUnsafeMutate_reads fuel model) as Hnode.
  split; [exact Hnode|]. split.
  - exact (sim_child "create" _ _ Hnode).
  - exact (sim_child "data" _ _ (sim_enumerated _ _ Hnode)).
Qed.

End CallbackSimulation.

Lemma visitor_callbacks_simulate_witness :
  let cb := Store.visitor exampleMeta alice (fun _ _ _ => false) 1 in
  Store.simulates (Store.create cb "Post")
    (Payload.onCreate exampleMeta alice neverUnsafe 1 "Post") /\
  Store.simulates (Store.upsert cb "Post")
    (Payload.onUpsert exampleMeta alice neverUnsafe 1 "Post") /\
  Store.simulates (Store.createMany cb "Post")
    (Payload.onCreateMany exampleMeta alice neverUnsafe 1 "Post").
Proof.
  apply (visitor_callbacks_simulate exampleMeta alice (fun _ _ _ => false)
           neverUnsafe).
  intros model s v t F _. reflexivity.
Defined.

(** ** A payload that asks for no default *)

Section ExplicitPayload.

Variable meta : ModelMeta.
Variable userContext : value.
Variable isUnsafeMutate : string -> value -> bool.

(** A payload that sets every field that has a default, and no embedded
    field, is returned as it is, whoever the caller: no identity is asked
    for. *)
Theorem explicit_payload_unchanged (fuel : nat) (model : string)
    (fields : list FieldInfo) (ps : list (string * value)) :
  getFields meta model = Some fields ->
  (forall f, In f fields ->
     (isTypeDef f = true /\ assoc_mem (name f) ps = false) \/
     (isTypeDef f = false /\
      (defaultValueProvider f = None \/ assoc_mem (name f) ps = true))) ->
  Payload.processCreatePayload meta userContext isUnsafeMutate fuel model (VObj ps)
  = Ok (VObj ps).
Proof.
  intros Hfields Hall. unfold Payload.processCreatePayload. rewrite Hfields.
  apply foldM_fixed. intros f Hf. unfold Payload.processField.
  destruct (Hall f Hf) as [[-> Habs]|[-> Hset]]; simpl.
  - pose proof Habs as Hnone%assoc_mem_false. rewrite Hnone /=.
    assert (Hund : Payload.setDefaultValueForTypeDefData meta userContext fuel
                     (type f) VUndefined = Ok VUndefined) by by destruct fuel.
    by rewrite Hund /= Habs.
  - destruct (assoc_mem (name f) ps); [done|].
    by destruct Hset as [->|].
Qed.

End ExplicitPayload.

Lemma explicit_payload_unchanged_witness :
  Payload.processCreatePayload exampleMeta VUndefined neverUnsafe 1 "Post"
    (VObj [("title", VStr "t"); ("authorId", VStr "u9")]) =
  Ok (VObj [("title", VStr "t"); ("authorId", VStr "u9")]).
Proof.
  apply (explicit_payload_unchanged exampleMeta VUndefined neverUnsafe 1 "Post"
           postFields); [reflexivity|].
  intros f [<-|[<-|[<-|[<-|[<-|[]]]]]]; simpl; auto.
Defined.

(** ** Client interfaces of delegate models *)

Section TransformInterfaceFacts.

Variable PREFIX : string.

Local Abbreviation transformInterface := (Enhancer.transformInterface PREFIX).
Local Abbreviation notAux := (Enhancer.notAux PREFIX).

Lemma filter_filter_same {A : Type} (p : A -> bool) (xs : list A) :
  List.filter p (List.filter p xs) = List.filter p xs.
Proof.
  induction xs as [|x xs IH]; simpl; [done|].
  destruct (p x) eqn:Hp; simpl; [|done]. by rewrite Hp IH.
Qed.

Lemma filter_filter_comm {A : Type} (p q : A -> bool) (xs : list A) :
  List.filter p (List.filter q xs) = List.filter q (List.filter p xs).
Proof.
  induction xs as [|x xs IH]; simpl; [done|].
  destruct (p x) eqn:Hp; destruct (q x) eqn:Hq; simpl; rewrite ?Hp ?Hq ?IH //.
Qed.

(** What [transformInterface] returns offers no member made up for a
    delegate relation and, for the interface of a delegate model, none of
    the methods that create; its methods are methods of the interface, in
    their order, every other method among them; and transforming it again
    changes nothing. *)
Theorem transformInterface_result (iface : Enhancer.InterfaceStructure)
    (delegateInfo : Enhancer.DelegateInfo) :
  let result := transformInterface iface delegateInfo in
  Enhancer.interfaceName result = Enhancer.interfaceName iface /\
  (forall ms m, Enhancer.properties result = Some ms \/
                Enhancer.methods result = Some ms ->
     In m ms ->
     String.prefix PREFIX (Enhancer.memberName m) = false) /\
  (Enhancer.isDelegateInterface delegateInfo iface = true ->
   forall ms m, Enhancer.methods result = Some ms -> In m ms ->
     ~ In (Enhancer.memberName m) Enhancer.createMethods) /\
  (forall ms, Enhancer.methods iface = Some ms ->
     exists ms', Enhancer.methods result = Some ms' /\
       sublist ms' ms /\
       forall m, In m ms ->
         String.prefix PREFIX (Enhancer.memberName m) = false ->
         (Enhancer.isDelegateInterface delegateInfo iface = true ->
          ~ In (Enhancer.memberName m) Enhancer.createMethods) ->
         In m ms') /\
  transformInterface result delegateInfo = result.
Proof.
  destruct iface as [n props meths]. unfold Enhancer.transformInterface. simpl.
  unfold Enhancer.isDelegateInterface. simpl.
  set (del := existsb _ delegateInfo).
  assert (HnotCreate : forall m, Enhancer.notCreate m = true <->
            ~ In (Enhancer.memberName m) Enhancer.createMethods).
  { intros m. unfold Enhancer.notCreate. rewrite negb_true_iff.
    destruct (existsb (String.eqb (Enhancer.memberName m)) Enhancer.createMethods)
      eqn:Hex.
    - split; [done|]. intros Hnot. destruct Hnot.
      apply existsb_exists in Hex as (k & Hk & ->%String.eqb_eq). done.
    - split; [|done]. intros _ Hin.
      assert (existsb (String.eqb (Enhancer.memberName m)) Enhancer.createMethods
              = true) as Hyes; [|by rewrite Hyes in Hex].
      apply existsb_exists. exists (Enhancer.memberName m).
      split; [done|apply String.eqb_refl]. }
  assert (HnotAux : forall m, notAux m = true <->
            String.prefix PREFIX (Enhancer.memberName m) = false).
  { intros m. unfold Enhancer.notAux. apply negb_true_iff. }
  split; [done|]. split; [|split; [|split]].
  - intros ms m [Hms|Hms] Hm.
    + destruct props as [ps|]; [|done]. injection Hms as <-.
      apply filter_In in Hm as [_ Hm]. by apply HnotAux.
    + destruct meths as [xs|]; [|by destruct del]. apply HnotAux.
      destruct del; injection Hms as <-.
      * apply filter_In in Hm as [Hm _]. by apply filter_In in Hm as [_ Hm].
      * by apply filter_In in Hm as [_ Hm].
  - intros -> ms m Hms Hm. destruct meths as [xs|]; [|done].
    injection Hms as <-. apply filter_In in Hm as [_ Hm]. by apply HnotCreate.
  - intros ms [= ->].
    assert (Hsub : forall (p : Enhancer.Member -> bool) xs,
              sublist (List.filter p xs) xs).
    { intros p xs. induction xs as [|x xs IH]; simpl; [constructor|].
      destruct (p x); by constructor. }
    destruct del.
    + eexists. split; [done|]. split.
      * etrans; apply Hsub.
      * intros m Hm Haux Hcreate. apply filter_In. split.
        -- apply filter_In. split; [done|]. by apply HnotAux.
        -- apply HnotCreate. by apply Hcreate.
    + eexists. split; [done|]. split; [apply Hsub|].
      intros m Hm Haux _. apply filter_In. split; [done|]. by apply HnotAux.
  - f_equal.
    + destruct props as [ps|]; [|done]. simpl. f_equal.
      apply filter_filter_same.
    + destruct meths as [xs|]; [|by destruct del]. fold del.
      destruct del; simpl; f_equal; [|apply filter_filter_same].
      transitivity (List.filter Enhancer.notCreate
                      (List.filter notAux (List.filter notAux
                         (List.filter Enhancer.notCreate xs)))).
      { f_equal. f_equal. apply filter_filter_comm. }
      rewrite (filter_filter_same notAux).
      transitivity (List.filter Enhancer.notCreate
                      (List.filter Enhancer.notCreate (List.filter notAux xs))).
      { f_equal. apply filter_filter_comm. }
      apply filter_filter_same.
Qed.

End TransformInterfaceFacts.

(** On the interface of the delegate [Asset]: the member made up for the
    relation to [Video] and the methods [create] and [upsert] go, the rest
    stays in order. *)
Lemma transformInterface_assetDelegate :
  Enhancer.transformInterface "delegate_aux" assetDelegate [("Asset", ["Video"])] =
  Enhancer.mkInterface "AssetDelegate"
    (Some [Enhancer.mkMember "fields" "readonly fields: AssetFieldRefs"])
    (Some [Enhancer.mkMember "findMany" "findMany(args?): PrismaPromise";
           Enhancer.mkMember "update" "update(args): PrismaPromise"]).
Proof. reflexivity. Qed.

(** ** Blank lines of a rewritten type *)

Section TrimEmptyLinesFacts.

Local Abbreviation Text := SourceText.Text.
Local Abbreviation isWhiteSpace := SourceText.isWhiteSpace.
Local Abbreviation isLineTerminator := SourceText.isLineTerminator.
Local Abbreviation atLineStart := SourceText.atLineStart.
Local Abbreviation blankLength := SourceText.blankLength.
Local Abbreviation emptyLine := SourceText.emptyLine.
Local Abbreviation trimEmptyLines := SourceText.trimEmptyLines.

(** The scan of [trimEmptyLines], with no match under way. *)
Local Abbreviation scan := (SourceText.replaceAll SourceText.emptyLine 0).

Lemma terminator_whiteSpace (c : ascii) :
  isLineTerminator c = true -> isWhiteSpace c = true.
Proof.
  destruct c as [[] [] [] [] [] [] [] []]; by vm_compute.
Qed.

(** What the expression takes at a position. *)
Lemma matchTerms_emptyLine (input : Text) (prev : option ascii) :
  SourceText.matchTerms input prev emptyLine =
  if atLineStart prev then blankLength input else None.
Proof.
  unfold SourceText.emptyLine.
  assert (Hrun : forall prev0,
            SourceText.matchTerms input prev0
              [SourceText.StarClass isWhiteSpace;
               SourceText.Class isLineTerminator] = blankLength input).
  { induction input as [|c input IH]; intros prev0; [done|].
    simpl. destruct (isWhiteSpace c) eqn:Hws.
    - simpl in IH. rewrite IH. destruct (blankLength input) as [n|]; [done|].
      simpl. destruct (isLineTerminator c); [|done]. by destruct input.
    - destruct (isLineTerminator c) eqn:Hlt; [|done].
      apply terminator_whiteSpace in Hlt. congruence. }
  destruct input as [|c input]; simpl.
  - by destruct (atLineStart prev).
  - destruct (atLineStart prev); [|done]. apply (Hrun prev).
Qed.

Lemma blankLength_Some (input : Text) (m : nat) :
  blankLength input = Some m ->
  1 <= m <= length input /\
  Forall (fun c => isWhiteSpace c = true) (take m input) /\
  (exists t, input !! (m - 1) = Some t /\ isLineTerminator t = true) /\
  blankLength (drop m input) = None.
Proof.
  revert m. induction input as [|c input IH]; intros m; simpl; [done|].
  destruct (isWhiteSpace c) eqn:Hws; [|done].
  destruct (blankLength input) as [n|] eqn:Hrest.
  - intros [= <-]. destruct (IH n eq_refl) as (Hn & Hall & (t & Ht & Hlt) & Hnone).
    split; [simpl; lia|]. split; [by constructor|]. split; [|done].
    exists t. split; [|done]. destruct n; [lia|].
    by rewrite /= Nat.sub_0_r in Ht |- *.
  - destruct (isLineTerminator c) eqn:Hlt; [|done]. intros [= <-].
    split; [simpl; lia|]. split; [by repeat constructor|].
    split; [by exists c|]. by rewrite /= drop_0.
Qed.

Lemma blankLength_blank (line post : Text) (t : ascii) :
  Forall (fun c => isWhiteSpace c = true) line ->
  isLineTerminator t = true ->
  is_Some (blankLength (line ++ t :: post)).
Proof.
  intros Hline Ht. induction Hline as [|c line Hc _ IH]; simpl.
  - rewrite (terminator_whiteSpace _ Ht) Ht. by destruct (blankLength post).
  - rewrite Hc. destruct IH as [n ->]. by eexists.
Qed.

Lemma skip_spec (terms : list SourceText.term) (n : nat) (input : Text)
    (prev : option ascii) :
  n < length input ->
  SourceText.replaceAll terms (S n) prev input =
  SourceText.replaceAll terms 0 (input !! n) (drop (S n) input).
Proof.
  revert input prev. induction n as [|n IH]; intros [|c input] prev; simpl;
    try lia.
  - intros _. by rewrite drop_0.
  - intros Hn. rewrite IH; [lia|done].
Qed.

Lemma scan_cons (prev : option ascii) (c : ascii) (input : Text) :
  scan prev (c :: input) =
  if atLineStart prev then
    match blankLength (c :: input) with
    | Some (S n) => SourceText.replaceAll emptyLine n (Some c) input
    | _ => c :: scan (Some c) input
    end
  else c :: scan (Some c) input.
Proof.
  change (scan prev (c :: input)) with
    (match SourceText.matchTerms (c :: input) prev emptyLine with
     | Some (S n) => SourceText.replaceAll emptyLine n (Some c) input
     | _ => c :: scan (Some c) input
     end).
  rewrite matchTerms_emptyLine. by destruct (atLineStart prev).
Qed.

(** The scan at a position where the expression matches: the match is
    dropped and the scan goes on behind it, at a line start where the
    expression does not match. *)
Lemma scan_match (input : Text) (prev : option ascii) (m : nat) :
  atLineStart prev = true ->
  blankLength input = Some m ->
  exists t, isLineTerminator t = true /\
    scan prev input = scan (Some t) (drop m input).
Proof.
  intros Hstart Hm.
  destruct (blankLength_Some _ _ Hm) as (Hlen & _ & (t & Ht & Hlt) & _).
  exists t. split; [done|].
  destruct input as [|c input]; [done|].
  rewrite scan_cons Hstart Hm.
  destruct m as [|[|m]]; [lia| |].
  - simpl in Ht. injection Ht as ->. by rewrite /= drop_0.
  - simpl in Ht, Hlen. rewrite skip_spec; [lia|].
    by rewrite Ht.
Qed.

Lemma scan_keep (c : ascii) (input : Text) (prev : option ascii) :
  atLineStart prev = false \/ blankLength (c :: input) = None ->
  scan prev (c :: input) = c :: scan (Some c) input.
Proof.
  intros Hno. rewrite scan_cons.
  destruct (atLineStart prev); [|done].
  destruct Hno as [|Hnone]; [done|]. by rewrite Hnone.
Qed.

(** Induction on the text left to scan. *)
Lemma scan_ind (P : option ascii -> Text -> Prop) :
  (forall prev, P prev []) ->
  (forall prev input m t,
     atLineStart prev = true -> blankLength input = Some m ->
     isLineTerminator t = true ->
     scan prev input = scan (Some t) (drop m input) ->
     P (Some t) (drop m input) -> P prev input) ->
  (forall prev c input,
     atLineStart prev = false \/ blankLength (c :: input) = None ->
     P (Some c) input -> P prev (c :: input)) ->
  forall prev input, P prev input.
Proof.
  intros Hnil Hmatch Hkeep prev input.
  remember (length input) as n eqn:Hn. revert prev input Hn.
  induction n as [n IH] using lt_wf_ind. intros prev [|c input] Hn; [done|].
  destruct (atLineStart prev) eqn:Hstart.
  - destruct (blankLength (c :: input)) as [m|] eqn:Hm.
    + destruct (scan_match _ _ _ Hstart Hm) as (t & Ht & Hscan).
      destruct (blankLength_Some _ _ Hm) as (Hlen & _).
      apply (Hmatch prev _ m t); try done.
      apply (IH (length (drop m (c :: input)))); [|done].
      rewrite length_drop Hn. simpl in *. lia.
    + apply Hkeep; [by right|]. apply (IH (length input)); [|done].
      rewrite Hn /=. lia.
  - apply Hkeep; [by left|]. apply (IH (length input)); [|done].
    rewrite Hn /=. lia.
Qed.

Lemma scan_sublist (prev : option ascii) (input : Text) :
  sublist (scan prev input) input /\
  List.filter (fun c => negb (isWhiteSpace c)) (scan prev input) =
  List.filter (fun c => negb (isWhiteSpace c)) input.
Proof.
  revert prev input. apply scan_ind.
  - intros prev. split; [constructor|done].
  - intros prev input m t Hstart Hm Ht -> [Hsub Hfilter].
    destruct (blankLength_Some _ _ Hm) as (_ & Hblank & _).
    rewrite -{2 4}(take_drop m input). split.
    + by apply sublist_inserts_l.
    + rewrite List.filter_app Hfilter.
      assert (List.filter (fun c => negb (isWhiteSpace c)) (take m input) = [])
        as ->; [|done].
      induction Hblank as [|c l Hc _ IH]; simpl; [done|]. by rewrite Hc.
  - intros prev c input Hno [Hsub Hfilter]. rewrite scan_keep //. split.
    + by constructor.
    + simpl. by rewrite Hfilter.
Qed.

(** Where the expression does not match the text, it does not match what
    is left of the text. *)
Lemma scan_still_none (prev : option ascii) (input : Text) :
  blankLength input = None -> blankLength (scan prev input) = None.
Proof.
  revert prev. induction input as [|c input IH]; intros prev Hnone; [done|].
  rewrite scan_keep; [by right|]. simpl in *.
  destruct (isWhiteSpace c); [|done].
  destruct (blankLength input); [done|].
  destruct (isLineTerminator c); [done|]. by rewrite IH.
Qed.

Lemma scan_stable (prev prev' : option ascii) (input : Text) :
  atLineStart prev = atLineStart prev' ->
  scan prev' (scan prev input) = scan prev input.
Proof.
  revert prev'. revert prev input. apply (scan_ind (fun prev input =>
    forall prev', atLineStart prev = atLineStart prev' ->
      scan prev' (scan prev input) = scan prev input)).
  - done.
  - intros prev input m t Hstart Hm Ht -> IH prev' Hsame. apply IH.
    by rewrite /= Ht -Hsame Hstart.
  - intros prev c input Hno IH prev' Hsame. rewrite scan_keep //.
    rewrite scan_keep; [|by rewrite IH].
    destruct Hno as [Hno|Hnone]; [left; by rewrite -Hsame|right].
    rewrite -(scan_keep c input prev); [by right|]. by apply scan_still_none.
Qed.

(** [trimEmptyLines] takes out white space only: what it returns is the
    text with some code units left out, and the code units that are not
    white space are all there, in their order. *)
Theorem trimEmptyLines_only_white_space (source : Text) :
  sublist (trimEmptyLines source) source /\
  List.filter (fun c => negb (isWhiteSpace c)) (trimEmptyLines source) =
  List.filter (fun c => negb (isWhiteSpace c)) source.
Proof. apply scan_sublist. Qed.

Lemma trimEmptyLines_stable (source : Text) :
  scan None (trimEmptyLines source) = trimEmptyLines source.
Proof. by apply scan_stable. Qed.

(** A text that [trimEmptyLines] returned is returned as it is. *)
Theorem trimEmptyLines_idempotent (source : Text) :
  trimEmptyLines (trimEmptyLines source) = trimEmptyLines source.
Proof. apply trimEmptyLines_stable. Qed.

Lemma stable_tail (prev : option ascii) (c : ascii) (o : Text) :
  scan prev (c :: o) = c :: o ->
  scan (Some c) o = o /\
  (atLineStart prev = true -> blankLength (c :: o) = None).
Proof.
  intros Hstable.
  destruct (atLineStart prev) eqn:Hstart.
  - destruct (blankLength (c :: o)) as [m|] eqn:Hm.
    + exfalso. destruct (scan_match _ _ _ Hstart Hm) as (t & _ & Hscan).
      destruct (blankLength_Some _ _ Hm) as (Hlen & _).
      pose proof (proj1 (scan_sublist (Some t) (drop m (c :: o)))) as Hsub.
      apply sublist_length in Hsub. rewrite -Hscan Hstable length_drop in Hsub.
      simpl in *. lia.
    + rewrite scan_keep in Hstable; [by right|]. by injection Hstable as ->.
  - rewrite scan_keep in Hstable; [by left|]. by injection Hstable as ->.
Qed.

Lemma stable_suffix (pre rest : Text) (prev : option ascii) :
  scan prev (pre ++ rest) = pre ++ rest ->
  scan (from_option Some prev (last pre)) rest = rest.
Proof.
  revert prev. induction pre as [|c pre IH]; intros prev; simpl; [done|].
  intros [Htail _]%stable_tail. apply IH in Htail.
  rewrite last_cons. by destruct (last pre).
Qed.

(** What [trimEmptyLines] returns has no blank line: from the start of the
    text, and from behind every line terminator, to any later line
    terminator there is a code unit that is not white space.  So no line
    terminator follows another, and the line feed of a carriage return and
    line feed is gone. *)
Theorem trimEmptyLines_no_blank_line (source pre line post : Text) (t : ascii) :
  trimEmptyLines source = pre ++ line ++ t :: post ->
  atLineStart (last pre) = true ->
  isLineTerminator t = true ->
  exists c, In c line /\ isWhiteSpace c = false.
Proof.
  intros Hout Hstart Ht.
  pose proof (trimEmptyLines_stable source) as Hstable.
  rewrite Hout in Hstable. apply stable_suffix in Hstable.
  assert (Hprev : from_option Some None (last pre) = last pre)
    by by destruct (last pre).
  rewrite Hprev in Hstable.
  assert (Hnone : blankLength (line ++ t :: post) = None).
  { destruct (line ++ t :: post) as [|c o] eqn:Hrest.
    - by destruct line.
    - by apply (stable_tail _ _ _ Hstable). }
  destruct (decide (Forall (fun c => isWhiteSpace c = true) line)) as [Hall|Hex].
  - destruct (blankLength_blank line post t Hall Ht) as [n Hn]. congruence.
  - apply not_Forall_Exists in Hex; [|intros c; apply _].
    apply Exists_exists in Hex as (c & Hc & Hws). exists c.
    split; [by apply list_elem_of_In|]. by apply not_true_is_false.
Qed.

End TrimEmptyLinesFacts.

(** The blank line goes, and so does the line feed behind the carriage
    return of the first line. *)
Lemma trimEmptyLines_exampleSource :
  SourceText.trimEmptyLines exampleSource =
  String.list_ascii_of_string "a" ++ ["013"%char] ++ String.list_ascii_of_string "b" ++
  ["010"%char].
Proof. reflexivity. Qed.

Lemma trimEmptyLines_no_blank_line_witness :
  exists c, In c (String.list_ascii_of_string "b") /\ SourceText.isWhiteSpace c = false.
Proof.
  apply (trimEmptyLines_no_blank_line exampleSource
           (String.list_ascii_of_string "a" ++ ["013"%char])
           (String.list_ascii_of_string "b") [] "010"%char); reflexivity.
Defined.

(** ** The handler adds, and never overwrites *)

Section AddsRules.
Import Store.

Local Ltac run :=
  repeat (progress (unfold mbind, Store.M_bind, Store.bind, mret, Store.M_ret,
                    Store.ret, Store.raise, Store.outOfModel, Store.read;
                    simpl)).

Lemma keptCell_refl (c : cell) : keptCell c c.
Proof. destruct c; simpl; auto. Qed.

Lemma keptCell_trans (c1 c2 c3 : cell) :
  keptCell c1 c2 -> keptCell c2 c3 -> keptCell c1 c3.
Proof.
  destruct c1, c2, c3; simpl; try done.
  - intros H1 H2 k x Hk. auto.
  - congruence.
Qed.

Lemma keptCells_same (s s' : store) :
  (forall l c, s !! l = Some c -> s' !! l = Some c) -> keptCells s s'.
Proof.
  intros Hsame l c Hl. exists c. split; [by apply Hsame|apply keptCell_refl].
Qed.

Lemma keptCells_refl (s : store) : keptCells s s.
Proof. by apply keptCells_same. Qed.

Lemma keptCells_trans (s1 s2 s3 : store) :
  keptCells s1 s2 -> keptCells s2 s3 -> keptCells s1 s3.
Proof.
  intros H12 H23 l c Hl.
  destruct (H12 l c Hl) as (c2 & Hl2 & Hc2).
  destruct (H23 l c2 Hl2) as (c3 & Hl3 & Hc3).
  exists c3. split; [done|]. by eapply keptCell_trans.
Qed.

Lemma keptCells_alloc (s : store) (c : cell) : keptCells s (s ++ [c]).
Proof. apply keptCells_same. intros l c'. apply lookup_app_l_Some. Qed.

(** Setting a property that the object does not have keeps what it has. *)
Lemma keptCells_set (s : store) (l : loc) (ps : list (string * hvalue))
    (k : string) (x : hvalue) :
  s !! l = Some (CObj ps) ->
  assoc_get k ps = None ->
  keptCells s (<[l := CObj (assoc_set k x ps)]> s).
Proof.
  intros Hl Hk l' c Hl'. destruct (decide (l = l')) as [<-|Hne].
  - rewrite Hl in Hl'. injection Hl' as <-.
    exists (CObj (assoc_set k x ps)). split.
    + rewrite list_lookup_insert_eq //. by eapply lookup_lt_Some.
    + intros k' y Hy. rewrite assoc_get_set_ne //. intros ->. congruence.
  - exists c. rewrite list_lookup_insert_ne //. split; [done|apply keptCell_refl].
Qed.

Lemma addsAt_bind {A B : Type} (m : M A) (k : A -> M B) (s : store) :
  addsAt m s ->
  (forall a s', m s = Done a s' -> addsAt (k a) s') ->
  addsAt (m ≫= k) s.
Proof.
  unfold addsAt, mbind, M_bind, bind. intros Hm Hk.
  destruct (m s) as [a s'|e s'|]; [|done|done].
  specialize (Hk a s' eq_refl).
  destruct (k a s') as [b s''|e s''|]; [| |done]; by eapply keptCells_trans.
Qed.

Lemma onlyAdds_bind {A B : Type} (m : M A) (k : A -> M B) :
  onlyAdds m -> (forall a, onlyAdds (k a)) -> onlyAdds (m ≫= k).
Proof. intros Hm Hk s. apply addsAt_bind; [apply Hm|]. intros a s' _. apply Hk. Qed.

Lemma onlyAdds_ret {A : Type} (a : A) : onlyAdds (mret a).
Proof. intros s. apply keptCells_refl. Qed.

Lemma onlyAdds_raise {A : Type} (e : error) : onlyAdds (@raise A e).
Proof. intros s. apply keptCells_refl. Qed.

Lemma onlyAdds_outOfModel {A : Type} : onlyAdds (@outOfModel A).
Proof. by intros s. Qed.

Lemma onlyAdds_liftResult {A : Type} (r : result A) : onlyAdds (liftResult r).
Proof.
  destruct r; simpl;
    [apply onlyAdds_ret|apply onlyAdds_raise|apply onlyAdds_outOfModel].
Qed.

Lemma onlyAdds_read (l : loc) : onlyAdds (read l).
Proof.
  intros s. unfold addsAt, read. destruct (s !! l); [apply keptCells_refl|done].
Qed.

Lemma onlyAdds_alloc (c : cell) : onlyAdds (alloc c).
Proof. intros s. apply keptCells_alloc. Qed.

Lemma onlyAdds_forEach {A : Type} (xs : list A) (body : A -> M unit) :
  (forall x, onlyAdds (body x)) -> onlyAdds (forEach xs body).
Proof.
  intros Hbody. induction xs as [|x xs IH]; simpl.
  - apply onlyAdds_ret.
  - apply onlyAdds_bind; [apply Hbody|]. by intros _.
Qed.

Lemma onlyAdds_mapEach {A B : Type} (f : A -> M B) (xs : list A) :
  (forall x, onlyAdds (f x)) -> onlyAdds (mapEach f xs).
Proof.
  intros Hf. induction xs as [|x xs IH]; simpl.
  - apply onlyAdds_ret.
  - apply onlyAdds_bind; [apply Hf|]. intros y.
    apply onlyAdds_bind; [apply IH|]. intros ys. apply onlyAdds_ret.
Qed.

Lemma onlyAdds_isArray (v : hvalue) : onlyAdds (isArray v).
Proof.
  destruct v as [x|l]; simpl; [apply onlyAdds_ret|].
  apply onlyAdds_bind; [apply onlyAdds_read|]. intros c. apply onlyAdds_ret.
Qed.

Lemma onlyAdds_hasProperty (k : string) (v : hvalue) : onlyAdds (hasProperty k v).
Proof.
  destruct v as [x|l]; simpl.
  - destruct x; auto using onlyAdds_raise, onlyAdds_outOfModel.
  - apply onlyAdds_bind; [apply onlyAdds_read|]. intros [ps|items].
    + apply onlyAdds_ret.
    + apply onlyAdds_outOfModel.
Qed.

Lemma onlyAdds_keys (v : hvalue) : onlyAdds (keys v).
Proof.
  destruct v as [x|l]; simpl; [apply onlyAdds_outOfModel|].
  apply onlyAdds_bind; [apply onlyAdds_read|]. intros [ps|items].
  - apply onlyAdds_ret.
  - apply onlyAdds_outOfModel.
Qed.

Lemma onlyAdds_getProperty (v : hvalue) (k : string) : onlyAdds (getProperty v k).
Proof.
  destruct v as [x|l]; simpl.
  - destruct x; auto using onlyAdds_raise, onlyAdds_outOfModel.
  - apply onlyAdds_bind; [apply onlyAdds_read|]. intros [ps|items].
    + apply onlyAdds_ret.
    + apply onlyAdds_outOfModel.
Qed.

Lemma onlyAdds_enumerate (v : hvalue) : onlyAdds (enumerate v).
Proof.
  destruct v as [x|l]; simpl.
  - destruct x; apply onlyAdds_ret.
  - apply onlyAdds_bind; [apply onlyAdds_read|]. intros [ps|items];
      apply onlyAdds_ret.
Qed.

Lemma onlyAdds_clone (fuel : nat) (v : hvalue) : onlyAdds (clone fuel v).
Proof.
  revert v. induction fuel as [|fuel IH]; intros [x|l]; simpl;
    try apply onlyAdds_ret; try apply onlyAdds_outOfModel.
  apply onlyAdds_bind; [apply onlyAdds_read|]. intros [ps|items].
  - apply onlyAdds_bind; [|intros ps'; apply onlyAdds_alloc].
    apply onlyAdds_mapEach. intros [k x].
    apply onlyAdds_bind; [apply IH|]. intros y. apply onlyAdds_ret.
  - apply onlyAdds_bind; [|intros items'; apply onlyAdds_alloc].
    by apply onlyAdds_mapEach.
Qed.

(** A test [k in v] that says no was made on an object without [k], and
    leaves the store as it is. *)
Lemma hasProperty_no (k : string) (v : hvalue) (s s' : store) :
  hasProperty k v s = Done false s' ->
  s' = s /\ exists l ps, v = Ref l /\ s !! l = Some (CObj ps) /\
                         assoc_get k ps = None.
Proof.
  destruct v as [x|l]; simpl.
  - by destruct x.
  - run. destruct (s !! l) as [[ps|items]|] eqn:Hl; simpl; [|done|done].
    intros [= Hmem <-]. split; [done|]. exists l, ps.
    split; [done|]. split; [done|]. by apply assoc_mem_false.
Qed.

Lemma getDefaultValue_same (userContext : value) (f : FieldInfo) (s s' : store)
    (dv : hvalue) :
  getDefaultValue userContext f s = Done dv s' -> s' = s.
Proof.
  rewrite getDefaultValue_run.
  destruct (Payload.getDefaultValue userContext f); [|done|done].
  by intros [= _ <-].
Qed.

Lemma onlyAdds_getDefaultValue (userContext : value) (f : FieldInfo) :
  onlyAdds (getDefaultValue userContext f).
Proof.
  unfold getDefaultValue.
  apply onlyAdds_bind; [apply onlyAdds_liftResult|]. intros v. apply onlyAdds_ret.
Qed.

Lemma addsAt_setProperty (s : store) (l : loc) (ps : list (string * hvalue))
    (k : string) (x : hvalue) :
  s !! l = Some (CObj ps) ->
  assoc_get k ps = None ->
  addsAt (setProperty (Ref l) k x) s.
Proof.
  intros Hl Hk. unfold addsAt. rewrite (setProperty_run s l ps) //.
  by apply keptCells_set.
Qed.

Section Handler.

Variable meta : ModelMeta.
Variable userContext : value.
Variable isUnsafeMutate : string -> store -> hvalue -> bool.
Variable fuel : nat.

Lemma onlyAdds_typeDefField (recurse : string -> hvalue -> M unit)
    (item : hvalue) (f : FieldInfo) :
  (forall type sub, onlyAdds (recurse type sub)) ->
  onlyAdds (typeDefField userContext recurse item f).
Proof.
  intros Hrec. unfold typeDefField. destruct (isTypeDef f).
  - apply onlyAdds_bind; [apply onlyAdds_getProperty|]. intros sub. apply Hrec.
  - intros s. apply addsAt_bind; [apply onlyAdds_hasProperty|].
    intros [|] s1 Hhas; [apply onlyAdds_ret|].
    destruct (hasProperty_no _ _ _ _ Hhas) as (-> & l & ps & -> & Hl & Hk).
    apply addsAt_bind; [apply onlyAdds_getDefaultValue|].
    intros dv s1 ->%getDefaultValue_same.
    destruct (isUndefined dv); [apply onlyAdds_ret|].
    by apply (addsAt_setProperty s l ps).
Qed.

Lemma onlyAdds_typeDef (depth : nat) (typeName : string) (data : hvalue) :
  onlyAdds (setDefaultValueForTypeDefData meta userContext depth typeName data).
Proof.
  revert typeName data.
  induction depth as [|depth IH]; intros typeName data; simpl.
  - apply onlyAdds_bind; [apply onlyAdds_isArray|]. intros array.
    destruct (_ || _); [apply onlyAdds_ret|].
    destruct (getTypeDefInfo meta typeName);
      [apply onlyAdds_outOfModel|apply onlyAdds_ret].
  - apply onlyAdds_bind; [apply onlyAdds_isArray|]. intros array.
    destruct (_ || _); [apply onlyAdds_ret|].
    destruct (getTypeDefInfo meta typeName) as [fields|]; [|apply onlyAdds_ret].
    apply onlyAdds_bind; [apply onlyAdds_enumerate|]. intros items.
    apply onlyAdds_forEach. intros item. unfold typeDefItem.
    destruct (_ || _); [apply onlyAdds_ret|].
    apply onlyAdds_forEach. intros f. by apply onlyAdds_typeDefField.
Qed.

Lemma relationAlreadySet_at (f : FieldInfo) (s : store) (l : loc)
    (ps : list (string * hvalue)) :
  s !! l = Some (CObj ps) ->
  relationAlreadySet f (Ref l) s =
  Done (isForeignKey f &&
        match truthy_name (relationField f) with
        | Some rel => assoc_mem rel ps
        | None => false
        end) s.
Proof.
  intros Hl. unfold relationAlreadySet.
  destruct (isForeignKey f); [|done].
  destruct (truthy_name (relationField f)) as [rel|]; [|done].
  by rewrite (hasProperty_run s l ps).
Qed.

(** The default of a field that the node does not have is written as a new
    property of the node: the field itself, or its relation field, which the
    node does not have either, holding a new [connect] object. *)
Lemma addsAt_setDefaultValueForModelData (f : FieldInfo) (model : string)
    (dv : hvalue) (s : store) (l : loc) (ps : list (string * hvalue)) :
  s !! l = Some (CObj ps) ->
  assoc_get (name f) ps = None ->
  addsAt (setDefaultValueForModelData meta isUnsafeMutate f model (Ref l) dv) s.
Proof.
  intros Hl Hk. unfold setDefaultValueForModelData.
  apply addsAt_bind; [by rewrite /addsAt (relationAlreadySet_at f s l ps) //;
                      apply keptCells_refl|].
  intros skip s1. rewrite (relationAlreadySet_at f s l ps) //.
  intros [= <- <-].
  assert (Hscalar : addsAt (setProperty (Ref l) (name f) dv) s)
    by (by apply (addsAt_setProperty s l ps)).
  destruct (isForeignKey f) eqn:Hfk; cbn [andb].
  2:{ apply addsAt_bind; [apply keptCells_refl|]. by intros unsafe s1 [= _ <-]. }
  destruct (truthy_name (relationField f)) as [rel|] eqn:Hrel.
  2:{ apply addsAt_bind; [apply keptCells_refl|]. intros unsafe s1 [= _ <-].
      destruct (negb unsafe); [apply onlyAdds_raise|done]. }
  destruct (assoc_mem rel ps) eqn:Hmem; [apply onlyAdds_ret|].
  apply assoc_mem_false in Hmem.
  apply addsAt_bind; [apply keptCells_refl|]. intros unsafe s1 [= _ <-].
  destruct (negb unsafe); [|done].
  apply addsAt_bind; [apply onlyAdds_liftResult|]. intros r s1 Hreq.
  assert (Hr : requireField meta model rel = Ok r /\ s1 = s).
  { destruct (requireField meta model rel); simpl in Hreq; [|done|done].
    by injection Hreq as -> ->. }
  destruct Hr as [Hr ->]. apply requireField_name in Hr. rewrite Hr.
  apply addsAt_bind; [apply (onlyAdds_getProperty (Ref l) rel s)|].
  intros x s1 Hget. rewrite (getProperty_run s l ps) // Hmem in Hget.
  injection Hget as <- <-.
  change (isNullish (default (Imm VUndefined) None)) with true. cbv iota.
  apply addsAt_bind; [apply onlyAdds_ret|].
  intros existing s1 Hex. injection Hex as <- <-.
  change (Store.truthy (Imm VUndefined)) with false. cbv iota.
  pose proof (lookup_lt_Some _ _ _ Hl) as Hlt.
  set (s2 := (s ++ [CObj []]) ++ [CObj [("connect", Ref (length s))]]).
  assert (Hl2 : s2 !! l = Some (CObj ps)).
  { rewrite /s2 lookup_app_l; [rewrite length_app /=; lia|].
    by rewrite lookup_app_l. }
  set (s3 := <[l := CObj (assoc_set rel (Ref (S (length s))) ps)]> s2).
  assert (Hconnect : s3 !! length s = Some (CObj [])).
  { rewrite /s3 list_lookup_insert_ne; [lia|].
    rewrite /s2 lookup_app_l; [rewrite length_app /=; lia|].
    by rewrite lookup_app_r // Nat.sub_diag. }
  assert (Hrun : (connect ← alloc (CObj []);
                  wrapper ← alloc (CObj [("connect", connect)]);
                  setProperty (Ref l) rel wrapper;; ret connect) s =
                 Done (Ref (length s)) s3).
  { rewrite /mbind /M_bind /bind /alloc.
    replace (length (s ++ [CObj []])) with (S (length s))
      by (rewrite length_app /=; lia).
    fold s2. by rewrite (setProperty_run s2 l ps). }
  assert (H23 : keptCells s s3).
  { apply (keptCells_trans _ s2); [|by apply keptCells_set].
    apply (keptCells_trans _ (s ++ [CObj []])); apply keptCells_alloc. }
  apply addsAt_bind; [by rewrite /addsAt Hrun|].
  intros connect s1. rewrite Hrun. intros [= <- <-].
  destruct (truthy_name (Payload.getOppositeFkFieldName r f)) as [opp|];
    [|apply onlyAdds_raise].
  by apply (addsAt_setProperty s3 (length s) []).
Qed.

Lemma onlyAdds_processField (model : string) (data : hvalue) (f : FieldInfo) :
  onlyAdds (processField meta userContext isUnsafeMutate fuel model data f).
Proof.
  unfold processField. destruct (isTypeDef f).
  - apply onlyAdds_bind; [apply onlyAdds_getProperty|]. intros sub.
    apply onlyAdds_typeDef.
  - intros s. apply addsAt_bind; [apply onlyAdds_hasProperty|].
    intros [|] s1 Hhas; [apply onlyAdds_ret|].
    destruct (hasProperty_no _ _ _ _ Hhas) as (-> & l & ps & -> & Hl & Hk).
    destruct (defaultValueProvider f) as [provider|]; [|apply onlyAdds_ret].
    apply addsAt_bind; [apply onlyAdds_getDefaultValue|].
    intros dv s1 ->%getDefaultValue_same.
    destruct (isUndefined dv); [apply onlyAdds_ret|].
    by apply (addsAt_setDefaultValueForModelData f model dv s l ps).
Qed.

Lemma onlyAdds_processCreatePayload (model : string) (data : hvalue) :
  onlyAdds (processCreatePayload meta userContext isUnsafeMutate fuel model data).
Proof.
  unfold processCreatePayload.
  destruct (getFields meta model) as [fields|]; [|apply onlyAdds_raise].
  apply onlyAdds_forEach. intros f. apply onlyAdds_processField.
Qed.

(** The visitor writes nothing itself: it adds what its callbacks add. *)
Lemma onlyAdds_visitNode (cb : NestedWriteVisitorCallback) (depth : nat)
    (model action : string) (payload : hvalue) :
  (forall m d, onlyAdds (create cb m d)) ->
  (forall m d, onlyAdds (upsert cb m d)) ->
  (forall m d, onlyAdds (createMany cb m d)) ->
  onlyAdds (visitNode meta cb depth model action payload).
Proof.
  intros Hcreate Hupsert HcreateMany. revert model action payload.
  induction depth as [|depth IH]; intros model action payload;
    [apply onlyAdds_outOfModel|].
  assert (Hdescend : forall m node,
            onlyAdds (descend meta (visitNode meta cb depth) m node)).
  { intros m node. unfold descend.
    destruct (_ || _); [apply onlyAdds_ret|].
    destruct (getFields meta m) as [fields|]; [|apply onlyAdds_raise].
    apply onlyAdds_bind; [apply onlyAdds_keys|]. intros present.
    apply onlyAdds_bind.
    { apply onlyAdds_forEach. intros key.
      destruct (isOneOf _ key); [apply onlyAdds_ret|apply onlyAdds_raise]. }
    intros _. apply onlyAdds_forEach.
    intros f. destruct (isDataModel f); [|apply onlyAdds_ret].
    apply onlyAdds_bind; [apply onlyAdds_getProperty|]. intros sub.
    destruct (_ || _); [apply onlyAdds_ret|].
    apply onlyAdds_forEach. intros key.
    apply onlyAdds_bind; [apply onlyAdds_hasProperty|]. intros [|];
      [|apply onlyAdds_ret].
    apply onlyAdds_bind; [apply onlyAdds_getProperty|]. intros nested.
    apply IH. }
  simpl.
  destruct (negb (Store.truthy payload)); [apply onlyAdds_ret|].
  destruct (String.eqb action "create").
  { apply onlyAdds_bind; [apply onlyAdds_enumerate|]. intros items.
    apply onlyAdds_forEach. intros item.
    apply onlyAdds_bind; [apply Hcreate|]. intros _. apply Hdescend. }
  destruct (isOneOf _ action).
  { apply onlyAdds_bind; [apply HcreateMany|]. intros _.
    apply onlyAdds_bind; [apply onlyAdds_getProperty|]. intros batch.
    apply onlyAdds_bind; [apply onlyAdds_enumerate|]. intros items.
    apply onlyAdds_forEach. apply Hdescend. }
  destruct (String.eqb action "upsert").
  { apply onlyAdds_bind; [apply onlyAdds_enumerate|]. intros items.
    apply onlyAdds_forEach. intros item.
    apply onlyAdds_bind; [apply Hupsert|]. intros _.
    apply onlyAdds_bind; [apply onlyAdds_getProperty|]. intros onCreate.
    apply onlyAdds_bind; [apply Hdescend|]. intros _.
    apply onlyAdds_bind; [apply onlyAdds_getProperty|]. intros onUpdate.
    apply Hdescend. }
  destruct (String.eqb action "connectOrCreate").
  { apply onlyAdds_bind; [apply onlyAdds_enumerate|]. intros items.
    apply onlyAdds_forEach. intros item.
    apply onlyAdds_bind; [apply onlyAdds_getProperty|]. intros onCreate.
    apply IH. }
  destruct (isOneOf _ action); [|apply onlyAdds_ret].
  apply onlyAdds_bind; [apply onlyAdds_enumerate|]. intros items.
  apply onlyAdds_forEach. intros item.
  apply onlyAdds_bind; [apply onlyAdds_hasProperty|]. intros [|];
    [|apply Hdescend].
  apply onlyAdds_bind; [apply onlyAdds_getProperty|]. intros data.
  apply Hdescend.
Qed.

Lemma onlyAdds_visit (model action : string) (args : hvalue) :
  onlyAdds (visit meta fuel (visitor meta userContext isUnsafeMutate fuel)
              model action args).
Proof.
  assert (Hnode : forall payload,
            onlyAdds (visitNode meta (visitor meta userContext isUnsafeMutate fuel)
                        fuel model action payload)).
  { intros payload. apply onlyAdds_visitNode; intros m d; simpl.
    - apply onlyAdds_processCreatePayload.
    - apply onlyAdds_bind; [apply onlyAdds_getProperty|]. intros payload'.
      apply onlyAdds_processCreatePayload.
    - apply onlyAdds_bind; [apply onlyAdds_getProperty|]. intros batch.
      apply onlyAdds_bind; [apply onlyAdds_enumerate|]. intros items.
      apply onlyAdds_forEach. intros item. apply onlyAdds_processCreatePayload. }
  unfold visit.
  destruct (negb (Store.truthy args)); [apply onlyAdds_ret|].
  destruct (String.eqb action "create"); [|apply Hnode].
  apply onlyAdds_bind; [apply onlyAdds_getProperty|]. intros data. apply Hnode.
Qed.

End Handler.

(** *** What a value holds *)

Lemma holds_kept (depth : nat) (s s' : store) (v : hvalue) (t : value) :
  keptCells s s' -> holds depth s v t -> holds depth s' v t.
Proof.
  intros Hkept. revert v t.
  induction depth as [|depth IH]; intros [x|l] t; simpl; try done.
  destruct (s !! l) as [c|] eqn:Hl; [|done].
  destruct (Hkept l c Hl) as (c' & -> & Hc).
  destruct c as [ps|items], c' as [ps'|items']; simpl in Hc; try done.
  - destruct t; try done. intros Hall k tx Hk.
    destruct (Hall k tx Hk) as (x & Hx & Hholds). exists x. split; auto.
  - subst items'. destruct t; try done. intros Hall.
    eapply Forall2_impl; [exact Hall|]. intros x tx. apply IH.
Qed.

Lemma readBack_props (depth : nat) (s : store) (ps : list (string * hvalue))
    (ts : list (string * value)) :
  mapM (fun p => x ← readBack depth s p.2; Some (p.1, x)) ps = Some ts ->
  forall k tx, assoc_get k ts = Some tx ->
    exists x, assoc_get k ps = Some x /\ readBack depth s x = Some tx.
Proof.
  intros H%mapM_Some. induction H as [|[k1 x1] [k2 t2] ps ts H1 _ IH]; [done|].
  simpl in H1. destruct (readBack depth s x1) as [t1|] eqn:Hx1; [|done].
  injection H1 as <- <-. intros k tx. simpl.
  destruct (String.eqb k k1); [|apply IH].
  intros [= <-]. by exists x1.
Qed.

(** What a value reads back as, it holds. *)
Lemma readBack_holds (depth : nat) (s : store) (v : hvalue) (t : value) :
  readBack depth s v = Some t -> holds depth s v t.
Proof.
  revert v t. induction depth as [|depth IH]; intros [x|l] t; simpl; try done.
  - by intros [= <-].
  - by intros [= <-].
  - destruct (s !! l) as [[ps|items]|]; [| |done].
    + destruct (mapM _ ps) as [ts|] eqn:Hps; [|done]. intros [= <-].
      intros k tx Hk.
      destruct (readBack_props _ _ _ _ Hps k tx Hk) as (x & Hx & Hread).
      exists x. split; [done|]. by apply IH.
    + destruct (mapM _ items) as [ts|] eqn:Hitems; [|done]. intros [= <-].
      apply mapM_Some in Hitems.
      eapply Forall2_impl; [exact Hitems|]. intros x tx. apply IH.
Qed.

(** A clone leaves the cells of the store as they are. *)
Lemma mapEach_frame {A B : Type} (f : A -> M B) (xs : list A) (s s' : store)
    (ys : list B) :
  (forall x, keeps s (f x) (fun _ => True)) ->
  mapEach f xs s = Done ys s' ->
  forall l c, s !! l = Some c -> s' !! l = Some c.
Proof.
  intros Hf Hrun.
  pose proof (keeps_mapEach s f xs (fun _ => True) Hf s (framed_refl s)) as H.
  rewrite Hrun in H. by destruct H as [(_ & H & _) _].
Qed.

Lemma clone_frame (depth : nat) (v v' : hvalue) (s s' : store) :
  clone depth v s = Done v' s' ->
  forall l c, s !! l = Some c -> s' !! l = Some c.
Proof.
  intros Hrun. pose proof (keeps_clone s depth v s (framed_refl s)) as H.
  rewrite Hrun in H. by destruct H as [(_ & H & _) _].
Qed.

Lemma mapEach_clone_frame (depth : nat) (items items' : list hvalue)
    (s s' : store) :
  mapEach (clone depth) items s = Done items' s' ->
  forall l c, s !! l = Some c -> s' !! l = Some c.
Proof.
  apply mapEach_frame. intros x.
  eapply keeps_weaken; [apply keeps_clone|done].
Qed.

Lemma mapEach_clone_props_frame (depth : nat) (ps ps' : list (string * hvalue))
    (s s' : store) :
  mapEach (fun p => x ← clone depth p.2; ret (p.1, x)) ps s = Done ps' s' ->
  forall l c, s !! l = Some c -> s' !! l = Some c.
Proof.
  apply mapEach_frame. intros [k x].
  eapply keeps_bind; [apply keeps_clone|]. intros y _. by apply keeps_ret.
Qed.

Lemma clone_items_readBack (depth : nat) :
  (forall s s' v v' t,
     readBack depth s v = Some t -> clone depth v s = Done v' s' ->
     readBack depth s' v' = Some t) ->
  forall items s ts items' s',
    mapM (readBack depth s) items = Some ts ->
    mapEach (clone depth) items s = Done items' s' ->
    mapM (readBack depth s') items' = Some ts.
Proof.
  intros IH. induction items as [|x items IHitems]; intros s ts items' s'.
  { by intros [= <-] [= <- <-]. }
  rewrite /=. destruct (readBack depth s x) as [tx|] eqn:Hx; [|done].
  rewrite /=. destruct (mapM _ items) as [ts'|] eqn:Hitems; [|done].
  intros [= <-]. run.
  destruct (clone depth x s) as [x' sa| |] eqn:Hx'; [|done|done].
  destruct (mapEach _ items sa) as [items'' sb| |] eqn:Hrest; [|done|done].
  intros [= <- <-].
  assert (Hitems1 : mapM (readBack depth sa) items = Some ts').
  { apply mapM_Some. apply mapM_Some in Hitems.
    eapply Forall2_impl; [exact Hitems|]. intros y ty.
    apply readBack_frame. by eapply clone_frame. }
  rewrite /= (IHitems _ _ _ _ Hitems1 Hrest) /=.
  rewrite (readBack_frame depth sa sb x' tx) //; [|by eapply IH].
  by eapply mapEach_clone_frame.
Qed.

Lemma clone_props_readBack (depth : nat) :
  (forall s s' v v' t,
     readBack depth s v = Some t -> clone depth v s = Done v' s' ->
     readBack depth s' v' = Some t) ->
  forall (ps : list (string * hvalue)) s ts ps' s',
    mapM (fun p => x ← readBack depth s p.2; Some (p.1, x)) ps = Some ts ->
    mapEach (fun p => x ← clone depth p.2; ret (p.1, x)) ps s = Done ps' s' ->
    mapM (fun p => x ← readBack depth s' p.2; Some (p.1, x)) ps' = Some ts.
Proof.
  intros IH. induction ps as [|[k x] ps IHps]; intros s ts ps' s'.
  { by intros [= <-] [= <- <-]. }
  rewrite /=. destruct (readBack depth s x) as [tx|] eqn:Hx; [|done].
  rewrite /=. destruct (mapM _ ps) as [ts'|] eqn:Hps; [|done].
  intros [= <-]. run.
  destruct (clone depth x s) as [x' sa| |] eqn:Hx'; [|done|done].
  destruct (mapEach _ ps sa) as [ps'' sb| |] eqn:Hrest; [|done|done].
  intros [= <- <-].
  assert (Hps1 : mapM (fun p => y ← readBack depth sa p.2; Some (p.1, y)) ps
                 = Some ts').
  { apply mapM_Some. apply mapM_Some in Hps.
    eapply Forall2_impl; [exact Hps|]. intros [k1 y] ty. simpl.
    destruct (readBack depth s y) as [t1|] eqn:Hy; [|done].
    by rewrite (readBack_frame _ _ _ _ _ (clone_frame _ _ _ _ _ Hx') Hy). }
  rewrite /= (IHps _ _ _ _ Hps1 Hrest) /=.
  rewrite (readBack_frame depth sa sb x' tx) //; [|by eapply IH].
  by eapply mapEach_clone_props_frame.
Qed.

(** The clone reads back as what was cloned. *)
Lemma clone_readBack (depth : nat) (s s' : store) (v v' : hvalue) (t : value) :
  readBack depth s v = Some t ->
  clone depth v s = Done v' s' ->
  readBack depth s' v' = Some t.
Proof.
  revert s s' v v' t.
  induction depth as [|depth IH]; intros s s' [x|l] v' t; simpl; try done.
  - by intros [= <-] [= <- <-].
  - by intros [= <-] [= <- <-].
  - run. destruct (s !! l) as [[ps|items]|] eqn:Hl; simpl; [| |done].
    + destruct (mapM _ ps) as [ts|] eqn:Hps; [|done]. intros [= <-].
      destruct (mapEach _ ps s) as [ps' s1| |] eqn:Hrun; [|done|done].
      unfold alloc. intros [= <- <-].
      rewrite lookup_app_r // Nat.sub_diag /=.
      pose proof (clone_props_readBack depth IH _ _ _ _ _ Hps Hrun) as Hps'.
      rewrite (_ : mapM _ ps' = Some ts) //.
      apply mapM_Some. apply mapM_Some in Hps'.
      eapply Forall2_impl; [exact Hps'|]. intros [k x] y. simpl.
      destruct (readBack depth s1 x) as [tx|] eqn:Hx; [|done].
      by rewrite (readBack_extend _ _ _ _ _ Hx).
    + destruct (mapM _ items) as [ts|] eqn:Hitems; [|done]. intros [= <-].
      destruct (mapEach _ items s) as [items' s1| |] eqn:Hrun; [|done|done].
      unfold alloc. intros [= <- <-].
      rewrite lookup_app_r // Nat.sub_diag /=.
      pose proof (clone_items_readBack depth IH _ _ _ _ _ Hitems Hrun) as Hitems'.
      rewrite (_ : mapM _ items' = Some ts) //.
      apply mapM_Some. apply mapM_Some in Hitems'.
      eapply Forall2_impl; [exact Hitems'|]. intros x y. apply readBack_extend.
Qed.

End AddsRules.

(** What [preprocessArgs] returns keeps everything the caller has set.  When
    the argument stands for the tree [t], the value returned holds [t]: every
    property of the caller's payload is there, at every depth, a scalar with
    the value it had, an object with every property it had, an array with the
    elements it had.  What the value returned has more is the properties that
    the handler has added: it adds, and replaces or removes nothing. *)
Theorem caller_properties_kept (meta : ModelMeta) (userContext : value)
    (isUnsafeMutate : string -> Store.store -> Store.hvalue -> bool)
    (thisModel : string) (ACTIONS_WITH_WRITE_PAYLOAD : list string) (fuel : nat)
    (action : string) (args : Store.hvalue) (s0 : Store.store) (t : value) :
  Store.readBack fuel s0 args = Some t ->
  match Store.preprocessArgs meta userContext isUnsafeMutate thisModel
          ACTIONS_WITH_WRITE_PAYLOAD fuel action args s0 with
  | Store.Done newArgs s => holds fuel s newArgs t
  | Store.Raised _ _ => True
  | Store.OutOfModel => True
  end.
Proof.
  intros Hread. unfold Store.preprocessArgs.
  destruct (Store.truthy args && Store.isOneOf _ action);
    [|by apply readBack_holds].
  unfold Store.preprocessWritePayload.
  rewrite /mbind /Store.M_bind /Store.bind.
  destruct (Store.clone fuel args s0) as [newArgs s1| |] eqn:Hclone; [|done|done].
  pose proof (clone_readBack _ _ _ _ _ _ Hread Hclone) as Hread1.
  pose proof (onlyAdds_visit meta userContext isUnsafeMutate fuel thisModel
                action newArgs s1) as Hadds.
  unfold addsAt in Hadds.
  destruct (Store.visit _ _ _ _ _ newArgs s1) as [[] s| |]; [|done|done].
  simpl. eapply holds_kept; [exact Hadds|]. by apply readBack_holds.
Qed.

(** The caller passes [{data: {id: 'u5', posts: {create: {title: 'a'}}}}] for
    [User]; what is returned holds all of it. *)
Lemma caller_properties_kept_witness :
  let s0 := [Store.CObj [("title", Store.Imm (VStr "a"))];
             Store.CObj [("create", Store.Ref 0)];
             Store.CObj [("id", Store.Imm (VStr "u5")); ("posts", Store.Ref 1)];
             Store.CObj [("data", Store.Ref 2)]] in
  exists newArgs s,
    Store.preprocessArgs exampleMeta alice (fun _ _ _ => false) "User"
      ["create"; "createMany"; "upsert"] 4 "create" (Store.Ref 3) s0 =
    Store.Done newArgs s /\
    holds 4 s newArgs
      (VObj [("data",
              VObj [("id", VStr "u5");
                    ("posts", VObj [("create", VObj [("title", VStr "a")])])])]).
Proof.
  intros s0. eexists _, _. split; [reflexivity|].
  exact (caller_properties_kept exampleMeta alice (fun _ _ _ => false) "User"
           ["create"; "createMany"; "upsert"] 4 "create" (Store.Ref 3) s0 _
           eq_refl).
Defined.

(** The same run, read back: [posts], which the caller has set, comes back
    with more under it.  The visitor has handed the nested [Post] node to the
    create callback, and the node has received the [connect] of its
    author. *)
Lemma nested_create_receives_defaults :
  let s0 := [Store.CObj [("title", Store.Imm (VStr "a"))];
             Store.CObj [("create", Store.Ref 0)];
             Store.CObj [("id", Store.Imm (VStr "u5")); ("posts", Store.Ref 1)];
             Store.CObj [("data", Store.Ref 2)]] in
  match Store.preprocessArgs exampleMeta alice (fun _ _ _ => false) "User"
          ["create"; "createMany"; "upsert"] 4 "create" (Store.Ref 3) s0 with
  | Store.Done newArgs s =>
      Store.readBack 6 s newArgs =
      Some (VObj [("data",
                   VObj [("id", VStr "u5");
                         ("posts",
                          VObj [("create",
                                 VObj [("title", VStr "a");
                                       ("author",
                                        VObj [("connect",
                                               VObj [("id", VStr "u1")])])])])])])
  | _ => False
  end.
Proof. vm_compute. reflexivity. Qed.
